(** * watcher: a shallow embedding of the ignore matcher and of the commit engine

    The development follows the Python sources [watcher/ignore.py] and
    [watcher/core.py].  Python strings are modelled as [string] (code points
    below 256), [pathlib] paths as lists of path segments, dictionaries as
    [gmap], sets as [gset].  External collaborators (the git executable, the
    notification program, the file system, [threading.Timer]) are modelled
    explicitly: git as an oracle answering each command from the history of
    effects, timers as objects in a heap with the waiting stage of
    [threading.Timer] kept apart from the execution of the callback. *)

From Stdlib Require Import Ascii String List Bool Arith Lia.
From stdpp Require Import base option list gmap strings pretty.

(** ** Python string primitives *)

Module PyStr.

  (** [str.isspace] for a single code point below 256. *)
Definition is_space (c : ascii) : bool :=
    match nat_of_ascii c with
    | 9 | 10 | 11 | 12 | 13 | 28 | 29 | 30 | 31 | 32 | 133 | 160 => true
    | _ => false
    end.

Definition is_empty (s : string) : bool :=
    match s with EmptyString => true | _ => false end.

Fixpoint lstrip (s : string) : string :=
    match s with
    | EmptyString => EmptyString
    | String c s' => if is_space c then lstrip s' else s
    end.

Fixpoint rstrip (s : string) : string :=
    match s with
    | EmptyString => EmptyString
    | String c s' =>
        let r := rstrip s' in
        if is_space c && is_empty r then EmptyString else String c r
    end.

  (** [s.strip()] *)
Definition strip (s : string) : string := rstrip (lstrip s).

  (** [s.startswith(p)] *)
Definition startswith (s p : string) : bool := String.prefix p s.

Fixpoint last_char (s : string) : option ascii :=
    match s with
    | EmptyString => None
    | String c EmptyString => Some c
    | String _ s' => last_char s'
    end.

  (** [s.endswith(c)] for a one-character suffix. *)
Definition endswith_char (s : string) (c : ascii) : bool :=
    match last_char s with
    | Some d => Ascii.eqb d c
    | None => false
    end.

  (** [s[:-1]] *)
Fixpoint drop_last (s : string) : string :=
    match s with
    | EmptyString => EmptyString
    | String _ EmptyString => EmptyString
    | String c s' => String c (drop_last s')
    end.

  (** [s.split(sep)] for a one-character separator: never the empty list. *)
Fixpoint split (sep : ascii) (s : string) : list string :=
    match s with
    | EmptyString => [EmptyString]
    | String c s' =>
        if Ascii.eqb c sep then EmptyString :: split sep s'
        else match split sep s' with
             | h :: t => String c h :: t
             | [] => [String c EmptyString]
             end
    end.

  (** [sep.join(l)] *)
Fixpoint join (sep : string) (l : list string) : string :=
    match l with
    | [] => EmptyString
    | [x] => x
    | x :: l' => x +:+ sep +:+ join sep l'
    end.

  (** The lines kept by
      [[line.strip() for line in s.strip().split('\n') if line.strip()]]. *)
Definition stripped_lines (s : string) : list string :=
    List.filter (fun l => negb (is_empty l))
                (List.map strip (split "010"%char (strip s))).

End PyStr.

(** ** [fnmatch.fnmatch] on POSIX (no case folding), after CPython's
    [fnmatch.translate] *)

Module Fnmatch.

Inductive tok :=
  | TStar
  | TAny
  | TLit (c : ascii)
  | TSet (neg : bool) (items : list (ascii * ascii)).

Definition ale (a b : ascii) : bool := Nat.leb (nat_of_ascii a) (nat_of_ascii b).

  (** Cut the bracket body into chunks at the hyphens that make ranges; after
      a range hyphen the next two characters are never range hyphens. *)
Fixpoint chunks_go (skip : nat) (cur : list ascii) (s : list ascii)
    : list (list ascii) :=
    match s with
    | [] => [cur]
    | c :: s' =>
        match skip with
        | S n => chunks_go n (cur ++ [c]) s'
        | O => if Ascii.eqb c "-" then cur :: chunks_go 2 [] s'
               else chunks_go 0 (cur ++ [c]) s'
        end
    end.

  (** A trailing hyphen is not a range: it goes back to the last chunk. *)
Fixpoint fix_trailing (cs : list (list ascii)) : list (list ascii) :=
    match cs with
    | [] => []
    | [c] => [c]
    | [c; []] => [c ++ ["-"%char]]
    | c :: cs' => c :: fix_trailing cs'
    end.

  (** Ranges whose start is above their end are removed with both ends. *)
Fixpoint remove_empty (cs : list (list ascii)) : list (list ascii) :=
    match cs with
    | [] => []
    | c :: cs' =>
        match remove_empty cs' with
        | [] => [c]
        | d :: ds =>
            match List.last (List.map Some c) None, d with
            | Some x, y :: d' =>
                if negb (ale x y) then (List.removelast c ++ d') :: ds
                else c :: d :: ds
            | _, _ => c :: d :: ds
            end
        end
    end.

Definition lits (s : list ascii) : list (ascii * ascii) :=
    List.map (fun c => (c, c)) s.

  (** The character class denoted by the chunks joined with range hyphens:
      the last character of a chunk and the first of the next one bound a
      range, every other character stands for itself.  A hyphen with nothing
      before it stands for itself. *)
Fixpoint class_go (c : list ascii) (cs : list (list ascii))
    : list (ascii * ascii) :=
    match cs with
    | [] => lits c
    | d :: cs' =>
        match List.last (List.map Some c) None, d with
        | Some x, y :: d' =>
            lits (List.removelast c) ++ (x, y) :: class_go d' cs'
        | _, _ => lits c ++ ("-"%char, "-"%char) :: class_go d cs'
        end
    end.

Definition class_of (cs : list (list ascii)) : list (ascii * ascii) :=
    match cs with
    | [] => []
    | c :: cs' => class_go c cs'
    end.

  (** The body of a bracket expression as a character class; a body that
      starts with an exclamation mark, also after the removal of empty ranges,
      is negated. *)
Definition set_of_stuff (stuff : list ascii) : tok :=
    let neg0 := match stuff with c :: _ => Ascii.eqb c "!" | [] => false end in
    let cs := remove_empty
                (fix_trailing (chunks_go (if neg0 then 2 else 1) [] stuff)) in
    match cs with
    | ("!"%char :: c0') :: rest => TSet true (class_go c0' rest)
    | _ => TSet false (class_of cs)
    end.

  (** Position of the closing bracket: an exclamation mark and then a closing
      bracket right after the opening one belong to the body. *)
Fixpoint find_close (s : list ascii) : option (list ascii * list ascii) :=
    match s with
    | [] => None
    | c :: s' =>
        if Ascii.eqb c "]" then Some ([], s')
        else match find_close s' with
             | Some (b, r) => Some (c :: b, r)
             | None => None
             end
    end.

Definition bracket (s : list ascii) : option (list ascii * list ascii) :=
    let '(p1, s1) := match s with
                     | c :: s' => if Ascii.eqb c "!" then ([c], s') else ([], s)
                     | [] => ([], s)
                     end in
    let '(p2, s2) := match s1 with
                     | c :: s' => if Ascii.eqb c "]" then (p1 ++ [c], s') else (p1, s1)
                     | [] => (p1, s1)
                     end in
    match find_close s2 with
    | Some (b, r) => Some (p2 ++ b, r)
    | None => None
    end.

  (** [translate]: the pattern as a list of tokens.  The fuel is the length of
      the pattern; every step consumes at least one character. *)
Fixpoint translate_go (fuel : nat) (pat : list ascii) : list tok :=
    match fuel with
    | O => []
    | S fuel' =>
        match pat with
        | [] => []
        | c :: p' =>
            if Ascii.eqb c "*" then TStar :: translate_go fuel' p'
            else if Ascii.eqb c "?" then TAny :: translate_go fuel' p'
            else if Ascii.eqb c "[" then
              match bracket p' with
              | Some (stuff, r) => set_of_stuff stuff :: translate_go fuel' r
              | None => TLit c :: translate_go fuel' p'
              end
            else TLit c :: translate_go fuel' p'
        end
    end.

Definition translate (pat : list ascii) : list tok :=
    translate_go (length pat) pat.

Definition in_class (items : list (ascii * ascii)) (c : ascii) : bool :=
    existsb (fun '(lo, hi) => ale lo c && ale c hi) items.

Fixpoint match_toks (ts : list tok) (s : list ascii) : bool :=
    match ts with
    | [] => match s with [] => true | _ => false end
    | TStar :: ts' =>
        (fix star (s : list ascii) : bool :=
           match_toks ts' s
           || match s with [] => false | _ :: s' => star s' end) s
    | TAny :: ts' =>
        match s with [] => false | _ :: s' => match_toks ts' s' end
    | TLit a :: ts' =>
        match s with
        | [] => false
        | c :: s' => Ascii.eqb a c && match_toks ts' s'
        end
    | TSet neg items :: ts' =>
        match s with
        | [] => false
        | c :: s' => xorb neg (in_class items c) && match_toks ts' s'
        end
    end.

Definition fnmatch (name pat : string) : bool :=
    match_toks (translate (list_ascii_of_string pat)) (list_ascii_of_string name).

End Fnmatch.

(** ** [pathlib] paths

    An absolute, resolved path is the list of its segments below the root;
    a relative path is a list of segments too. *)

Module Pathlib.
  Import PyStr.

Definition Path := list string.

  (** The segments of a path written as text: empty segments and single dots
      are dropped, as [PurePosixPath] does. *)
Definition parts_of (s : string) : list string :=
    List.filter (fun x => negb (is_empty x) && negb (String.eqb x "."))
                (split "/" s).

  (** [Path(s)] for the text of an absolute path. *)
Definition Path_of_str (s : string) : Path := parts_of s.

  (** [str(p)] for an absolute path. *)
Definition path_str (p : Path) : string := "/" +:+ join "/" p.

  (** [str(r)] for a relative path: the empty one prints as a dot. *)
Definition rel_str (r : list string) : string :=
    match r with
    | [] => "."
    | _ => join "/" r
    end.

  (** [p.name] *)
Definition name (p : list string) : string := List.last p "".

  (** [Path(s).name] *)
Definition name_of_str (s : string) : string := name (parts_of s).

  (** [p.parent]; the root is its own parent. *)
Definition parent (p : Path) : Path := List.removelast p.

  (** [p / s] *)
Definition joinpath (p : Path) (s : string) : Path :=
    if startswith s "/" then parts_of s else p ++ parts_of s.

  (** [p.relative_to(base)]: [None] stands for [ValueError]. *)
Fixpoint relative_to (p base : Path) : option (list string) :=
    match base with
    | [] => Some p
    | b :: base' =>
        match p with
        | [] => None
        | x :: p' => if String.eqb x b then relative_to p' base' else None
        end
    end.

  (** [p.is_relative_to(base)] *)
Definition is_relative_to (p base : Path) : bool :=
    match relative_to p base with Some _ => true | None => false end.

Definition path_eqb (p q : Path) : bool := bool_decide (p = q).

  (** [p >= q]: the segment lists compared lexicographically. *)
Fixpoint parts_le (a b : list string) : bool :=
    match a, b with
    | [], _ => true
    | _ :: _, [] => false
    | x :: a', y :: b' =>
        match String.compare x y with
        | Lt => true
        | Gt => false
        | Eq => parts_le a' b'
        end
    end.

Definition path_ge (p q : Path) : bool := parts_le q p.

End Pathlib.

(** ** [watcher/ignore.py]: the ignore manager *)

Module Ignore.
  Import PyStr Pathlib.

  (** The parts of the file system the ignore manager reads: how a path given
      as text resolves, and the lines of a file ([None]: no such file). *)
Record FileSystem := {
    resolve : string -> Path;
    read_lines : Path -> option (list string)
  }.

Record IgnoreManager := {
    watch_dir : Path;
    global_patterns : list string;
    config_patterns : list string;
    additional_patterns : list string;
    respect_gitignore : bool;
    gitignore_patterns : gmap string (list string)
  }.

Definition all_patterns (im : IgnoreManager) : list string :=
    global_patterns im ++ config_patterns im ++ additional_patterns im.

Definition set_gitignore_patterns (im : IgnoreManager)
    (c : gmap string (list string)) : IgnoreManager :=
    {| watch_dir := watch_dir im;
       global_patterns := global_patterns im;
       config_patterns := config_patterns im;
       additional_patterns := additional_patterns im;
       respect_gitignore := respect_gitignore im;
       gitignore_patterns := c |}.

  (** [_matches_pattern] *)
Definition matches_pattern (file_path pattern : string) : bool :=
    let pattern := strip pattern in
    if is_empty pattern || startswith pattern "#" then false
    else if startswith pattern "!" then false
    else if endswith_char pattern "/" then
      let pattern := drop_last pattern in
      let path_parts := split "/" file_path in
      existsb (fun i => Fnmatch.fnmatch (join "/" (List.firstn (i + 1) path_parts)) pattern)
              (List.seq 0 (length path_parts))
    else
      Fnmatch.fnmatch file_path pattern
      || Fnmatch.fnmatch (name_of_str file_path) pattern.

  Section WithFileSystem.
    Variable fs : FileSystem.

    (** [_load_ignore_file] *)
Definition load_ignore_file (ignore_path : Path) : list string :=
      match read_lines fs ignore_path with
      | None => []
      | Some ls =>
          List.filter (fun l => negb (is_empty l) && negb (startswith l "#"))
                      (List.map strip ls)
      end.

    (** The loop of [_matches_gitignore], from [current_dir] upwards.  The
        fuel bounds the number of iterations; one more than the depth of
        [current_dir] is always enough. *)
Fixpoint gitignore_walk (fuel : nat) (im : IgnoreManager)
      (file_path current_dir : Path) : bool * IgnoreManager :=
      match fuel with
      | O => (false, im)
      | S fuel' =>
          if path_ge current_dir (watch_dir im) then
            let gitignore_path := joinpath current_dir ".gitignore" in
            let key := path_str current_dir in
            let im1 :=
              match read_lines fs gitignore_path with
              | Some _ =>
                  match gitignore_patterns im !! key with
                  | Some _ => im
                  | None =>
                      set_gitignore_patterns im
                        (<[key := load_ignore_file gitignore_path]>
                           (gitignore_patterns im))
                  end
              | None => im
              end in
            let hit :=
              match read_lines fs gitignore_path with
              | Some _ =>
                  match relative_to file_path current_dir with
                  | Some rel =>
                      existsb (matches_pattern (rel_str rel))
                              (default [] (gitignore_patterns im1 !! key))
                  | None => false
                  end
              | None => false
              end in
            if hit then (true, im1)
            else if path_eqb current_dir (watch_dir im) then (false, im1)
            else gitignore_walk fuel' im1 file_path (parent current_dir)
          else (false, im)
      end.

    (** [_matches_gitignore] *)
Definition matches_gitignore (im : IgnoreManager) (file_path : Path)
      : bool * IgnoreManager :=
      let current_dir := parent file_path in
      gitignore_walk (S (length current_dir)) im file_path current_dir.

    (** [should_ignore]: the decision and the manager with its cache of
        [.gitignore] files. *)
Definition should_ignore (im : IgnoreManager) (file_path : string)
      : bool * IgnoreManager :=
      let file_path := resolve fs file_path in
      match relative_to file_path (watch_dir im) with
      | None => (true, im)
      | Some rel_path =>
          let rel_path_str := rel_str rel_path in
          if existsb (matches_pattern rel_path_str) (all_patterns im)
          then (true, im)
          else if respect_gitignore im then matches_gitignore im file_path
          else (false, im)
      end.

  End WithFileSystem.

End Ignore.

(** ** [watcher/core.py]: the commit handler *)

Module Core.
  Import PyStr Pathlib Ignore.

  (** The fields of the configuration dictionary the handler reads. *)
Record Config := {
    cfg_name : string;
    commit_delay : nat;
    fetch_interval : nat;
    enable_notifications : bool;
    notify_on_commit : bool;
    notify_on_remote_changes : bool;
    auto_push : bool
  }.

Record CompletedProcess := { returncode : Z; stdout : string }.

  (** [subprocess.run] either completes or raises. *)
Inductive RunResult :=
  | Completed (r : CompletedProcess)
  | RunError.

  (** What the handler does to the outside: a git command run in a working
      directory, with its outcome, or a call of the notification program. *)
Inductive Effect :=
  | EGit (cmd : list string) (cwd : Path) (res : RunResult)
  | ENotify (args : list string).

  (** A [threading.Timer]: the function it calls, when its waiting stage ends,
      the flag set by [cancel], and how far its thread has got.  [Fired] is a
      timer whose waiting stage is over and whose function has been called but
      has not taken the lock yet; [Committing] is a callback that has left the
      locked region with the swapped-out pending set. *)
Inductive Callback :=
  | CommitCb (dir_key : string)
  | FetchCb.

Inductive Phase :=
  | Waiting
  | Fired
  | Committing (changed_files : gset string)
  | Done.

Record Timer := {
    t_deadline : nat;
    t_callback : Callback;
    t_finished : bool;
    t_phase : Phase
  }.

  (** A delayed commit that got past the guard of [_execute_delayed_commit]:
      when, by which timer, for which directory, with which pending set. *)
Record Attempt := {
    a_time : nat;
    a_timer : nat;
    a_key : string;
    a_files : gset string
  }.

  (** The state of a handler and of its timers, the effects so far, and the
      history of the delayed commits started so far. *)
Record World := {
    now : nat;
    timers : list Timer;
    submodules : list Path;
    pending_commits : gmap string (gset string);
    commit_timers : gmap string nat;
    fetch_timer : option nat;
    ignore_manager : IgnoreManager;
    effects : list Effect;
    attempts : list Attempt
  }.

  (** The environment of a handler: its configuration, the repository, the
      file system, and git, which answers a command from the effects so far. *)
Record Env := {
    config : Config;
    repo_dir : Path;
    fs : FileSystem;
    git : list Effect -> list string -> Path -> RunResult
  }.

Definition set_now (w : World) (x : nat) : World :=
    {| now := x; timers := timers w; submodules := submodules w;
       pending_commits := pending_commits w; commit_timers := commit_timers w;
       fetch_timer := fetch_timer w; ignore_manager := ignore_manager w;
       effects := effects w; attempts := attempts w |}.

Definition set_timers (w : World) (x : list Timer) : World :=
    {| now := now w; timers := x; submodules := submodules w;
       pending_commits := pending_commits w; commit_timers := commit_timers w;
       fetch_timer := fetch_timer w; ignore_manager := ignore_manager w;
       effects := effects w; attempts := attempts w |}.

Definition set_submodules (w : World) (x : list Path) : World :=
    {| now := now w; timers := timers w; submodules := x;
       pending_commits := pending_commits w; commit_timers := commit_timers w;
       fetch_timer := fetch_timer w; ignore_manager := ignore_manager w;
       effects := effects w; attempts := attempts w |}.

Definition set_pending_commits (w : World) (x : gmap string (gset string)) : World :=
    {| now := now w; timers := timers w; submodules := submodules w;
       pending_commits := x; commit_timers := commit_timers w;
       fetch_timer := fetch_timer w; ignore_manager := ignore_manager w;
       effects := effects w; attempts := attempts w |}.

Definition set_commit_timers (w : World) (x : gmap string nat) : World :=
    {| now := now w; timers := timers w; submodules := submodules w;
       pending_commits := pending_commits w; commit_timers := x;
       fetch_timer := fetch_timer w; ignore_manager := ignore_manager w;
       effects := effects w; attempts := attempts w |}.

Definition set_fetch_timer (w : World) (x : option nat) : World :=
    {| now := now w; timers := timers w; submodules := submodules w;
       pending_commits := pending_commits w; commit_timers := commit_timers w;
       fetch_timer := x; ignore_manager := ignore_manager w;
       effects := effects w; attempts := attempts w |}.

Definition set_ignore_manager (w : World) (x : IgnoreManager) : World :=
    {| now := now w; timers := timers w; submodules := submodules w;
       pending_commits := pending_commits w; commit_timers := commit_timers w;
       fetch_timer := fetch_timer w; ignore_manager := x;
       effects := effects w; attempts := attempts w |}.

Definition set_effects (w : World) (x : list Effect) : World :=
    {| now := now w; timers := timers w; submodules := submodules w;
       pending_commits := pending_commits w; commit_timers := commit_timers w;
       fetch_timer := fetch_timer w; ignore_manager := ignore_manager w;
       effects := x; attempts := attempts w |}.

Definition set_attempts (w : World) (x : list Attempt) : World :=
    {| now := now w; timers := timers w; submodules := submodules w;
       pending_commits := pending_commits w; commit_timers := commit_timers w;
       fetch_timer := fetch_timer w; ignore_manager := ignore_manager w;
       effects := effects w; attempts := x |}.

  (** *** Computations: a state monad over the world, with exceptions *)

Inductive Res (A : Type) :=
  | Ok (a : A)
  | Exc.
  Arguments Ok {A} a.
  Arguments Exc {A}.

Definition M (A : Type) : Type := World -> Res A * World.

Definition ret {A} (a : A) : M A := fun w => (Ok a, w).

Definition bind {A B} (m : M A) (k : A -> M B) : M B :=
    fun w => match m w with
             | (Ok a, w') => k a w'
             | (Exc, w') => (Exc, w')
             end.

Definition raise {A} : M A := fun w => (Exc, w).

  (** [try: m except Exception: h] *)
Definition catch {A} (m : M A) (h : M A) : M A :=
    fun w => match m w with
             | (Ok a, w') => (Ok a, w')
             | (Exc, w') => h w'
             end.

Definition when (b : bool) (m : M unit) : M unit :=
    if b then m else ret tt.

  Notation "x <- m ;; k" := (bind m (fun x => k))
    (at level 100, m at next level, right associativity).
  Notation "m ;;; k" := (bind m (fun _ => k))
    (at level 100, right associativity).

Definition emit (e : Effect) : M unit :=
    fun w => (Ok tt, set_effects w (effects w ++ [e])).

Definition ok (r : CompletedProcess) : bool := (returncode r =? 0)%Z.

  (** *** Timers *)

  (** [threading.Timer(interval, f, args)] followed by [start()]: the handle
      of the new timer is its index in the heap. *)
Definition start_timer (interval : nat) (cb : Callback) : M nat :=
    fun w =>
      (Ok (length (timers w)),
       set_timers w (timers w ++ [{| t_deadline := now w + interval;
                                     t_callback := cb;
                                     t_finished := false;
                                     t_phase := Waiting |}])).

Definition cancelled (t : Timer) : Timer :=
    {| t_deadline := t_deadline t; t_callback := t_callback t;
       t_finished := true; t_phase := t_phase t |}.

Definition with_phase (t : Timer) (p : Phase) : Timer :=
    {| t_deadline := t_deadline t; t_callback := t_callback t;
       t_finished := t_finished t; t_phase := p |}.

  (** [timer.cancel()] *)
Definition cancel_timer (ts : list Timer) (id : nat) : list Timer :=
    alter cancelled id ts.

Definition cancel (id : nat) : M unit :=
    fun w => (Ok tt, set_timers w (cancel_timer (timers w) id)).

  Section WithEnv.
    Variable E : Env.

    (** [_run_git_command]: the command is recorded, git answers from the
        effects before it; a non-zero return code is returned, an error of the
        runner is raised again. *)
Definition run_git_command (cmd : list string) (cwd : Path)
      : M CompletedProcess :=
      fun w =>
        let res := git E (effects w) cmd cwd in
        let w' := set_effects w (effects w ++ [EGit cmd cwd res]) in
        match res with
        | Completed r => (Ok r, w')
        | RunError => (Exc, w')
        end.

    (** [_get_submodules] *)
Definition get_submodules : M (list Path) :=
      catch
        (result <- run_git_command
                     ["git"; "submodule"; "foreach"; "--quiet"; "echo $sm_path"]
                     (repo_dir E) ;;
         if ok result then
           ret (List.map (fun line => joinpath (repo_dir E) (strip line))
                  (List.filter (fun line => negb (is_empty (strip line)))
                     (split "010"%char (strip (stdout result)))))
         else ret [])
        (ret []).

    (** [_is_in_submodule] *)
Definition is_in_submodule (w : World) (file_path : Path) : bool :=
      existsb (fun submodule => is_relative_to file_path submodule) (submodules w).

    (** [_get_submodule_for_file] *)
Definition get_submodule_for_file (w : World) (file_path : Path)
      : option Path :=
      List.find (fun submodule => is_relative_to file_path submodule) (submodules w).

    (** [_should_exclude_file] *)
Definition should_exclude_file (file_path : string) : M bool :=
      fun w =>
        let '(b, im) := should_ignore (fs E) (ignore_manager w) file_path in
        (Ok b, set_ignore_manager w im).

    (** The directory whose repository a change belongs to; a file in no
        submodule belongs to the main repository. *)
Definition target_of (w : World) (file_path : Path) : option Path :=
      if is_in_submodule w file_path then get_submodule_for_file w file_path
      else Some (repo_dir E).

    (** The region of [_handle_file_change] under [timer_lock]. *)
Definition schedule_commit (dir_key : string) (file_path : Path) : M unit :=
      fun w =>
        let pc1 := match pending_commits w !! dir_key with
                   | Some _ => pending_commits w
                   | None => <[dir_key := ∅]> (pending_commits w)
                   end in
        let pc2 := <[dir_key := default ∅ (pc1 !! dir_key) ∪ {[path_str file_path]}]> pc1 in
        let ts1 := match commit_timers w !! dir_key with
                   | Some id => cancel_timer (timers w) id
                   | None => timers w
                   end in
        let w1 := set_timers (set_pending_commits w pc2) ts1 in
        match start_timer (commit_delay (config E)) (CommitCb dir_key) w1 with
        | (Ok timer, w2) =>
            (Ok tt, set_commit_timers w2 (<[dir_key := timer]> (commit_timers w2)))
        | (Exc, w2) => (Exc, w2)
        end.

    (** [_handle_file_change] *)
Definition handle_file_change (file_path : string) (change_type : string)
      : M unit :=
      excluded <- should_exclude_file file_path ;;
      if excluded then ret tt
      else
        let file_path := resolve (fs E) file_path in
        fun w =>
          match target_of w file_path with
          | Some target_dir => schedule_commit (path_str target_dir) file_path w
          | None => (Exc, w)
          end.

    (** [_push_changes] *)
Definition push_changes (repo : Path) (repo_name : string) : M unit :=
      _ <- run_git_command ["git"; "push"] repo ;; ret tt.

    (** [_send_commit_notification]: a failure of the notification program is
        caught and printed. *)
Definition send_commit_notification (commit_message : string) : M unit :=
      emit (ENotify ["notify-send";
                     "📦 " +:+ cfg_name (config E) +:+ " Commit";
                     commit_message; "-t"; "5000"; "-a"; "Watcher"]).

Definition count_prefix (p : string) (status_lines : list string) : nat :=
      length (List.filter (fun line => startswith line p) status_lines).

Definition plural (n : nat) : string := if Nat.eqb n 1 then "" else "s".

    (** The message built from the stripped, non-empty status lines. *)
Definition message_of_status (status_lines : list string) : string :=
      let created := count_prefix "A " status_lines in
      let modified :=
        length (List.filter (fun line => startswith line "M " || startswith line " M")
                            status_lines) in
      let deleted := count_prefix "D " status_lines in
      let renamed := count_prefix "R " status_lines in
      let parts :=
        (if 0 <? created
         then ["created " +:+ pretty created +:+ " file" +:+ plural created] else [])
        ++ (if 0 <? modified
            then ["modified " +:+ pretty modified +:+ " file" +:+ plural modified] else [])
        ++ (if 0 <? deleted
            then ["deleted " +:+ pretty deleted +:+ " file" +:+ plural deleted] else [])
        ++ (if 0 <? renamed
            then ["renamed " +:+ pretty renamed +:+ " file" +:+ plural renamed] else []) in
      match parts with
      | [] => "Auto-commit: updated files"
      | _ => "Auto-commit: " +:+ join ", " parts
      end.

    (** What [_create_squashed_commit_message] returns for a completed
        [git status --porcelain]. *)
Definition message_of_result (status_result : CompletedProcess) : string :=
      if negb (ok status_result) then "Update files"
      else
        let status_lines := stripped_lines (stdout status_result) in
        match status_lines with
        | [] => "Update files"
        | _ => message_of_status status_lines
        end.

    (** [_create_squashed_commit_message] *)
Definition create_squashed_commit_message (repo : Path)
      (changed_files : gset string) : M string :=
      catch
        (status_result <- run_git_command ["git"; "status"; "--porcelain"] repo ;;
         ret (message_of_result status_result))
        (ret "Auto-commit: updated files").

Definition notify_commits : bool :=
      enable_notifications (config E) && notify_on_commit (config E).

    (** [_commit_submodule_update] *)
Definition commit_submodule_update (submodule_dir : Path) : M unit :=
      match relative_to submodule_dir (repo_dir E) with
      | None => raise
      | Some rel_path =>
          stage_result <- run_git_command ["git"; "add"; rel_str rel_path] (repo_dir E) ;;
          if negb (ok stage_result) then ret tt
          else
            status_result <- run_git_command ["git"; "diff"; "--cached"; "--quiet"]
                               (repo_dir E) ;;
            if ok status_result then ret tt
            else
              let commit_message := "Update " +:+ name submodule_dir +:+ " submodule" in
              commit_result <- run_git_command ["git"; "commit"; "-m"; commit_message]
                                 (repo_dir E) ;;
              if ok commit_result then
                when notify_commits (send_commit_notification commit_message) ;;;
                when (auto_push (config E)) (push_changes (repo_dir E) "main repo")
              else ret tt
      end.

    (** [_commit_squashed_submodule] *)
Definition commit_squashed_submodule (submodule_dir : Path)
      (changed_files : gset string) : M unit :=
      stage_result <- run_git_command ["git"; "add"; "."] submodule_dir ;;
      if negb (ok stage_result) then ret tt
      else
        commit_message <- create_squashed_commit_message submodule_dir changed_files ;;
        commit_result <- run_git_command ["git"; "commit"; "-m"; commit_message]
                           submodule_dir ;;
        if ok commit_result then
          when (auto_push (config E))
               (push_changes submodule_dir ("submodule " +:+ name submodule_dir)) ;;;
          commit_submodule_update submodule_dir
        else ret tt.

    (** [_commit_squashed_main_repo] *)
Definition commit_squashed_main_repo (repo : Path)
      (changed_files : gset string) : M unit :=
      stage_result <- run_git_command ["git"; "add"; "."] repo ;;
      if negb (ok stage_result) then ret tt
      else
        commit_message <- create_squashed_commit_message repo changed_files ;;
        commit_result <- run_git_command ["git"; "commit"; "-m"; commit_message] repo ;;
        if ok commit_result then
          when notify_commits (send_commit_notification commit_message) ;;;
          when (auto_push (config E)) (push_changes (repo_dir E) "main repo")
        else ret tt.

    (** The region of [_execute_delayed_commit] under [timer_lock]: [None] is
        the early return, otherwise the pending set is swapped out and the
        entries of the directory are deleted. *)
Definition execute_delayed_commit_locked (dir_key : string) (w : World)
      : option (gset string) * World :=
      match pending_commits w !! dir_key with
      | None => (None, w)
      | Some changed_files =>
          (Some changed_files,
           set_commit_timers
             (set_pending_commits w (delete dir_key (pending_commits w)))
             (delete dir_key (commit_timers w)))
      end.

    (** [_execute_delayed_commit] after the lock is released. *)
Definition execute_delayed_commit_unlocked (dir_key : string)
      (changed_files : gset string) : M unit :=
      fun w =>
        let target_dir := Path_of_str dir_key in
        if bool_decide (target_dir ∈ submodules w)
        then commit_squashed_submodule target_dir changed_files w
        else commit_squashed_main_repo target_dir changed_files w.

    (** [_execute_delayed_commit] *)
Definition execute_delayed_commit (dir_key : string) : M unit :=
      fun w =>
        match execute_delayed_commit_locked dir_key w with
        | (None, w') => (Ok tt, w')
        | (Some changed_files, w') =>
            execute_delayed_commit_unlocked dir_key changed_files w'
        end.

    (** [start_fetch_timer] *)
Definition start_fetch_timer : M unit :=
      (fun w => match fetch_timer w with
                | Some id => cancel id w
                | None => (Ok tt, w)
                end) ;;;
      timer <- start_timer (fetch_interval (config E)) FetchCb ;;
      fun w => (Ok tt, set_fetch_timer w (Some timer)).

    (** [_fetch_and_check_changes] *)
Definition fetch_and_check_changes (repo : Path) (repo_name : string)
      : M (option string) :=
      head_result <- run_git_command ["git"; "rev-parse"; "HEAD"] repo ;;
      if negb (ok head_result) then ret None
      else
        let old_head := strip (stdout head_result) in
        fetch_result <- run_git_command ["git"; "fetch"] repo ;;
        if negb (ok fetch_result) then ret None
        else
          branch_result <- run_git_command ["git"; "branch"; "--show-current"] repo ;;
          if negb (ok branch_result) then ret None
          else
            let current_branch := strip (stdout branch_result) in
            if is_empty current_branch then ret None
            else
              remote_head_result <-
                run_git_command ["git"; "rev-parse"; "origin/" +:+ current_branch] repo ;;
              if negb (ok remote_head_result) then ret None
              else
                let remote_head := strip (stdout remote_head_result) in
                if negb (String.eqb old_head remote_head) then
                  count_result <-
                    run_git_command
                      ["git"; "rev-list"; "--count"; old_head +:+ ".." +:+ remote_head]
                      repo ;;
                  if ok count_result then
                    let commit_count := strip (stdout count_result) in
                    ret (Some (commit_count +:+ " new commit"
                               +:+ (if String.eqb commit_count "1" then "" else "s")))
                  else ret None
                else ret None.

    (** Truth value of an optional string. *)
Definition truthy (o : option string) : bool :=
      match o with
      | Some s => negb (is_empty s)
      | None => false
      end.

    (** [d[k] = v] on a dictionary kept in insertion order. *)
Fixpoint dict_set (d : list (string * string)) (k v : string)
      : list (string * string) :=
      match d with
      | [] => [(k, v)]
      | (k', v') :: d' =>
          if String.eqb k' k then (k', v) :: d' else (k', v') :: dict_set d' k v
      end.

Definition remote_notification (body : string) : Effect :=
      ENotify ["notify-send";
               "🔄 " +:+ cfg_name (config E) +:+ " Remote Changes";
               body; "-t"; "10000"; "-a"; "Watcher"].

    (** [_send_change_notification] *)
Definition send_change_notification (main_changes : option string)
      (submodule_changes : list (string * string)) : M unit :=
      when (truthy main_changes)
           (emit (remote_notification ("Main repo: " +:+ default "" main_changes))) ;;;
      List.fold_right
        (fun '(submodule, changes) k =>
           emit (remote_notification (submodule +:+ ": " +:+ changes)) ;;; k)
        (ret tt) submodule_changes.

    (** The loop of [_periodic_fetch] over the submodules. *)
Fixpoint fetch_submodules (subs : list Path)
      (submodule_changes : list (string * string)) : M (list (string * string)) :=
      match subs with
      | [] => ret submodule_changes
      | submodule :: subs' =>
          changes <- fetch_and_check_changes submodule
                       ("submodule " +:+ name submodule) ;;
          fetch_submodules subs'
            (if truthy changes
             then dict_set submodule_changes (name submodule) (default "" changes)
             else submodule_changes)
      end.

    (** [_periodic_fetch] *)
Definition periodic_fetch : M unit :=
      main_changes <- fetch_and_check_changes (repo_dir E) "main repo" ;;
      submodule_changes <- (fun w => fetch_submodules (submodules w) [] w) ;;
      when (truthy main_changes
            || match submodule_changes with [] => false | _ => true end)
           (when (enable_notifications (config E)
                  && notify_on_remote_changes (config E))
                 (send_change_notification main_changes submodule_changes)) ;;;
      start_fetch_timer.

    (** [_commit_existing_in_repo] *)
Definition commit_existing_in_repo (repo : Path) (repo_name : string)
      : M unit :=
      status_result <- run_git_command ["git"; "status"; "--porcelain"] repo ;;
      if ok status_result && negb (is_empty (strip (stdout status_result))) then
        add_result <- run_git_command ["git"; "add"; "."] repo ;;
        if ok add_result then
          let commit_message := "Auto-commit existing changes in " +:+ repo_name in
          commit_result <- run_git_command ["git"; "commit"; "-m"; commit_message] repo ;;
          if ok commit_result then
            when notify_commits (send_commit_notification commit_message) ;;;
            if auto_push (config E) then
              if path_eqb repo (repo_dir E) then push_changes repo "main repo"
              else
                push_changes repo ("submodule " +:+ name repo) ;;;
                commit_submodule_update repo
            else ret tt
          else ret tt
        else ret tt
      else ret tt.

Fixpoint commit_existing_in_submodules (subs : list Path) : M unit :=
      match subs with
      | [] => ret tt
      | submodule :: subs' =>
          commit_existing_in_repo submodule ("submodule " +:+ name submodule) ;;;
          commit_existing_in_submodules subs'
      end.

    (** [_commit_existing_changes] *)
Definition commit_existing_changes : M unit :=
      commit_existing_in_repo (repo_dir E) "main repo" ;;;
      fun w => commit_existing_in_submodules (submodules w) w.

    (** [stop] *)
Definition stop : M unit :=
      (fun w =>
         (Ok tt,
          set_commit_timers
            (set_timers w
               (List.fold_left (fun ts kv => cancel_timer ts (snd kv))
                               (map_to_list (commit_timers w)) (timers w)))
            ∅)) ;;;
      fun w => match fetch_timer w with
               | Some id => cancel id w
               | None => (Ok tt, w)
               end.

    (** The world when [__init__] starts: nothing pending, no timer. *)
Definition fresh (im : IgnoreManager) : World :=
      {| now := 0; timers := []; submodules := [];
         pending_commits := ∅; commit_timers := ∅; fetch_timer := None;
         ignore_manager := im; effects := []; attempts := [] |}.

    (** [__init__], from the submodule discovery on. *)
Definition init : M unit :=
      subs <- get_submodules ;;
      (fun w => (Ok tt, set_submodules w subs)) ;;;
      commit_existing_changes ;;;
      start_fetch_timer.

    (** *** Events of the file system *)

Record FileSystemEvent := {
      is_directory : bool;
      src_path : string;
      dest_path : option string
    }.

    (** [on_modified] *)
Definition on_modified (event : FileSystemEvent) : M unit :=
      if is_directory event then ret tt
      else handle_file_change (src_path event) "modified".

    (** [on_created] *)
Definition on_created (event : FileSystemEvent) : M unit :=
      if is_directory event then ret tt
      else handle_file_change (src_path event) "created".

    (** [on_deleted] *)
Definition on_deleted (event : FileSystemEvent) : M unit :=
      if is_directory event then ret tt
      else handle_file_change (src_path event) "deleted".

    (** [on_moved]: [dest_path] is [None] for an event without the attribute. *)
Definition on_moved (event : FileSystemEvent) : M unit :=
      if is_directory event then ret tt
      else match dest_path event with
           | Some dest => handle_file_change dest "moved"
           | None => ret tt
           end.

    (** *** The threads: event source, timers, shutdown

        One action is one atomic step of one thread.  The event source calls a
        handler method; a timer leaves its waiting stage once its interval has
        passed, unless it was cancelled before ([AExpire]); the callback of a
        commit timer then runs its locked region ([ALock]) and, past the guard,
        the commit itself off the lock ([ACommit]); the callback of a fetch
        timer runs the poll cycle ([AFetch]); the main thread calls [stop]. *)

Inductive EventKind := Modified | Created | Deleted | Moved.

Inductive Action :=
    | ATick
    | AEvent (kind : EventKind) (event : FileSystemEvent)
    | AExpire (id : nat)
    | ALock (id : nat)
    | ACommit (id : nat)
    | AFetch (id : nat)
    | AStop.

Definition dispatch (kind : EventKind) (event : FileSystemEvent) : M unit :=
      match kind with
      | Modified => on_modified event
      | Created => on_created event
      | Deleted => on_deleted event
      | Moved => on_moved event
      end.

    (** The world after a computation run by a thread; an exception ends the
        thread and leaves the world as it is then. *)
Definition exec {A} (m : M A) (w : World) : World := snd (m w).

Definition set_phase (id : nat) (p : Phase) (w : World) : World :=
      set_timers w (alter (fun t => with_phase t p) id (timers w)).

Definition step (a : Action) (w : World) : option World :=
      match a with
      | ATick => Some (set_now w (S (now w)))
      | AEvent kind event => Some (exec (dispatch kind event) w)
      | AExpire id =>
          match timers w !! id with
          | Some t =>
              match t_phase t with
              | Waiting =>
                  if negb (t_finished t) && (t_deadline t <=? now w)
                  then Some (set_phase id Fired w)
                  else None
              | _ => None
              end
          | None => None
          end
      | ALock id =>
          match timers w !! id with
          | Some t =>
              match t_phase t, t_callback t with
              | Fired, CommitCb dir_key =>
                  match execute_delayed_commit_locked dir_key w with
                  | (None, w') => Some (set_phase id Done w')
                  | (Some changed_files, w') =>
                      Some (set_phase id (Committing changed_files) w')
                  end
              | _, _ => None
              end
          | None => None
          end
      | ACommit id =>
          match timers w !! id with
          | Some t =>
              match t_phase t, t_callback t with
              | Committing changed_files, CommitCb dir_key =>
                  let w1 := set_attempts w
                              (attempts w ++ [{| a_time := now w; a_timer := id;
                                                 a_key := dir_key;
                                                 a_files := changed_files |}]) in
                  Some (set_phase id Done
                          (exec (execute_delayed_commit_unlocked dir_key changed_files) w1))
              | _, _ => None
              end
          | None => None
          end
      | AFetch id =>
          match timers w !! id with
          | Some t =>
              match t_phase t, t_callback t with
              | Fired, FetchCb => Some (set_phase id Done (exec periodic_fetch w))
              | _, _ => None
              end
          | None => None
          end
      | AStop => Some (exec stop w)
      end.

Fixpoint run (tr : list Action) (w : World) : option World :=
      match tr with
      | [] => Some w
      | a :: tr' =>
          match step a w with
          | Some w' => run tr' w'
          | None => None
          end
      end.

  End WithEnv.

End Core.

(** ** The commit message as the specification words it *)

Module Spec.
  Import PyStr.

  (** One category of the message: nothing for a count of zero, else the verb,
      the count, and "file" or "files". *)
Definition category (verb : string) (n : nat) : list string :=
    match n with
    | 0 => []
    | 1 => [verb +:+ " 1 file"]
    | _ => [verb +:+ " " +:+ pretty n +:+ " files"]
    end.

  (** The non-zero categories joined in the order created, modified, deleted,
      renamed; with no category at all, the fallback. *)
Definition auto_commit_message (created modified deleted renamed : nat)
    : string :=
    match (category "created" created ++ category "modified" modified
           ++ category "deleted" deleted ++ category "renamed" renamed)%list with
    | [] => "Auto-commit: updated files"
    | parts => "Auto-commit: " +:+ join ", " parts
    end.

End Spec.

(** ** Auxiliary notions for the statements *)

Module Aux.
  Import PyStr Pathlib Ignore Core.

  (** The same event reported with another source path. *)
Definition with_src_path (event : FileSystemEvent) (s : string)
    : FileSystemEvent :=
    {| is_directory := is_directory event; src_path := s;
       dest_path := dest_path event |}.

  (** The files pending for a directory; none when it has no entry. *)
Definition pending_for (w : World) (dir_key : string) : gset string :=
    default ∅ (pending_commits w !! dir_key).

  (** The modified lines of a status output, as the handler counts them. *)
Definition count_modified (status_lines : list string) : nat :=
    length (List.filter (fun line => startswith line "M " || startswith line " M")
                        status_lines).

  (** *** Reading the record of effects *)

  (** The effects added between two worlds. *)
Definition new_effects (w w' : World) : list Effect :=
    List.skipn (length (effects w)) (effects w').

Fixpoint cmd_eqb (a b : list string) : bool :=
    match a, b with
    | [], [] => true
    | x :: a', y :: b' => String.eqb x y && cmd_eqb a' b'
    | _, _ => false
    end.

  (** No command of the record failed to run. *)
Definition no_runner_error (L : list Effect) : bool :=
    forallb (fun e => match e with
                      | EGit _ _ RunError => false
                      | _ => true
                      end) L.

  (** The outcomes, in order, of the runs of one command in one directory. *)
Definition git_results (cmd : list string) (cwd : Path)
    (L : list Effect) : list RunResult :=
    omap (fun e => match e with
                   | EGit c d r =>
                       if path_eqb d cwd && cmd_eqb c cmd then Some r else None
                   | ENotify _ => None
                   end) L.

  (** The directories, in order, in which one command ran. *)
Definition git_dirs (cmd : list string) (L : list Effect)
    : list Path :=
    omap (fun e => match e with
                   | EGit c d _ => if cmd_eqb c cmd then Some d else None
                   | ENotify _ => None
                   end) L.

  (** The commits attempted in one directory: message and outcome. *)
Definition commits_in (cwd : Path) (L : list Effect)
    : list (string * RunResult) :=
    omap (fun e => match e with
                   | EGit ["git"; "commit"; "-m"; m] d r =>
                       if path_eqb d cwd then Some (m, r) else None
                   | _ => None
                   end) L.


  (** The world with more effects recorded. *)
Definition logged (w : World) (e : Effect) : World :=
    set_effects w (effects w ++ [e]).

Definition logged_all (w : World) (es : list Effect) : World :=
    set_effects w (effects w ++ es).

  (** A world that differs from another one in its effects only. *)
Definition same_but_effects (w w' : World) : Prop :=
    w' = set_effects w (effects w').

  (** The message [_create_squashed_commit_message] returns for an outcome
      of the status command. *)
Definition message_for (res : RunResult) : string :=
    match res with
    | Completed r => message_of_result r
    | RunError => "Auto-commit: updated files"
    end.

  (** A computation that touches nothing but the record of effects. *)
Definition effect_only {A} (m : M A) : Prop :=
    ∀ w, ∃ es, snd (m w) = logged_all w es.

Definition succeeded (r : RunResult) : bool :=
    match r with
    | Completed c => ok c
    | RunError => false
    end.

End Aux.

(** ** The records of effects a handler may leave

    Each relation lists, case by case, the effects of one operation when
    every command it runs completes: which commands run, in which directory,
    in which order, depending on the return codes seen so far. *)

Module Trace.
  Import PyStr Pathlib Ignore Core.

  Section WithEnv.
    Variable E : Env.

Definition root : Path := repo_dir E.

Definition commit_notification (commit_message : string) : Effect :=
      ENotify ["notify-send"; "📦 " +:+ cfg_name (config E) +:+ " Commit";
               commit_message; "-t"; "5000"; "-a"; "Watcher"].

    (** The notification of a commit, sent when commit notifications are
        enabled. *)
Definition notification (commit_message : string) : list Effect :=
      if notify_commits E then [commit_notification commit_message] else [].

    (** The push after a commit, attempted when [auto_push] is set. *)
Inductive pushed (cwd : Path) : list Effect -> Prop :=
    | push_off :
        auto_push (config E) = false -> pushed cwd []
    | push_on p :
        auto_push (config E) = true ->
        pushed cwd [EGit ["git"; "push"] cwd (Completed p)].

Definition stage_reference (rel_path : list string) (a : CompletedProcess)
      : Effect :=
      EGit ["git"; "add"; rel_str rel_path] root (Completed a).

Definition check_staged (d : CompletedProcess) : Effect :=
      EGit ["git"; "diff"; "--cached"; "--quiet"] root (Completed d).

Definition commit_reference (submodule_dir : Path) (c : CompletedProcess)
      : Effect :=
      EGit ["git"; "commit"; "-m"; "Update " +:+ name submodule_dir +:+ " submodule"]
           root (Completed c).

    (** The follow-up in the root after a submodule commit: the path of the
        submodule is staged; if that succeeds, the index is checked; only if
        something is staged the root is committed, and after a successful
        commit notified and pushed as configured. *)
Inductive follow_up (submodule_dir : Path) : list Effect -> Prop :=
    | follow_up_unstaged rel_path a :
        relative_to submodule_dir root = Some rel_path ->
        ok a = false ->
        follow_up submodule_dir [stage_reference rel_path a]
    | follow_up_noop rel_path a d :
        relative_to submodule_dir root = Some rel_path ->
        ok a = true -> ok d = true ->
        follow_up submodule_dir [stage_reference rel_path a; check_staged d]
    | follow_up_commit_failed rel_path a d c :
        relative_to submodule_dir root = Some rel_path ->
        ok a = true -> ok d = false -> ok c = false ->
        follow_up submodule_dir
          [stage_reference rel_path a; check_staged d;
           commit_reference submodule_dir c]
    | follow_up_committed rel_path a d c P :
        relative_to submodule_dir root = Some rel_path ->
        ok a = true -> ok d = false -> ok c = true ->
        pushed root P ->
        follow_up submodule_dir
          ([stage_reference rel_path a; check_staged d;
            commit_reference submodule_dir c]
           ++ notification ("Update " +:+ name submodule_dir +:+ " submodule")
           ++ P).

Definition stage_all (cwd : Path) (a : CompletedProcess) : Effect :=
      EGit ["git"; "add"; "."] cwd (Completed a).

Definition status (cwd : Path) (s : CompletedProcess) : Effect :=
      EGit ["git"; "status"; "--porcelain"] cwd (Completed s).

Definition commit (cwd : Path) (commit_message : string)
      (c : CompletedProcess) : Effect :=
      EGit ["git"; "commit"; "-m"; commit_message] cwd (Completed c).

    (** A delayed commit in a submodule. *)
Inductive delayed_submodule (submodule_dir : Path) : list Effect -> Prop :=
    | delayed_unstaged a :
        ok a = false ->
        delayed_submodule submodule_dir [stage_all submodule_dir a]
    | delayed_commit_failed a s c :
        ok a = true -> ok c = false ->
        delayed_submodule submodule_dir
          [stage_all submodule_dir a; status submodule_dir s;
           commit submodule_dir (message_of_result s) c]
    | delayed_committed a s c P F :
        ok a = true -> ok c = true ->
        pushed submodule_dir P ->
        follow_up submodule_dir F ->
        delayed_submodule submodule_dir
          ([stage_all submodule_dir a; status submodule_dir s;
            commit submodule_dir (message_of_result s) c] ++ P ++ F).




Definition rev_parse_head (repo : Path) (h : CompletedProcess) : Effect :=
      EGit ["git"; "rev-parse"; "HEAD"] repo (Completed h).

Definition fetched (repo : Path) (f : CompletedProcess) : Effect :=
      EGit ["git"; "fetch"] repo (Completed f).

Definition show_branch (repo : Path) (b : CompletedProcess) : Effect :=
      EGit ["git"; "branch"; "--show-current"] repo (Completed b).

Definition rev_parse_remote (repo : Path) (b r : CompletedProcess)
      : Effect :=
      EGit ["git"; "rev-parse"; "origin/" +:+ strip (stdout b)] repo (Completed r).

Definition rev_list_count (repo : Path) (h r c : CompletedProcess)
      : Effect :=
      EGit ["git"; "rev-list"; "--count";
            strip (stdout h) +:+ ".." +:+ strip (stdout r)] repo (Completed c).

    (** The poll of one target and its report: a step that fails ends the
        poll without a report; when the four steps succeed on a named branch
        the heads are compared, and only when they differ the commits are
        counted and, the count succeeding, reported. *)
Inductive poll (repo : Path) : list Effect -> option string -> Prop :=
    | poll_no_head h :
        ok h = false ->
        poll repo [rev_parse_head repo h] None
    | poll_fetch_failed h f :
        ok h = true -> ok f = false ->
        poll repo [rev_parse_head repo h; fetched repo f] None
    | poll_no_branch h f b :
        ok h = true -> ok f = true ->
        ok b && negb (is_empty (strip (stdout b))) = false ->
        poll repo [rev_parse_head repo h; fetched repo f; show_branch repo b] None
    | poll_no_remote h f b r :
        ok h = true -> ok f = true ->
        ok b && negb (is_empty (strip (stdout b))) = true ->
        ok r = false ->
        poll repo [rev_parse_head repo h; fetched repo f; show_branch repo b;
                   rev_parse_remote repo b r] None
    | poll_up_to_date h f b r :
        ok h = true -> ok f = true ->
        ok b && negb (is_empty (strip (stdout b))) = true ->
        ok r = true ->
        strip (stdout h) = strip (stdout r) ->
        poll repo [rev_parse_head repo h; fetched repo f; show_branch repo b;
                   rev_parse_remote repo b r] None
    | poll_count_failed h f b r c :
        ok h = true -> ok f = true ->
        ok b && negb (is_empty (strip (stdout b))) = true ->
        ok r = true ->
        strip (stdout h) <> strip (stdout r) ->
        ok c = false ->
        poll repo [rev_parse_head repo h; fetched repo f; show_branch repo b;
                   rev_parse_remote repo b r; rev_list_count repo h r c] None
    | poll_changed h f b r c :
        ok h = true -> ok f = true ->
        ok b && negb (is_empty (strip (stdout b))) = true ->
        ok r = true ->
        strip (stdout h) <> strip (stdout r) ->
        ok c = true ->
        poll repo [rev_parse_head repo h; fetched repo f; show_branch repo b;
                   rev_parse_remote repo b r; rev_list_count repo h r c]
             (Some (strip (stdout c) +:+ " new commit"
                    +:+ (if String.eqb (strip (stdout c)) "1" then "" else "s"))).

    (** The targets of a handler with the names it reports them under: the
        root, then every submodule. *)
Definition targets (w : World) : list (Path * string) :=
      (root, "main repo")
      :: List.map (fun submodule => (submodule, "submodule " +:+ name submodule))
                  (submodules w).

Definition is_notification (e : Effect) : Prop :=
      match e with
      | ENotify _ => True
      | EGit _ _ _ => False
      end.

  End WithEnv.

End Trace.

(** ** The records of effects when a command cannot be run

    [_run_git_command] raises again whatever [subprocess.run] raises, and
    nothing between a callback and the runner catches it, but for the status
    read for the commit message.  The relations below list the effects of an
    operation together with its outcome, [Exc] being an exception that
    leaves the operation at the command that could not be run; without such
    a command they are the relations of [Trace]. *)

Module Outcome.
  Import PyStr Pathlib Ignore Core.

  Section WithEnv.
    Variable E : Env.

    (** A command that could not be run. *)
Definition raised (cmd : list string) (cwd : Path) : Effect :=
      EGit cmd cwd RunError.

    (** The follow-up in the root after a submodule commit. *)
Inductive follow_up (submodule_dir : Path)
      : list Effect -> Res unit -> Prop :=
    | follow_up_completed F :
        Trace.follow_up E submodule_dir F ->
        follow_up submodule_dir F (Ok tt)
    | follow_up_stage_raised rel_path :
        relative_to submodule_dir (repo_dir E) = Some rel_path ->
        follow_up submodule_dir
          [raised ["git"; "add"; rel_str rel_path] (repo_dir E)] Exc
    | follow_up_check_raised rel_path a :
        relative_to submodule_dir (repo_dir E) = Some rel_path ->
        ok a = true ->
        follow_up submodule_dir
          [Trace.stage_reference E rel_path a;
           raised ["git"; "diff"; "--cached"; "--quiet"] (repo_dir E)] Exc
    | follow_up_commit_raised rel_path a d :
        relative_to submodule_dir (repo_dir E) = Some rel_path ->
        ok a = true -> ok d = false ->
        follow_up submodule_dir
          [Trace.stage_reference E rel_path a; Trace.check_staged E d;
           raised ["git"; "commit"; "-m";
                   "Update " +:+ name submodule_dir +:+ " submodule"]
                  (repo_dir E)] Exc
    | follow_up_push_raised rel_path a d c :
        relative_to submodule_dir (repo_dir E) = Some rel_path ->
        ok a = true -> ok d = false -> ok c = true ->
        auto_push (config E) = true ->
        follow_up submodule_dir
          ([Trace.stage_reference E rel_path a; Trace.check_staged E d;
            Trace.commit_reference E submodule_dir c]
           ++ Trace.notification E
                ("Update " +:+ name submodule_dir +:+ " submodule")
           ++ [raised ["git"; "push"] (repo_dir E)]) Exc.

    (** The status read for the commit message: an exception of this command
        is caught, and the message is then the fallback. *)
Definition status_read (cwd : Path) (s : RunResult) : Effect :=
      EGit ["git"; "status"; "--porcelain"] cwd s.

    (** A delayed commit in a submodule: everything is staged; if that
        succeeds the submodule is committed with the message made from the
        status; only after a successful commit the submodule is pushed, when
        [auto_push] is set, and the follow-up runs in the root, unless the
        push could not be run. *)
Inductive delayed_submodule (submodule_dir : Path)
      : list Effect -> Res unit -> Prop :=
    | delayed_stage_raised :
        delayed_submodule submodule_dir
          [raised ["git"; "add"; "."] submodule_dir] Exc
    | delayed_unstaged a :
        ok a = false ->
        delayed_submodule submodule_dir
          [Trace.stage_all submodule_dir a] (Ok tt)
    | delayed_commit_raised a s :
        ok a = true ->
        delayed_submodule submodule_dir
          [Trace.stage_all submodule_dir a; status_read submodule_dir s;
           raised ["git"; "commit"; "-m"; Aux.message_for s] submodule_dir]
          Exc
    | delayed_commit_failed a s c :
        ok a = true -> ok c = false ->
        delayed_submodule submodule_dir
          [Trace.stage_all submodule_dir a; status_read submodule_dir s;
           Trace.commit submodule_dir (Aux.message_for s) c] (Ok tt)
    | delayed_push_raised a s c :
        ok a = true -> ok c = true ->
        auto_push (config E) = true ->
        delayed_submodule submodule_dir
          [Trace.stage_all submodule_dir a; status_read submodule_dir s;
           Trace.commit submodule_dir (Aux.message_for s) c;
           raised ["git"; "push"] submodule_dir] Exc
    | delayed_committed a s c P F out :
        ok a = true -> ok c = true ->
        Trace.pushed E submodule_dir P ->
        follow_up submodule_dir F out ->
        delayed_submodule submodule_dir
          ([Trace.stage_all submodule_dir a; status_read submodule_dir s;
            Trace.commit submodule_dir (Aux.message_for s) c] ++ P ++ F)
          out.

    (** The poll of one target with what [_fetch_and_check_changes] returns:
        the report of [Trace.poll], or an exception at the first command that
        could not be run. *)
Inductive poll (repo : Path) : list Effect -> Res (option string) -> Prop :=
    | poll_completed es report :
        Trace.poll repo es report ->
        poll repo es (Ok report)
    | poll_head_raised :
        poll repo [raised ["git"; "rev-parse"; "HEAD"] repo] Exc
    | poll_fetch_raised h :
        ok h = true ->
        poll repo [Trace.rev_parse_head repo h; raised ["git"; "fetch"] repo]
             Exc
    | poll_branch_raised h f :
        ok h = true -> ok f = true ->
        poll repo [Trace.rev_parse_head repo h; Trace.fetched repo f;
                   raised ["git"; "branch"; "--show-current"] repo] Exc
    | poll_remote_raised h f b :
        ok h = true -> ok f = true ->
        ok b && negb (is_empty (strip (stdout b))) = true ->
        poll repo [Trace.rev_parse_head repo h; Trace.fetched repo f;
                   Trace.show_branch repo b;
                   raised ["git"; "rev-parse"; "origin/" +:+ strip (stdout b)]
                          repo] Exc
    | poll_count_raised h f b r :
        ok h = true -> ok f = true ->
        ok b && negb (is_empty (strip (stdout b))) = true ->
        ok r = true ->
        strip (stdout h) <> strip (stdout r) ->
        poll repo [Trace.rev_parse_head repo h; Trace.fetched repo f;
                   Trace.show_branch repo b; Trace.rev_parse_remote repo b r;
                   raised ["git"; "rev-list"; "--count";
                           strip (stdout h) +:+ ".." +:+ strip (stdout r)]
                          repo] Exc.


    (** *** The notifications of a poll cycle *)







  End WithEnv.

End Outcome.

(** ** Notions about timers and bursts of events *)

Module Sched.
  Import PyStr Pathlib Ignore Core.

#[global] Instance callback_eq_dec : EqDecision Callback.
  Proof. solve_decision. Defined.

  (** A timer that will never call its function (again): done, or cancelled
      while still waiting. *)
Definition dead (t : Timer) : bool :=
    match t_phase t with
    | Done => true
    | Waiting => t_finished t
    | _ => false
    end.

  (** The timer maps point to timers of the right kind. *)
Definition well_formed (w : World) : Prop :=
    (∀ k id, commit_timers w !! k = Some id →
             ∃ t, timers w !! id = Some t ∧ t_callback t = CommitCb k)
    ∧ (∀ id, fetch_timer w = Some id →
             ∃ t, timers w !! id = Some t ∧ t_callback t = FetchCb).

  (** Nothing is pending for the directory and none of its timers is alive. *)
Definition idle (dir_key : string) (w : World) : Prop :=
    pending_commits w !! dir_key = None
    ∧ ∀ id t, timers w !! id = Some t → t_callback t = CommitCb dir_key →
              dead t = true.

  (** Every timer still in its waiting stage and not cancelled is the one its
      map records. *)
Definition registered (w : World) : Prop :=
    ∀ id t, timers w !! id = Some t → t_phase t = Waiting →
            t_finished t = false →
            match t_callback t with
            | CommitCb k => commit_timers w !! k = Some id
            | FetchCb => fetch_timer w = Some id
            end.

  (** A change of the heap of timers that keeps every timer in its place,
      with its function. *)
Definition kept (ts ts' : list Timer) : Prop :=
    ∀ id t, ts !! id = Some t →
            ∃ t', ts' !! id = Some t' ∧ t_callback t' = t_callback t.

  (** The delayed commits started so far for one directory. *)
Definition attempts_for (dir_key : string) (w : World) : list Attempt :=
    List.filter (fun a => String.eqb (a_key a) dir_key) (attempts w).

  (** The path an event hands to [_handle_file_change], if any. *)
Definition event_path (kind : EventKind) (event : FileSystemEvent)
    : option string :=
    if is_directory event then None
    else match kind with
         | Moved => dest_path event
         | _ => Some (src_path event)
         end.

  Section WithEnv.
    Variable E : Env.

    (** The file an action adds to the pending set of the directory: the
        action is an event whose path is not ignored and belongs to the
        directory. *)
Definition accepted_for (dir_key : string) (w : World) (a : Action)
      : option string :=
      match a with
      | AEvent kind event =>
          match event_path kind event with
          | Some p =>
              let '(ignored, im) := should_ignore (fs E) (ignore_manager w) p in
              if ignored then None
              else match target_of E (set_ignore_manager w im)
                                   (resolve (fs E) p) with
                   | Some target_dir =>
                       if String.eqb (path_str target_dir) dir_key
                       then Some (path_str (resolve (fs E) p))
                       else None
                   | None => None
                   end
          | None => None
          end
      | _ => None
      end.

    (** A burst of accepted events for one directory: when the last one
        arrived, and the files of all of them. *)
Record Burst := { b_last : nat; b_files : gset string }.

    (** One action seen by an observer of the directory.  The handler is not
        stopped, and an accepted event for the directory arrives less than
        [commit_delay] after the one before it; otherwise the observation
        ends. *)
Definition track (dir_key : string) (a : Action) (w : World)
      (b : option Burst) : option (option Burst) :=
      match a with
      | AStop => None
      | _ =>
          match accepted_for dir_key w a with
          | Some f =>
              match b with
              | None => Some (Some {| b_last := now w; b_files := ∅ ∪ {[f]} |})
              | Some b0 =>
                  if now w <? b_last b0 + commit_delay (config E)
                  then Some (Some {| b_last := now w;
                                     b_files := b_files b0 ∪ {[f]} |})
                  else None
              end
          | None => Some b
          end
      end.

    (** The run of a trace as one burst for the directory: [None] when an
        action is not enabled, the handler is stopped, or an accepted event
        for the directory comes outside the window; else what was seen. *)
Fixpoint within_window (dir_key : string) (tr : list Action) (w : World)
      (b : option Burst) : option (option Burst) :=
      match tr with
      | [] => Some b
      | a :: tr' =>
          match step E a w, track dir_key a w b with
          | Some w', Some b' => within_window dir_key tr' w' b'
          | _, _ => None
          end
      end.

  End WithEnv.

  (** *** The states of one directory during and after a burst *)

  Section Burst.
    Variable E : Env.
    Variable dir_key : string.

Definition others_dead (id : nat) (w : World) : Prop :=
      ∀ id' t', id' ≠ id → timers w !! id' = Some t' →
                t_callback t' = CommitCb dir_key → dead t' = true.

    (** A change of the heap that leaves the timers of the directory as they
        are. *)
Definition foreign (ts ts' : list Timer) : Prop :=
      ∀ id t, t_callback t = CommitCb dir_key →
              (ts !! id = Some t ↔ ts' !! id = Some t).

    (** The timer of the last event is the one in the map; it is waiting, or
        has just left its waiting stage, not before its deadline; the files
        of the burst are pending. *)
Definition armed (b : Burst) (w : World) : Prop :=
      ∃ id t,
        commit_timers w !! dir_key = Some id
        ∧ timers w !! id = Some t
        ∧ t_callback t = CommitCb dir_key
        ∧ t_deadline t = b_last b + commit_delay (config E)
        ∧ t_finished t = false
        ∧ (t_phase t = Waiting
           ∨ t_phase t = Fired ∧ b_last b + commit_delay (config E) ≤ now w)
        ∧ pending_commits w !! dir_key = Some (b_files b)
        ∧ b_last b ≤ now w
        ∧ others_dead id w.

    (** The callback has swapped the pending set out and is about to
        commit. *)
Definition swapped (b : Burst) (w : World) : Prop :=
      ∃ id t,
        timers w !! id = Some t
        ∧ t_callback t = CommitCb dir_key
        ∧ t_phase t = Committing (b_files b)
        ∧ pending_commits w !! dir_key = None
        ∧ b_last b + commit_delay (config E) ≤ now w
        ∧ others_dead id w.

    (** The one commit of the burst: not before the delay has passed since
        the last event, with the files of the burst. *)
Definition commit_of (b : Burst) (a : Attempt) : Prop :=
      a_key a = dir_key
      ∧ b_last b + commit_delay (config E) ≤ a_time a
      ∧ a_files a = b_files b.

    (** What holds of the directory along a burst, [before] being the commits
        of the directory started before the burst. *)
Definition burst_invariant (before : list Attempt) (ob : option Burst)
      (w : World) : Prop :=
      well_formed w
      ∧ match ob with
        | None => idle dir_key w ∧ attempts_for dir_key w = before
        | Some b =>
            ((armed b w ∨ swapped b w) ∧ attempts_for dir_key w = before)
            ∨ (idle dir_key w
               ∧ b_last b + commit_delay (config E) ≤ now w
               ∧ ∃ a, attempts_for dir_key w = before ++ [a] ∧ commit_of b a)
        end.

  End Burst.

  (** *** After the shutdown *)

  (** A timer whose callback has been called and has not returned. *)
Definition running (t : Timer) : bool :=
    match t_phase t with
    | Fired | Committing _ => true
    | _ => false
    end.

  (** The commit of attempt [a] was started by a callback that was running
      at the shutdown, [ts] being the timers of that moment. *)
Definition started_before (ts : list Timer) (a : Attempt) : Prop :=
    ∃ t0, ts !! a_timer a = Some t0 ∧ running t0 = true.

  (** A timer that [stop] does not reach though it may still call its
      function: it waits, is not cancelled, and neither an entry of
      [commit_timers] nor [fetch_timer] records it. *)
Definition unrecorded (w : World) (id : nat) (t : Timer) : Prop :=
    t_phase t = Waiting ∧ t_finished t = false
    ∧ (∀ k, commit_timers w !! k ≠ Some id) ∧ fetch_timer w ≠ Some id.

  (** A timer of the world [w0], in which [stop] is called, that [stop]
      cannot keep from running its callback: the callback has been called
      already, or the timer is not recorded. *)
Definition escapes (w0 : World) (id : nat) : Prop :=
    ∃ t0, timers w0 !! id = Some t0 ∧ (running t0 = true ∨ unrecorded w0 id t0).

  (** A timer that starts no commit of its own after the shutdown: unless it
      escapes the shutdown, it is cancelled or belongs to the poll while it
      waits, and its callback runs only if it belongs to the poll. *)
Definition harmless (w0 : World) (id : nat) (t : Timer) : Prop :=
    match t_phase t with
    | Waiting => t_finished t = true ∨ t_callback t = FetchCb ∨ escapes w0 id
    | Fired | Committing _ => t_callback t = FetchCb ∨ escapes w0 id
    | Done => True
    end.

  (** What holds from the shutdown in [w0] on, as long as no event is
      handled. *)
Definition winding_down (w0 w : World) : Prop :=
    (∀ id t, timers w !! id = Some t → harmless w0 id t)
    ∧ ∃ new, attempts w = attempts w0 ++ new
             ∧ Forall (fun a => escapes w0 (a_timer a)) new.

  (** An action that is neither an event nor the shutdown. *)
Definition internal (a : Action) : bool :=
    match a with
    | AEvent _ _ | AStop => false
    | _ => true
    end.

Definition is_event (a : Action) : bool :=
    match a with
    | AEvent _ _ => true
    | _ => false
    end.

Definition no_event (tr : list Action) : bool :=
    forallb (fun a => negb (is_event a)) tr.

End Sched.

(** ** Concrete environments, used to run the model *)

Module Example.
  Import PyStr Pathlib Ignore Core.

  (** A file system without symbolic links and without ignore files. *)
Definition plain_fs : FileSystem :=
    {| resolve := Path_of_str; read_lines := fun _ => None |}.

  (** A manager that watches [/w] with the single pattern [build/]. *)
Definition build_manager : IgnoreManager :=
    {| watch_dir := ["w"]; global_patterns := [];
       config_patterns := ["build/"]; additional_patterns := [];
       respect_gitignore := true; gitignore_patterns := ∅ |}.

Definition done (out : string) : RunResult :=
    Completed {| returncode := 0; stdout := out |}.

  (** A git whose commands all succeed; the work tree is clean, nothing is
      staged. *)
Definition clean_git (h : list Effect) (cmd : list string)
    (cwd : Path) : RunResult := done "".

  (** A git whose commands all succeed, with one modified file in every work
      tree and something staged after every [git add]. *)
Definition dirty_git (h : list Effect) (cmd : list string)
    (cwd : Path) : RunResult :=
    if Aux.cmd_eqb cmd ["git"; "status"; "--porcelain"] then done "M  notes.txt"
    else if Aux.cmd_eqb cmd ["git"; "diff"; "--cached"; "--quiet"]
         then Completed {| returncode := 1; stdout := "" |}
         else done "".

  (** A git whose commands all succeed, on the branch [main], two commits
      behind its remote. *)
Definition behind_git (h : list Effect) (cmd : list string)
    (cwd : Path) : RunResult :=
    if Aux.cmd_eqb cmd ["git"; "rev-parse"; "HEAD"] then done "1f3a
"
    else if Aux.cmd_eqb cmd ["git"; "branch"; "--show-current"] then done "main
"
    else if Aux.cmd_eqb cmd ["git"; "rev-parse"; "origin/main"] then done "9c2e
"
    else if Aux.cmd_eqb cmd ["git"; "rev-list"; "--count"; "1f3a..9c2e"]
         then done "2
"
         else done "".


Definition settings (push : bool) : Config :=
    {| cfg_name := "dotfiles"; commit_delay := 3; fetch_interval := 600;
       enable_notifications := true; notify_on_commit := true;
       notify_on_remote_changes := true; auto_push := push |}.

Definition env (push : bool)
    (g : list Effect -> list string -> Path -> RunResult) : Env :=
    {| config := settings push; repo_dir := ["w"]; fs := plain_fs; git := g |}.

  (** A handler of the repository [/w] with the submodule [/w/sub], no ignore
      pattern, after its initialisation. *)
Definition manager : IgnoreManager :=
    {| watch_dir := ["w"]; global_patterns := [];
       config_patterns := []; additional_patterns := [];
       respect_gitignore := false; gitignore_patterns := ∅ |}.

Definition world : World := set_submodules (fresh manager) [["w"; "sub"]].

Definition file_event (p : string) : FileSystemEvent :=
    {| is_directory := false; src_path := p; dest_path := None |}.

  (** The effects of a delayed commit in the submodule, [auto_push] being
      off. *)
Definition unpushed : list Effect :=
    Aux.new_effects world
      (snd (commit_squashed_submodule (env false dirty_git) ["w"; "sub"] ∅
              world)).


  (** The handler after one change in the main repository: timer 0 waits. *)
Definition armed : World :=
    exec (dispatch (env false clean_git) Modified (file_event "/w/a.txt"))
         world.

  (** A change after the shutdown, and the timer it arms running to its
      commit. *)
Definition after_stop : list Action :=
    [AEvent Modified (file_event "/w/b.txt"); ATick; ATick; ATick;
     AExpire 1; ALock 1; ACommit 1].

  (** The delay of timer 0 runs out and its callback is called. *)
Definition expiry : list Action := [ATick; ATick; ATick; AExpire 0].

  (** A change handled while that callback waits for the lock, and the
      callback going on to its commit. *)
Definition overlap : list Action :=
    [AEvent Modified (file_event "/w/b.txt"); ALock 0; ACommit 0].

  (** Two changes in the main repository, one second apart. *)
Definition burst : list Action :=
    [AEvent Modified (file_event "/w/a.txt"); ATick;
     AEvent Created (file_event "/w/b.txt")].

End Example.

(** ** Patterns without metacharacters *)

Module Glob.
  Import PyStr.

  (** A character that [fnmatch] takes literally. *)
Definition plain_char (c : ascii) : bool :=
    negb (Ascii.eqb c "*") && negb (Ascii.eqb c "?") && negb (Ascii.eqb c "[").

Definition literal (s : string) : bool :=
    forallb plain_char (list_ascii_of_string s).

  (** A pattern line that [_matches_pattern] reads as it stands: stripping
      leaves it as it is, and it is neither blank, nor a comment, nor a
      negation. *)
Definition kept (p : string) : bool :=
    String.eqb (strip p) p && negb (is_empty p)
    && negb (startswith p "#") && negb (startswith p "!").

End Glob.

(** ** [watcher/ignore.py]: the cache of [.gitignore] files, [test_pattern] *)

Module IgnoreTools.
  Import PyStr Pathlib Ignore.

  (** A manager that differs from another one by entries added to the cache
      of [.gitignore] files. *)
Definition extends (im im' : IgnoreManager) : Prop :=
    im' = set_gitignore_patterns im (gitignore_patterns im')
    ∧ gitignore_patterns im ⊆ gitignore_patterns im'.

  (** The dictionary [test_pattern] returns. *)
Record TestResult := { ignored : bool; matched_by : list string }.

  Section WithFileSystem.
    Variable fs : FileSystem.

    (** The entries of [matched_by] for one source of patterns. *)
Definition matched_of (label : string) (rel_path_str : string)
      (patterns : list string) : list string :=
      List.map (fun pattern => label +:+ pattern)
               (List.filter (matches_pattern rel_path_str) patterns).

    (** [test_pattern]: the result and the manager with its cache. *)
Definition test_pattern (im : IgnoreManager) (file_path : string)
      : TestResult * IgnoreManager :=
      let '(ign, im1) := should_ignore fs im file_path in
      if ign then
        let file_path_obj := resolve fs file_path in
        match relative_to file_path_obj (watch_dir im1) with
        | Some rel_path =>
            let rel_path_str := rel_str rel_path in
            let m :=
              matched_of "global: " rel_path_str (global_patterns im1)
              ++ matched_of "config: " rel_path_str (config_patterns im1)
              ++ matched_of "additional: " rel_path_str
                   (additional_patterns im1) in
            if respect_gitignore im1 then
              let '(hit, im2) := matches_gitignore fs im1 file_path_obj in
              ({| ignored := true;
                  matched_by := m ++ (if hit then ["gitignore"] else []) |},
               im2)
            else ({| ignored := true; matched_by := m |}, im1)
        | None =>
            ({| ignored := true; matched_by := ["outside watch directory"] |},
             im1)
        end
      else ({| ignored := false; matched_by := [] |}, im1).

    (** *** The loop of [_matches_gitignore], one pass at a time *)

    (** What one pass through the body of the loop does: it returns from
        the function, or goes on with the directory above. *)
Inductive Pass :=
    | Return (answer : bool) (im : IgnoreManager)
    | Continue (im : IgnoreManager) (current_dir : Path).

    (** One pass, [current_dir] being the directory the loop looks at: the
        test of the [while], the [.gitignore] of the directory loaded if it
        is there and not yet in the cache, the file matched against its
        patterns, and the [break] at the watch directory. *)
Definition pass (im : IgnoreManager) (file_path current_dir : Path)
      : Pass :=
      if path_ge current_dir (watch_dir im) then
        let gitignore_path := joinpath current_dir ".gitignore" in
        let key := path_str current_dir in
        let im1 :=
          match read_lines fs gitignore_path with
          | Some _ =>
              match gitignore_patterns im !! key with
              | Some _ => im
              | None =>
                  set_gitignore_patterns im
                    (<[key := load_ignore_file fs gitignore_path]>
                       (gitignore_patterns im))
              end
          | None => im
          end in
        let hit :=
          match read_lines fs gitignore_path with
          | Some _ =>
              match relative_to file_path current_dir with
              | Some rel =>
                  existsb (matches_pattern (rel_str rel))
                          (default [] (gitignore_patterns im1 !! key))
              | None => false
              end
          | None => false
          end in
        if hit then Return true im1
        else if path_eqb current_dir (watch_dir im) then Return false im1
        else Continue im1 (parent current_dir)
      else Return false im.

    (** At most [n] passes of the loop: [None] when the loop has not
        returned by then. *)
Fixpoint passes (n : nat) (im : IgnoreManager)
      (file_path current_dir : Path) : option (bool * IgnoreManager) :=
      match n with
      | O => None
      | S n' =>
          match pass im file_path current_dir with
          | Return answer im' => Some (answer, im')
          | Continue im' current_dir' => passes n' im' file_path current_dir'
          end
      end.

  End WithFileSystem.

End IgnoreTools.

(** ** Notions about the handler at work *)

Module Handler.
  Import PyStr Pathlib Ignore Core.

  (** The first directory of a list that contains a path. *)
Definition first_containing (dirs : list Path) (p d : Path) : Prop :=
    ∃ before after,
      dirs = before ++ d :: after
      ∧ is_relative_to p d = true
      ∧ Forall (fun s => is_relative_to p s = false) before.

Definition no_stop (tr : list Action) : bool :=
    forallb (fun a => match a with AStop => false | _ => true end) tr.

  (** At most one timer of the poll is armed: a waiting timer of the poll
      that is not cancelled is the one the handler holds. *)
Definition one_poller (w : World) : Prop :=
    ∀ id t, timers w !! id = Some t → t_callback t = FetchCb →
            t_phase t = Waiting → t_finished t = false →
            fetch_timer w = Some id.

  (** Every directory with pending changes has its timer on the way: the
      timer of the map is not cancelled, and it waits or has just expired. *)
Definition covered (w : World) : Prop :=
    ∀ k files, pending_commits w !! k = Some files →
      ∃ id t, commit_timers w !! k = Some id
              ∧ timers w !! id = Some t
              ∧ t_callback t = CommitCb k
              ∧ t_finished t = false
              ∧ (t_phase t = Waiting ∨ t_phase t = Fired).

  Section WithEnv.
    Variable E : Env.

    (** The pending sets are filed under the repository or a submodule, and
        hold paths below the watch directory. *)
Definition scheduled_ok (w : World) : Prop :=
      ∀ k files f, pending_commits w !! k = Some files → f ∈ files →
        (k = path_str (repo_dir E)
         ∨ ∃ s, s ∈ submodules w ∧ k = path_str s)
        ∧ ∃ p, f = path_str p
               ∧ is_relative_to p (watch_dir (ignore_manager w)) = true.

    (** A delayed commit in the main repository, when every command
        completes: everything is staged; if that succeeds the message is
        made from the status and the commit attempted; a successful commit
        is notified and pushed as configured, the push going to the
        repository of the handler. *)
Inductive delayed_main (repo : Path) : list Effect -> Prop :=
    | main_unstaged a :
        ok a = false ->
        delayed_main repo [Trace.stage_all repo a]
    | main_commit_failed a s c :
        ok a = true -> ok c = false ->
        delayed_main repo
          [Trace.stage_all repo a; Trace.status repo s;
           Trace.commit repo (message_of_result s) c]
    | main_committed a s c P :
        ok a = true -> ok c = true ->
        Trace.pushed E (repo_dir E) P ->
        delayed_main repo
          ([Trace.stage_all repo a; Trace.status repo s;
            Trace.commit repo (message_of_result s) c]
           ++ Trace.notification E (message_of_result s) ++ P).

    (** The commands of a poll: none of them stages, commits or pushes. *)
Definition poll_command (cmd : list string) : bool :=
      match cmd with
      | ["git"; "rev-parse"; _] => true
      | ["git"; "fetch"] => true
      | ["git"; "branch"; "--show-current"] => true
      | ["git"; "rev-list"; "--count"; _] => true
      | _ => false
      end.

Definition poll_effect (targets : list Path) (e : Effect) : Prop :=
      match e with
      | ENotify _ => True
      | EGit cmd cwd _ => poll_command cmd = true ∧ cwd ∈ targets
      end.

  End WithEnv.

End Handler.

(** ** A handler with short delays, after its construction *)

Module Demo.
  Import PyStr Pathlib Ignore Core.

Definition settings : Config :=
    {| cfg_name := "dotfiles"; commit_delay := 1; fetch_interval := 2;
       enable_notifications := true; notify_on_commit := true;
       notify_on_remote_changes := true; auto_push := true |}.

  (** The repository [/w], two commits behind its remote, without
      submodules and with a clean work tree. *)
Definition env : Env :=
    {| config := settings; repo_dir := ["w"]; fs := Example.plain_fs;
       git := Example.behind_git |}.

  (** The handler when [__init__] returns. *)
Definition started : World := exec (init env) (fresh Example.manager).

  (** The fetch timer runs out and the poll is made. *)
Definition poll_round : list Action := [ATick; ATick; AExpire 0; AFetch 0].

End Demo.

(** ** [watcher/config.py]: the validation of a configuration *)

Module ConfigFile.
  Import PyStr Pathlib.

  (** A [PurePosixPath] made from any text: the root the text starts with,
      if any, and its segments.  Two leading slashes, and only two, make a
      root of their own. *)
Record PurePath := { anchor : string; segments : list string }.

  (** [Path(s)] *)
Definition pure_path (s : string) : PurePath :=
    {| anchor := if startswith s "//" && negb (startswith s "///") then "//"
                 else if startswith s "/" then "/" else "";
       segments := parts_of s |}.

  (** [str(p)] *)
Definition pure_str (p : PurePath) : string :=
    match anchor p, segments p with
    | EmptyString, [] => "."
    | a, segs => a +:+ join "/" segs
    end.

  (** [p / name], for a name that is one segment. *)
Definition child (p : PurePath) (name : string) : PurePath :=
    {| anchor := anchor p; segments := segments p ++ [name] |}.

  (** The fields of the loaded configuration that [validate_config] reads;
      the two delays are integers. *)
Record Loaded := {
    watch_directory : string;
    repo_directory : string;
    ignore_files : list string;
    commit_delay : Z;
    fetch_interval : Z
  }.

  (** The dictionary [validate_config] returns. *)
Record Validation := {
    valid : bool;
    errors : list string;
    warnings : list string
  }.

Definition add_error (r : Validation) (e : string) : Validation :=
    {| valid := false; errors := errors r ++ [e]; warnings := warnings r |}.

Definition add_warning (r : Validation) (x : string) : Validation :=
    {| valid := valid r; errors := errors r; warnings := warnings r ++ [x] |}.

  Section WithDisk.
    (** [Path.exists] *)
    Variable path_exists : PurePath -> bool.

    (** [validate_config], from the configuration [load_config] returned. *)
Definition validate (config : Loaded) : Validation :=
      let results := {| valid := true; errors := []; warnings := [] |} in
      let watch_dir := pure_path (watch_directory config) in
      let results :=
        if negb (path_exists watch_dir)
        then add_error results
               ("Watch directory does not exist: " +:+ pure_str watch_dir)
        else results in
      let repo_dir := pure_path (repo_directory config) in
      let results :=
        if negb (path_exists repo_dir)
        then add_error results
               ("Repository directory does not exist: " +:+ pure_str repo_dir)
        else if negb (path_exists (child repo_dir ".git"))
             then add_error results
                    ("Repository directory is not a git repository: "
                     +:+ pure_str repo_dir)
             else results in
      let results :=
        List.fold_left
          (fun results ignore_file =>
             if negb (path_exists (pure_path ignore_file))
             then add_warning results
                    ("Ignore file does not exist: " +:+ ignore_file)
             else results)
          (ignore_files config) results in
      let results :=
        if (commit_delay config <? 0)%Z
        then add_error results "commit_delay must be non-negative"
        else results in
      let results :=
        if (fetch_interval config <? 0)%Z
        then add_error results "fetch_interval must be non-negative"
        else results in
      results.

  End WithDisk.

End ConfigFile.

(** * Properties *)

Import PyStr Pathlib Ignore Core.

(** ** The ignore matcher *)

Lemma strip_bang (rest : string) :
  ∃ r, strip (String "!"%char rest) = String "!"%char r.
Proof.
  unfold strip. cbn [lstrip].
  change (is_space "!"%char) with false. cbn iota.
  cbn [rstrip]. change (is_space "!"%char) with false. cbn. eauto.
Qed.

(** C8. A pattern that begins with an exclamation mark matches no path, and
    taking it out of a list of patterns changes no decision made from the
    list: negation neither causes nor revokes an ignore decision. *)
Theorem negation_pattern_never_matches (file_path rest : string)
  (before after : list string) :
  matches_pattern file_path (String "!"%char rest) = false
  ∧ existsb (matches_pattern file_path) (before ++ String "!"%char rest :: after)
    = existsb (matches_pattern file_path) (before ++ after).
Proof.
  assert (H : matches_pattern file_path (String "!"%char rest) = false).
  { unfold matches_pattern. destruct (strip_bang rest) as [r ->].
    unfold startswith. cbn [is_empty orb String.prefix].
    destruct (ascii_dec "#" "!") as [Heq|_]; [discriminate Heq|].
    destruct (ascii_dec "!" "!") as [_|Hne]; [|by destruct Hne].
    by destruct r. }
  split; [exact H|].
  rewrite !existsb_app. cbn [existsb]. rewrite H. reflexivity.
Qed.

(** C2. The directory pattern [build/] matches [build/output.txt]; it matches
    neither [my_build/file.txt] nor [src/build/x.txt], and a manager with this
    one pattern does not ignore [/w/src/build/x.txt]: the prefixes tried are
    [src], [src/build] and [src/build/x.txt], never the segment [build]
    alone. *)
Theorem directory_pattern_build :
  matches_pattern "build/output.txt" "build/" = true
  ∧ matches_pattern "my_build/file.txt" "build/" = false
  ∧ matches_pattern "src/build/x.txt" "build/" = false
  ∧ fst (should_ignore Example.plain_fs Example.build_manager
           "/w/build/output.txt") = true
  ∧ fst (should_ignore Example.plain_fs Example.build_manager
           "/w/src/build/x.txt") = false.
Proof. repeat split; vm_compute; reflexivity. Qed.

(** ** The commit message *)

Lemma append_assoc (a b c : string) : (a +:+ b) +:+ c = a +:+ b +:+ c.
Proof.
  induction a as [|x a IH]; [reflexivity|].
  change (String x ((a +:+ b) +:+ c) = String x (a +:+ b +:+ c)).
  by rewrite IH.
Qed.

Lemma category_item (verb : string) (n : nat) :
  (if 0 <? n then [(verb +:+ " ") +:+ pretty n +:+ " file" +:+ plural n] else [])
  = Spec.category verb n.
Proof.
  destruct n as [|[|n]]; [reflexivity| |].
  - cbn [Nat.ltb Nat.leb Spec.category plural Nat.eqb].
    change (pretty 1) with "1". by rewrite append_assoc.
  - cbn [Nat.ltb Nat.leb Spec.category plural Nat.eqb].
    by rewrite append_assoc.
Qed.

Lemma message_of_status_spec (status_lines : list string) :
  message_of_status status_lines
  = Spec.auto_commit_message
      (count_prefix "A " status_lines) (Aux.count_modified status_lines)
      (count_prefix "D " status_lines) (count_prefix "R " status_lines).
Proof.
  unfold message_of_status, Spec.auto_commit_message.
  fold (Aux.count_modified status_lines).
  change "created " with ("created" +:+ " ").
  change "modified " with ("modified" +:+ " ").
  change "deleted " with ("deleted" +:+ " ").
  change "renamed " with ("renamed" +:+ " ").
  rewrite !category_item.
  by destruct (_ ++ _)%list.
Qed.

(** C3, the claim as stated fails: for an empty status output the message is
    not the fallback of the specification but [Update files]. *)
Lemma empty_status_message :
  fst (create_squashed_commit_message (Example.env true Example.clean_git)
         ["w"] ∅ Example.world) = Ok "Update files"
  ∧ "Update files" ≠ "Auto-commit: updated files".
Proof. split; [vm_compute; reflexivity | discriminate]. Qed.

(** C3, amended.  The message is a function of the outcome of
    [git status --porcelain] alone.  When the command completes with return
    code zero and at least one non-blank line, the stripped non-blank lines
    are counted by their first two characters and the message is
    "Auto-commit: " followed by the non-zero categories in the order created,
    modified, deleted, renamed, or "Auto-commit: updated files" when no line
    counts; when the command fails or prints no non-blank line the message is
    "Update files"; when the runner raises it is "Auto-commit: updated
    files". *)
Theorem commit_message_synthesis (E : Env) (repo : Path)
  (changed_files : gset string) (w : World) :
  create_squashed_commit_message E repo changed_files w
  = (Ok match git E (effects w) ["git"; "status"; "--porcelain"] repo with
        | RunError => "Auto-commit: updated files"
        | Completed r =>
            let status_lines := stripped_lines (stdout r) in
            if negb (returncode r =? 0)%Z || bool_decide (status_lines = [])
            then "Update files"
            else Spec.auto_commit_message
                   (count_prefix "A " status_lines)
                   (Aux.count_modified status_lines)
                   (count_prefix "D " status_lines)
                   (count_prefix "R " status_lines)
        end,
     set_effects w
       (effects w ++
        [EGit ["git"; "status"; "--porcelain"] repo
           (git E (effects w) ["git"; "status"; "--porcelain"] repo)]))
  ∧ message_of_result {| returncode := 0; stdout := "A  file1" |}
    = "Auto-commit: created 1 file"
  ∧ message_of_result
      {| returncode := 0; stdout := "M  file1
M  file2
D  file3
" |}
    = "Auto-commit: modified 2 files, deleted 1 file"
  ∧ message_of_result {| returncode := 0; stdout := "?? draft" |}
    = "Auto-commit: updated files".
Proof.
  split; [|repeat split; vm_compute; reflexivity].
  unfold create_squashed_commit_message, catch, bind, run_git_command, ret.
  destruct (git E (effects w) _ repo) as [r|]; [|reflexivity].
  f_equal. f_equal. unfold message_of_result, ok.
  destruct (returncode r =? 0)%Z; [|reflexivity]. cbn [negb orb].
  destruct (stripped_lines (stdout r)) as [|l ls] eqn:Hl; [reflexivity|].
  rewrite bool_decide_eq_false_2 by discriminate.
  apply message_of_status_spec.
Qed.

(** ** The delayed commit without pending changes *)

(** C10. When the directory has no entry in the pending map,
    [_execute_delayed_commit] returns at once and the world is the same: no
    git command has run, the pending map and the timer map are as before. *)
Theorem execute_without_pending (E : Env) (dir_key : string) (w : World) :
  pending_commits w !! dir_key = None →
  execute_delayed_commit E dir_key w = (Ok tt, w).
Proof.
  intros H. unfold execute_delayed_commit, execute_delayed_commit_locked.
  rewrite H. reflexivity.
Qed.

Lemma execute_without_pending_witness :
  pending_commits Example.world !! "/w" = None
  ∧ execute_delayed_commit (Example.env true Example.dirty_git) "/w" Example.world
    = (Ok tt, Example.world).
Proof.
  split; [reflexivity|]. apply execute_without_pending. reflexivity.
Defined.

(** ** Change events *)

Ltac unfold_world :=
  unfold set_phase, Aux.logged_all, Aux.logged in *;
  unfold set_now, set_timers, set_submodules, set_pending_commits,
    set_commit_timers, set_fetch_timer, set_ignore_manager, set_effects,
    set_attempts in *;
  cbn [now timers submodules pending_commits commit_timers fetch_timer
       ignore_manager effects attempts fst snd] in *.

Lemma length_cancel_timer (ts : list Timer) (id : nat) :
  length (cancel_timer ts id) = length ts.
Proof. apply length_alter. Qed.

(** What the locked region of [_handle_file_change] leaves behind. *)
Lemma schedule_commit_eq (E : Env) (dir_key : string) (file_path : Path)
  (w : World) :
  schedule_commit E dir_key file_path w
  = (Ok tt,
     {| now := now w;
        timers :=
          match commit_timers w !! dir_key with
          | Some id => cancel_timer (timers w) id
          | None => timers w
          end ++ [{| t_deadline := now w + commit_delay (config E);
                     t_callback := CommitCb dir_key;
                     t_finished := false; t_phase := Waiting |}];
        submodules := submodules w;
        pending_commits :=
          <[dir_key := Aux.pending_for w dir_key ∪ {[path_str file_path]}]>
            (pending_commits w);
        commit_timers := <[dir_key := length (timers w)]> (commit_timers w);
        fetch_timer := fetch_timer w;
        ignore_manager := ignore_manager w;
        effects := effects w;
        attempts := attempts w |}).
Proof.
  unfold schedule_commit, start_timer, Aux.pending_for. unfold_world.
  f_equal. f_equal.
  - destruct (pending_commits w !! dir_key) as [s|] eqn:Hp.
    + by rewrite Hp.
    + by rewrite lookup_insert_eq, insert_insert_eq.
  - destruct (commit_timers w !! dir_key); [|reflexivity].
    by rewrite length_cancel_timer.
Qed.

Lemma handle_file_change_eq (E : Env) (file_path change_type : string)
  (w : World) :
  handle_file_change E file_path change_type w
  = let w1 := set_ignore_manager w
                (snd (should_ignore (fs E) (ignore_manager w) file_path)) in
    if fst (should_ignore (fs E) (ignore_manager w) file_path)
    then (Ok tt, w1)
    else match target_of E w1 (resolve (fs E) file_path) with
         | Some target_dir =>
             schedule_commit E (path_str target_dir)
               (resolve (fs E) file_path) w1
         | None => (Exc, w1)
         end.
Proof.
  unfold handle_file_change, bind, should_exclude_file.
  destruct (should_ignore (fs E) (ignore_manager w) file_path) as [[] im];
    reflexivity.
Qed.

(** The paths added to pending sets by [_handle_file_change] are the resolved
    path of its argument and no other. *)
Lemma handle_file_change_pending (E : Env) (file_path change_type : string)
  (w : World) (dir_key : string) :
  Aux.pending_for (snd (handle_file_change E file_path change_type w)) dir_key
  ⊆ Aux.pending_for w dir_key ∪ {[path_str (resolve (fs E) file_path)]}.
Proof.
  rewrite handle_file_change_eq. cbn zeta.
  destruct (fst (should_ignore _ _ _)); [set_solver|].
  destruct (target_of _ _ _) as [d|]; [|set_solver].
  rewrite schedule_commit_eq. unfold Aux.pending_for. unfold_world.
  destruct (decide (path_str d = dir_key)) as [->|Hne].
  - rewrite lookup_insert_eq. cbn. set_solver.
  - rewrite lookup_insert_ne by done. set_solver.
Qed.

(** C9. A moved event is handled through its destination path only: the
    handler does what [_handle_file_change] does on the destination, the
    source path has no influence on the outcome, the only path that can enter
    a pending set is the resolved destination, and an event without a
    destination path (like an event for a directory) leaves the world as it
    is. *)
Theorem on_moved_destination_only (E : Env) (event : FileSystemEvent)
  (w : World) (other_src dir_key : string) :
  on_moved E event w
  = (if is_directory event then (Ok tt, w)
     else match dest_path event with
          | Some dest => handle_file_change E dest "moved" w
          | None => (Ok tt, w)
          end)
  ∧ on_moved E (Aux.with_src_path event other_src) w = on_moved E event w
  ∧ Aux.pending_for (snd (on_moved E event w)) dir_key
    ⊆ Aux.pending_for w dir_key
      ∪ match dest_path event with
        | Some dest => {[path_str (resolve (fs E) dest)]}
        | None => ∅
        end.
Proof.
  split; [|split].
  - unfold on_moved. destruct (is_directory event); [reflexivity|].
    destruct (dest_path event); reflexivity.
  - reflexivity.
  - unfold on_moved. destruct (is_directory event); [set_solver|].
    destruct (dest_path event) as [dest|]; [|set_solver].
    apply handle_file_change_pending.
Qed.

(** ** Running the git operations

    The lemmas and tactics below run a computation step by step on a world:
    every git command adds one effect and splits on its outcome. *)

Lemma bind_run_git {B} (E : Env) (cmd : list string) (cwd : Path)
  (k : CompletedProcess → M B) (w : World) :
  bind (run_git_command E cmd cwd) k w
  = match git E (effects w) cmd cwd with
    | Completed r => k r (Aux.logged w (EGit cmd cwd (Completed r)))
    | RunError => (Exc, Aux.logged w (EGit cmd cwd RunError))
    end.
Proof.
  unfold bind, run_git_command, Aux.logged.
  destruct (git E (effects w) cmd cwd); reflexivity.
Qed.

Lemma bind_emit {B} (e : Effect) (k : unit → M B) (w : World) :
  bind (emit e) k w = k tt (Aux.logged w e).
Proof. reflexivity. Qed.

Lemma bind_ret {A B} (a : A) (k : A → M B) (w : World) :
  bind (ret a) k w = k a w.
Proof. reflexivity. Qed.

Lemma bind_bind {A B C} (m : M A) (k : A → M B) (k' : B → M C) (w : World) :
  bind (bind m k) k' w = bind m (fun a => bind (k a) k') w.
Proof. unfold bind. destruct (m w) as [[a|] w1]; reflexivity. Qed.

Lemma bind_create_message {B} (E : Env) (repo : Path) (cf : gset string)
  (k : string → M B) (w : World) :
  bind (create_squashed_commit_message E repo cf) k w
  = k (Aux.message_for (git E (effects w) ["git"; "status"; "--porcelain"] repo))
      (Aux.logged w (EGit ["git"; "status"; "--porcelain"] repo
                   (git E (effects w) ["git"; "status"; "--porcelain"] repo))).
Proof.
  unfold bind, create_squashed_commit_message, catch, bind, run_git_command,
    ret, Aux.logged.
  destruct (git E (effects w) _ repo); reflexivity.
Qed.

Lemma logged_one (w : World) (e : Effect) : Aux.logged w e = Aux.logged_all w [e].
Proof. reflexivity. Qed.

Lemma logged_more (w : World) (es es' : list Effect) :
  Aux.logged_all (Aux.logged_all w es) es' = Aux.logged_all w (es ++ es').
Proof. unfold Aux.logged_all, set_effects. cbn. by rewrite app_assoc. Qed.

Lemma new_effects_logged_all (w : World) (es : list Effect) :
  Aux.new_effects w (Aux.logged_all w es) = es.
Proof. unfold Aux.new_effects. cbn. apply drop_app_length. Qed.

Lemma new_effects_refl (w : World) : Aux.new_effects w w = [].
Proof. unfold Aux.new_effects. apply drop_all. Qed.

Lemma logged_all_nil (w : World) : Aux.logged_all w [] = w.
Proof. unfold Aux.logged_all, set_effects. rewrite app_nil_r. by destruct w. Qed.

Lemma ok_true (r : CompletedProcess) : ok r = true ↔ returncode r = 0%Z.
Proof. unfold ok. apply Z.eqb_eq. Qed.

Lemma ok_false (r : CompletedProcess) : ok r = false ↔ returncode r ≠ 0%Z.
Proof. unfold ok. apply Z.eqb_neq. Qed.

(** Name the property of the outcome, so that the computation is the only
    argument of the goal. *)
Ltac focus_on t :=
  pattern t;
  lazymatch goal with |- ?F _ => let Q := fresh "Q" in set (Q := F) end.

(** One step of the computation at the head of the goal. *)
Ltac mstep E :=
  lazymatch goal with
  | |- ?Q ((if true then ?a else _) ?w) => change (Q (a w))
  | |- ?Q ((if false then _ else ?b) ?w) => change (Q (b w))
  | |- ?Q (bind (if true then ?a else _) ?k ?w) => change (Q (bind a k w))
  | |- ?Q (bind (if false then _ else ?b) ?k ?w) => change (Q (bind b k w))
  | |- ?Q (bind (when true ?m) ?k ?w) => change (Q (bind m k w))
  | |- ?Q (bind (when false _) ?k ?w) => change (Q (bind (ret tt) k w))
  | |- ?Q (when true ?m ?w) => change (Q (m w))
  | |- ?Q (when false _ ?w) => change (Q (ret tt w))
  | |- ?Q (bind (bind _ _) _ _) => rewrite bind_bind
  | |- ?Q (bind (ret _) _ _) => rewrite bind_ret
  | |- ?Q (bind (emit _) _ _) => rewrite bind_emit
  | |- ?Q (bind (create_squashed_commit_message E ?d _) _ ?w) =>
      rewrite bind_create_message;
      let r := fresh "status" in
      generalize (git E (effects w) ["git"; "status"; "--porcelain"] d);
      intros r
  | |- ?Q (bind (run_git_command E ?c ?d) ?k ?w) =>
      rewrite (bind_run_git E c d k w);
      let r := fresh "r" in
      destruct (git E (effects w) c d) as [r|]
  | |- ?Q (bind (if ?b then _ else _) _ _) =>
      let Hb := fresh "Hb" in destruct b eqn:Hb
  | |- ?Q ((if ?b then _ else _) _) =>
      let Hb := fresh "Hb" in destruct b eqn:Hb
  | |- ?Q (bind (when ?b _) _ _) =>
      let Hb := fresh "Hb" in unfold when at 1; destruct b eqn:Hb
  | |- ?Q (when ?b _ _) =>
      let Hb := fresh "Hb" in unfold when at 1; destruct b eqn:Hb
  | |- ?Q (bind (push_changes E _ _) _ _) => unfold push_changes at 1
  | |- ?Q (push_changes E _ _ _) => unfold push_changes at 1
  | |- ?Q (bind (send_commit_notification E _) _ _) =>
      unfold send_commit_notification at 1
  | |- ?Q (send_commit_notification E _ _) =>
      unfold send_commit_notification at 1
  | |- ?Q (emit ?e ?w) => change (emit e w) with (Ok tt, Aux.logged w e)
  | |- ?Q (ret ?a ?w) => change (ret a w) with (Ok a, w)
  | |- ?Q (raise ?w) => change (raise w) with (@Exc unit, w)
  end.

(** At the end of a run: the effects added, as one list. *)
Ltac leaf Q :=
  subst Q; cbv beta; cbn [fst snd];
  rewrite ?logged_one, ?logged_more, ?new_effects_logged_all,
    ?new_effects_refl;
  cbn [app].

Ltac ok_hyps :=
  repeat match goal with
    | H : negb _ = true |- _ => apply negb_true_iff in H
    | H : negb _ = false |- _ => apply negb_false_iff in H
    end.

Lemma same_but_effects_logged_all (w : World) (es : list Effect) :
  Aux.same_but_effects w (Aux.logged_all w es).
Proof. reflexivity. Qed.

Lemma same_but_effects_refl (w : World) : Aux.same_but_effects w w.
Proof. by destruct w. Qed.

(** *** The follow-up in the root *)

Lemma follow_up_committed_eq (E : Env) (sub : Path) (rel : list string)
  (a d c : CompletedProcess) (N P L : list Effect) :
  L = [Trace.stage_reference E rel a; Trace.check_staged E d;
       Trace.commit_reference E sub c] ++ N ++ P →
  N = Trace.notification E ("Update " +:+ name sub +:+ " submodule") →
  relative_to sub (repo_dir E) = Some rel →
  ok a = true → ok d = false → ok c = true →
  Trace.pushed E (repo_dir E) P →
  Trace.follow_up E sub L.
Proof. intros -> -> ?????. by eapply Trace.follow_up_committed. Qed.

Ltac solve_pushed :=
  first [ by apply Trace.push_off | by apply Trace.push_on ].

Ltac solve_notification :=
  unfold Trace.notification;
  match goal with
  | H : notify_commits _ = _ |- _ => rewrite H; reflexivity
  end.

Ltac solve_follow_up E :=
  ok_hyps;
  first
    [ by eapply Trace.follow_up_unstaged
    | by eapply Trace.follow_up_noop
    | by eapply Trace.follow_up_commit_failed
    | eapply (follow_up_committed_eq E _ _ _ _ _ [_] [_]);
      [reflexivity | solve_notification | done.. | solve_pushed]
    | eapply (follow_up_committed_eq E _ _ _ _ _ [] [_]);
      [reflexivity | solve_notification | done.. | solve_pushed]
    | eapply (follow_up_committed_eq E _ _ _ _ _ [_] []);
      [reflexivity | solve_notification | done.. | solve_pushed]
    | eapply (follow_up_committed_eq E _ _ _ _ _ [] []);
      [reflexivity | solve_notification | done.. | solve_pushed] ].

(** The follow-up, when every command completes. *)
Lemma commit_submodule_update_trace (E : Env) (sub : Path) (w : World) :
  is_Some (relative_to sub (repo_dir E)) →
  let r := commit_submodule_update E sub w in
  Aux.no_runner_error (Aux.new_effects w (snd r)) = true →
  fst r = Ok tt
  ∧ Aux.same_but_effects w (snd r)
  ∧ effects (snd r) = effects w ++ Aux.new_effects w (snd r)
  ∧ Trace.follow_up E sub (Aux.new_effects w (snd r)).
Proof.
  intros [rel Hrel]. cbn zeta.
  focus_on (commit_submodule_update E sub w).
  unfold commit_submodule_update. rewrite Hrel.
  repeat mstep E.
  all: leaf Q.
  all: cbn [Aux.no_runner_error forallb andb]; try discriminate; intros _.
  all: split; [reflexivity|]; split; [apply same_but_effects_logged_all|].
  all: split; [reflexivity|].
  all: solve_follow_up E.
Qed.

(** *** The delayed commit in a submodule *)

Lemma delayed_committed_eq (E : Env) (sub : Path) (a s c : CompletedProcess)
  (P F L : list Effect) :
  L = [Trace.stage_all sub a; Trace.status sub s;
       Trace.commit sub (message_of_result s) c] ++ P ++ F →
  ok a = true → ok c = true →
  Trace.pushed E sub P →
  Trace.follow_up E sub F →
  Trace.delayed_submodule E sub L.
Proof. intros -> ????. by eapply Trace.delayed_committed. Qed.

Lemma commit_squashed_submodule_trace (E : Env) (sub : Path)
  (cf : gset string) (w : World) :
  is_Some (relative_to sub (repo_dir E)) →
  let r := commit_squashed_submodule E sub cf w in
  Aux.no_runner_error (Aux.new_effects w (snd r)) = true →
  fst r = Ok tt
  ∧ Aux.same_but_effects w (snd r)
  ∧ Trace.delayed_submodule E sub (Aux.new_effects w (snd r)).
Proof.
  intros [rel Hrel]. cbn zeta.
  focus_on (commit_squashed_submodule E sub cf w).
  unfold commit_squashed_submodule, commit_submodule_update. rewrite Hrel.
  repeat mstep E.
  all: leaf Q.
  all: try destruct status as [s|].
  all: cbn [Aux.no_runner_error forallb andb]; try discriminate; intros _.
  all: split; [reflexivity|]; split; [apply same_but_effects_logged_all|].
  all: cbn [Aux.message_for]; ok_hyps.
  all: try (by eapply Trace.delayed_unstaged).
  all: try (by eapply Trace.delayed_commit_failed).
  all: first
    [ eapply (delayed_committed_eq E sub _ _ _ [_]);
      [reflexivity | done | done | solve_pushed | solve_follow_up E]
    | eapply (delayed_committed_eq E sub _ _ _ []);
      [reflexivity | done | done | solve_pushed | solve_follow_up E] ].
Qed.


(** *** The delayed commit in a submodule, whatever the runner does *)

Lemma follow_up_push_raised_eq (E : Env) (sub : Path) (rel : list string)
  (a d c : CompletedProcess) (N L : list Effect) :
  L = [Trace.stage_reference E rel a; Trace.check_staged E d;
       Trace.commit_reference E sub c] ++ N
      ++ [Outcome.raised ["git"; "push"] (repo_dir E)] →
  N = Trace.notification E ("Update " +:+ name sub +:+ " submodule") →
  relative_to sub (repo_dir E) = Some rel →
  ok a = true → ok d = false → ok c = true →
  auto_push (config E) = true →
  Outcome.follow_up E sub L Exc.
Proof. intros -> -> ?????. by eapply Outcome.follow_up_push_raised. Qed.

Ltac solve_outcome_follow_up E :=
  ok_hyps;
  first
    [ apply Outcome.follow_up_completed; solve_follow_up E
    | by eapply Outcome.follow_up_stage_raised
    | by eapply Outcome.follow_up_check_raised
    | by eapply Outcome.follow_up_commit_raised
    | eapply (follow_up_push_raised_eq E _ _ _ _ _ [_]);
      [reflexivity | solve_notification | done..]
    | eapply (follow_up_push_raised_eq E _ _ _ _ _ []);
      [reflexivity | solve_notification | done..] ].

Lemma outcome_committed_eq (E : Env) (sub : Path) (a c : CompletedProcess)
  (s : RunResult) (P F L : list Effect) (out : Res unit) :
  L = [Trace.stage_all sub a; Outcome.status_read sub s;
       Trace.commit sub (Aux.message_for s) c] ++ P ++ F →
  ok a = true → ok c = true →
  Trace.pushed E sub P →
  Outcome.follow_up E sub F out →
  Outcome.delayed_submodule E sub L out.
Proof. intros -> ????. by eapply Outcome.delayed_committed. Qed.

(** C6 as stated fails where it has the root pushed whenever something is
    staged: the push is attempted only if [auto_push] is set.  Here it is
    not; the commit in the submodule [/w/sub] succeeds, its path is staged
    in the root [/w], the check of the index reports staged changes, and the
    root is committed, but never pushed. *)
Lemma root_commit_without_push :
  auto_push (config (Example.env false Example.dirty_git)) = false
  ∧ Aux.commits_in ["w"; "sub"] Example.unpushed
    = [("Auto-commit: modified 1 file", Example.done "")]
  ∧ Aux.git_results ["git"; "add"; "sub"] ["w"] Example.unpushed
    = [Example.done ""]
  ∧ Aux.git_results ["git"; "diff"; "--cached"; "--quiet"] ["w"]
Example.unpushed
    = [Completed {| returncode := 1; stdout := "" |}]
  ∧ Aux.commits_in ["w"] Example.unpushed
    = [("Update sub submodule", Example.done "")]
  ∧ Aux.git_results ["git"; "push"] ["w"] Example.unpushed = [].
Proof. vm_compute. repeat split. Qed.

(** C6, amended.  The effects and the outcome of a delayed commit in a
    submodule below the root are those [Outcome.delayed_submodule] lists,
    whatever git answers, and nothing but the record of effects changes.
    After a successful commit in the submodule, and its push if [auto_push]
    is set, the follow-up runs in the root exactly once: the relative path
    of the submodule is staged; if that succeeds the index is checked; the
    root is committed if and only if the check ran and reported staged
    changes, so a pointer that did not move gives no root commit; the root
    is pushed if and only if that commit succeeded and [auto_push] is set.
    Nothing runs in the root when everything could not be staged in the
    submodule, when the commit in the submodule failed, or when a command
    before the follow-up could not be run, the push of the submodule
    included: the exception leaves the callback. *)
Theorem submodule_follow_up (E : Env) (submodule_dir : Path)
  (changed_files : gset string) (w : World) :
  is_Some (relative_to submodule_dir (repo_dir E)) →
  Outcome.delayed_submodule E submodule_dir
    (Aux.new_effects w
       (snd (commit_squashed_submodule E submodule_dir changed_files w)))
    (fst (commit_squashed_submodule E submodule_dir changed_files w))
  ∧ Aux.same_but_effects w
      (snd (commit_squashed_submodule E submodule_dir changed_files w)).
Proof.
  intros [rel Hrel].
  focus_on (commit_squashed_submodule E submodule_dir changed_files w).
  unfold commit_squashed_submodule, commit_submodule_update. rewrite Hrel.
  repeat mstep E.
  all: leaf Q.
  all: (split; [|apply same_but_effects_logged_all]).
  all: ok_hyps.
  all: first
    [ by eapply Outcome.delayed_stage_raised
    | by eapply Outcome.delayed_unstaged
    | by eapply Outcome.delayed_commit_raised
    | by eapply Outcome.delayed_commit_failed
    | by eapply Outcome.delayed_push_raised
    | eapply (outcome_committed_eq E submodule_dir _ _ _ [_]);
      [reflexivity | done | done | solve_pushed | solve_outcome_follow_up E]
    | eapply (outcome_committed_eq E submodule_dir _ _ _ []);
      [reflexivity | done | done | solve_pushed | solve_outcome_follow_up E] ].
Qed.

Lemma submodule_follow_up_witness :
  is_Some (relative_to ["w"; "sub"]
             (repo_dir (Example.env true Example.dirty_git)))
  ∧ Outcome.delayed_submodule (Example.env true Example.dirty_git)
      ["w"; "sub"]
      (Aux.new_effects Example.world
         (snd (commit_squashed_submodule (Example.env true Example.dirty_git)
                 ["w"; "sub"] ∅ Example.world)))
      (fst (commit_squashed_submodule (Example.env true Example.dirty_git)
              ["w"; "sub"] ∅ Example.world))
  ∧ Aux.same_but_effects Example.world
      (snd (commit_squashed_submodule (Example.env true Example.dirty_git)
              ["w"; "sub"] ∅ Example.world)).
Proof.
  split; [by exists ["sub"]|].
  apply submodule_follow_up. by exists ["sub"].
Defined.


(** ** The poll of the remotes *)

Ltac solve_poll :=
  ok_hyps;
  repeat match goal with
    | H : String.eqb _ _ = true |- _ => apply String.eqb_eq in H
    | H : String.eqb _ _ = false |- _ => apply String.eqb_neq in H
    end;
  first
    [ by eapply Trace.poll_no_head
    | by eapply Trace.poll_fetch_failed
    | eapply Trace.poll_no_branch;
      [done | done | by (rewrite andb_false_iff, negb_false_iff; eauto)]
    | eapply Trace.poll_no_remote;
      [done | done | by (rewrite andb_true_iff, negb_true_iff; eauto) | done]
    | eapply Trace.poll_up_to_date;
      [done | done | by (rewrite andb_true_iff, negb_true_iff; eauto)
      | done | done]
    | eapply Trace.poll_count_failed;
      [done | done | by (rewrite andb_true_iff, negb_true_iff; eauto)
      | done | done | done]
    | eapply Trace.poll_changed;
      [done | done | by (rewrite andb_true_iff, negb_true_iff; eauto)
      | done | done | done] ].

(** The poll of one target adds effects only; when every command completes it
    returns a report, and effects and report are those of a poll. *)
Lemma fetch_and_check_changes_trace (E : Env) (repo : Path)
  (repo_name : string) (w : World) :
  ∃ es, snd (fetch_and_check_changes E repo repo_name w) = Aux.logged_all w es
  ∧ (Aux.no_runner_error es = true →
     ∃ report, fst (fetch_and_check_changes E repo repo_name w) = Ok report
               ∧ Trace.poll repo es report).
Proof.
  focus_on (fetch_and_check_changes E repo repo_name w).
  unfold fetch_and_check_changes.
  repeat mstep E.
  all: subst Q; cbv beta; cbn [fst snd];
    rewrite ?logged_one, ?logged_more; cbn [app].
  all: eexists; (split; [reflexivity|]);
    cbn [Aux.no_runner_error forallb andb]; intros Hrun;
    first [ discriminate Hrun
          | eexists; (split; [reflexivity|]); solve_poll ].
Qed.

Lemma no_runner_error_app (es es' : list Effect) :
  Aux.no_runner_error (es ++ es') = true
  ↔ Aux.no_runner_error es = true ∧ Aux.no_runner_error es' = true.
Proof. unfold Aux.no_runner_error. by rewrite forallb_app, andb_true_iff. Qed.

Lemma fetch_submodules_trace (E : Env) (subs : list Path)
  (acc : list (string * string)) (w : World) :
  ∃ es, snd (fetch_submodules E subs acc w) = Aux.logged_all w es
  ∧ (Aux.no_runner_error es = true →
     ∃ Ls reports d,
       es = concat Ls ∧ Forall3 Trace.poll subs Ls reports
       ∧ fst (fetch_submodules E subs acc w) = Ok d).
Proof.
  revert acc w. induction subs as [|s subs IH]; intros acc w.
  - exists []. split; [by rewrite logged_all_nil|].
    intros _. exists [], [], acc. repeat split. constructor.
  - cbn [fetch_submodules]. unfold bind.
    destruct (fetch_and_check_changes_trace E s ("submodule " +:+ name s) w)
      as (es1 & Hw1 & H1).
    destruct (fetch_and_check_changes E s ("submodule " +:+ name s) w)
      as [[rep|] w1]; cbn [fst snd] in *; subst w1.
    + match goal with
      | |- context [fetch_submodules E subs ?a (Aux.logged_all w es1)] =>
          destruct (IH a (Aux.logged_all w es1)) as (es2 & Hw2 & H2)
      end.
      exists (es1 ++ es2). split; [by rewrite Hw2, logged_more|].
      intros [Hr1 Hr2]%no_runner_error_app.
      destruct (H1 Hr1) as (report & Hrep & Hp). injection Hrep as <-.
      destruct (H2 Hr2) as (Ls & reports & d & -> & HF & Hd).
      exists (es1 :: Ls), (rep :: reports), d.
      repeat split; [by constructor | done].
    + exists es1. split; [done|]. intros Hr1.
      destruct (H1 Hr1) as (report & Hrep & _). discriminate Hrep.
Qed.

Lemma send_change_notification_trace (E : Env) (main_changes : option string)
  (submodule_changes : list (string * string)) (w : World) :
  ∃ N, send_change_notification E main_changes submodule_changes w
       = (Ok tt, Aux.logged_all w N)
  ∧ Forall Trace.is_notification N.
Proof.
  assert (Hfold : ∀ d w,
    ∃ N, List.fold_right
           (fun '(submodule, changes) k =>
              emit (remote_notification E (submodule +:+ ": " +:+ changes)) ;;; k)
           (ret tt) d w = (Ok tt, Aux.logged_all w N)
    ∧ Forall Trace.is_notification N).
  { clear. intros d. induction d as [|[k v] d IH]; intros w.
    - exists []. by rewrite logged_all_nil.
    - cbn [List.fold_right]. rewrite bind_emit.
      destruct (IH (Aux.logged w (remote_notification E (k +:+ ": " +:+ v))))
        as (N & -> & HN).
      eexists (_ :: N). rewrite logged_one, logged_more. split; [reflexivity|].
      constructor; [exact I | exact HN]. }
  unfold send_change_notification, when.
  destruct (truthy main_changes).
  - rewrite bind_emit.
    destruct (Hfold submodule_changes
                (Aux.logged w (remote_notification E
                             ("Main repo: " +:+ default "" main_changes))))
      as (N & -> & HN).
    eexists (_ :: N). rewrite logged_one, logged_more. split; [reflexivity|].
    constructor; [exact I | exact HN].
  - rewrite bind_ret. apply Hfold.
Qed.

Lemma start_fetch_timer_eq (E : Env) (w : World) :
  start_fetch_timer E w
  = (Ok tt,
     set_fetch_timer
       (set_timers w
          (match fetch_timer w with
           | Some id => cancel_timer (timers w) id
           | None => timers w
           end ++ [{| t_deadline := now w + fetch_interval (config E);
                      t_callback := FetchCb;
                      t_finished := false; t_phase := Waiting |}]))
       (Some (length (timers w)))).
Proof.
  unfold start_fetch_timer, bind, start_timer, cancel.
  destruct (fetch_timer w) as [id|]; unfold_world;
    rewrite ?length_cancel_timer; reflexivity.
Qed.

(** *** The poll cycle, whatever the runner does *)





(** **** The dictionary of the reports of the submodules *)















(** A target two commits behind its remote is reported with the count. *)
Example poll_behind :
  fst (fetch_and_check_changes (Example.env true Example.behind_git)
         ["w"] "main repo" Example.world) = Ok (Some "2 new commits").
Proof. vm_compute. reflexivity. Qed.

(** ** The commit of existing changes at startup *)








(** ** Computations that only add effects *)

Lemma effect_only_ret {A} (a : A) : Aux.effect_only (ret a).
Proof. intros w. exists []. by rewrite logged_all_nil. Qed.

Lemma effect_only_raise {A} : Aux.effect_only (@raise A).
Proof. intros w. exists []. by rewrite logged_all_nil. Qed.

Lemma effect_only_emit (e : Effect) : Aux.effect_only (emit e).
Proof. intros w. by exists [e]. Qed.

Lemma effect_only_run_git (E : Env) (cmd : list string) (cwd : Path) :
  Aux.effect_only (run_git_command E cmd cwd).
Proof.
  intros w. exists [EGit cmd cwd (git E (effects w) cmd cwd)].
  unfold run_git_command. by destruct (git E (effects w) cmd cwd).
Qed.

Lemma effect_only_bind {A B} (m : M A) (k : A → M B) :
  Aux.effect_only m → (∀ a, Aux.effect_only (k a)) →
  Aux.effect_only (bind m k).
Proof.
  intros Hm Hk w. unfold bind. destruct (Hm w) as (es & Hes).
  destruct (m w) as [[a|] w1]; cbn [snd] in *; subst w1.
  - destruct (Hk a (Aux.logged_all w es)) as (es' & ->).
    exists (es ++ es'). by rewrite logged_more.
  - by exists es.
Qed.

Lemma effect_only_catch {A} (m h : M A) :
  Aux.effect_only m → Aux.effect_only h → Aux.effect_only (catch m h).
Proof.
  intros Hm Hh w. unfold catch. destruct (Hm w) as (es & Hes).
  destruct (m w) as [[a|] w1]; cbn [snd] in *; subst w1.
  - by exists es.
  - destruct (Hh (Aux.logged_all w es)) as (es' & ->).
    exists (es ++ es'). by rewrite logged_more.
Qed.

Lemma effect_only_when (b : bool) (m : M unit) :
  Aux.effect_only m → Aux.effect_only (when b m).
Proof. destruct b; [done|]. intros _. apply effect_only_ret. Qed.

Ltac effect_only :=
  repeat first
    [ apply effect_only_ret
    | apply effect_only_raise
    | apply effect_only_emit
    | apply effect_only_run_git
    | apply effect_only_when
    | apply effect_only_catch
    | apply effect_only_bind; [|intros ?]
    | match goal with
      | |- Aux.effect_only (if ?b then _ else _) => destruct b
      | |- Aux.effect_only (match ?o with Some _ => _ | None => _ end) =>
          destruct o
      end ].

Lemma effect_only_commit_submodule_update (E : Env) (sub : Path) :
  Aux.effect_only (commit_submodule_update E sub).
Proof.
  unfold commit_submodule_update, push_changes, send_commit_notification.
  effect_only.
Qed.

Lemma effect_only_commit_squashed_submodule (E : Env) (sub : Path)
  (cf : gset string) :
  Aux.effect_only (commit_squashed_submodule E sub cf).
Proof.
  unfold commit_squashed_submodule, create_squashed_commit_message,
    push_changes.
  effect_only. apply effect_only_commit_submodule_update.
Qed.

Lemma effect_only_commit_squashed_main_repo (E : Env) (repo : Path)
  (cf : gset string) :
  Aux.effect_only (commit_squashed_main_repo E repo cf).
Proof.
  unfold commit_squashed_main_repo, create_squashed_commit_message,
    push_changes, send_commit_notification.
  effect_only.
Qed.

Lemma effect_only_unlocked (E : Env) (dir_key : string) (cf : gset string) :
  Aux.effect_only (execute_delayed_commit_unlocked E dir_key cf).
Proof.
  intros w. unfold execute_delayed_commit_unlocked.
  destruct (bool_decide _).
  - apply effect_only_commit_squashed_submodule.
  - apply effect_only_commit_squashed_main_repo.
Qed.

(** The poll cycle adds effects and, unless a command fails to run, arms the
    fetch timer again after cancelling the one recorded. *)
Lemma periodic_fetch_world (E : Env) (w : World) :
  ∃ es,
    exec (periodic_fetch E) w = Aux.logged_all w es
    ∨ exec (periodic_fetch E) w
      = set_fetch_timer
          (set_timers (Aux.logged_all w es)
             (match fetch_timer w with
              | Some id => cancel_timer (timers w) id
              | None => timers w
              end ++ [{| t_deadline := now w + fetch_interval (config E);
                         t_callback := FetchCb;
                         t_finished := false; t_phase := Waiting |}]))
          (Some (length (timers w))).
Proof.
  unfold exec, periodic_fetch, bind.
  destruct (fetch_and_check_changes_trace E (repo_dir E) "main repo" w)
    as (es0 & Hw0 & _).
  destruct (fetch_and_check_changes E (repo_dir E) "main repo" w)
    as [[main|] w0]; cbn [fst snd] in *; subst w0; [|by exists es0; left].
  destruct (fetch_submodules_trace E (submodules (Aux.logged_all w es0)) []
              (Aux.logged_all w es0)) as (es1 & Hw1 & _).
  destruct (fetch_submodules E _ [] (Aux.logged_all w es0))
    as [[d|] w1]; cbn [fst snd] in *; subst w1;
    rewrite logged_more; [|by eexists; left].
  assert (Hn : ∃ N,
    when (truthy main || match d with [] => false | _ => true end)
         (when (enable_notifications (config E)
                && notify_on_remote_changes (config E))
               (send_change_notification E main d))
         (Aux.logged_all w (es0 ++ es1))
    = (Ok tt, Aux.logged_all w ((es0 ++ es1) ++ N))).
  { unfold when.
    destruct (truthy main || _);
      [destruct (enable_notifications (config E) && _)|].
    - destruct (send_change_notification_trace E main d
                  (Aux.logged_all w (es0 ++ es1))) as (N & -> & HN).
      exists N. by rewrite logged_more.
    - exists []. by rewrite app_nil_r.
    - exists []. by rewrite app_nil_r. }
  destruct Hn as (N & ->).
  rewrite start_fetch_timer_eq. cbn [snd].
  eexists. right. reflexivity.
Qed.

(** ** The heap of timers *)

Lemma lookup_cancel_timer (ts : list Timer) (i j : nat) :
  cancel_timer ts i !! j
  = if decide (i = j) then cancelled <$> ts !! j else ts !! j.
Proof.
  unfold cancel_timer. rewrite list_lookup_alter.
  by case_decide; subst.
Qed.

Lemma lookup_alter_phase (ts : list Timer) (p : Phase) (i j : nat) :
  alter (fun t => with_phase t p) i ts !! j
  = if decide (i = j) then (fun t => with_phase t p) <$> ts !! j else ts !! j.
Proof. rewrite list_lookup_alter. by case_decide; subst. Qed.

Lemma kept_refl (ts : list Timer) : Sched.kept ts ts.
Proof. intros id t H. eauto. Qed.

Lemma kept_trans (ts1 ts2 ts3 : list Timer) :
  Sched.kept ts1 ts2 → Sched.kept ts2 ts3 → Sched.kept ts1 ts3.
Proof.
  intros H12 H23 id t H. destruct (H12 id t H) as (t2 & H2 & E2).
  destruct (H23 id t2 H2) as (t3 & H3 & E3). exists t3. split; [done|].
  congruence.
Qed.

Lemma kept_cancel (ts : list Timer) (i : nat) : Sched.kept ts (cancel_timer ts i).
Proof.
  intros id t H. rewrite lookup_cancel_timer. case_decide; subst.
  - rewrite H. cbn. eauto.
  - eauto.
Qed.

Lemma kept_phase (ts : list Timer) (i : nat) (p : Phase) :
  Sched.kept ts (alter (fun t => with_phase t p) i ts).
Proof.
  intros id t H. rewrite lookup_alter_phase. case_decide; subst.
  - rewrite H. cbn. eauto.
  - eauto.
Qed.

Lemma kept_app (ts ts' : list Timer) : Sched.kept ts (ts ++ ts').
Proof.
  intros id t H. exists t. split; [|done].
  by apply lookup_app_l_Some.
Qed.

Lemma kept_cancel_option_app (ts : list Timer) (o : option nat) (new : Timer) :
  Sched.kept ts (match o with Some id => cancel_timer ts id | None => ts end ++ [new]).
Proof.
  eapply kept_trans; [|apply kept_app].
  destruct o; [apply kept_cancel | apply kept_refl].
Qed.

Lemma kept_fold_cancel (ids : list (string * nat)) (ts : list Timer) :
  Sched.kept ts (List.fold_left (fun ts kv => cancel_timer ts (snd kv)) ids ts).
Proof.
  revert ts. induction ids as [|kv ids IH]; intros ts; [apply kept_refl|].
  cbn. eapply kept_trans; [apply kept_cancel | apply IH].
Qed.

Lemma length_cancel_option (ts : list Timer) (o : option nat) :
  length (match o with Some id => cancel_timer ts id | None => ts end)
  = length ts.
Proof. destruct o; [apply length_cancel_timer | done]. Qed.

(** The maps stay well formed when timers are kept, entries are removed, and
    a new entry points to a timer of its kind. *)
Lemma well_formed_kept (w w' : World) :
  Sched.well_formed w →
  Sched.kept (timers w) (timers w') →
  (∀ k id, commit_timers w' !! k = Some id →
           commit_timers w !! k = Some id
           ∨ ∃ t, timers w' !! id = Some t ∧ t_callback t = CommitCb k) →
  (∀ id, fetch_timer w' = Some id →
         fetch_timer w = Some id
         ∨ ∃ t, timers w' !! id = Some t ∧ t_callback t = FetchCb) →
  Sched.well_formed w'.
Proof.
  intros [Hc Hf] Hk Hc' Hf'. split.
  - intros k id H. destruct (Hc' k id H) as [Hold|Hnew]; [|done].
    destruct (Hc k id Hold) as (t & Ht & Hcb).
    destruct (Hk id t Ht) as (t' & Ht' & Hcb'). exists t'. split; congruence.
  - intros id H. destruct (Hf' id H) as [Hold|Hnew]; [|done].
    destruct (Hf id Hold) as (t & Ht & Hcb).
    destruct (Hk id t Ht) as (t' & Ht' & Hcb'). exists t'. split; congruence.
Qed.

Lemma dispatch_eq (E : Env) (kind : EventKind) (event : FileSystemEvent)
  (w : World) :
  dispatch E kind event w
  = match Sched.event_path kind event with
    | Some p => handle_file_change E p "" w
    | None => (Ok tt, w)
    end.
Proof.
  unfold Sched.event_path, dispatch, on_modified, on_created, on_deleted,
    on_moved.
  destruct kind, (is_directory event); try reflexivity.
  by destruct (dest_path event).
Qed.

(** The worlds an event can lead to: nothing changes but the cache of the
    ignore manager, and the event is accepted for no directory; or a commit
    is scheduled for the directory of the file, and the event is accepted for
    that directory only. *)
Lemma event_cases (E : Env) (kind : EventKind) (event : FileSystemEvent)
  (w : World) :
  (∃ im, exec (dispatch E kind event) w = set_ignore_manager w im
         ∧ ∀ k, Sched.accepted_for E k w (AEvent kind event) = None)
  ∨ (∃ p im target_dir,
       exec (dispatch E kind event) w
       = snd (schedule_commit E (path_str target_dir) (resolve (fs E) p)
                (set_ignore_manager w im))
       ∧ ∀ k, Sched.accepted_for E k w (AEvent kind event)
              = if String.eqb (path_str target_dir) k
                then Some (path_str (resolve (fs E) p)) else None).
Proof.
  unfold exec, Sched.accepted_for. rewrite dispatch_eq.
  destruct (Sched.event_path kind event) as [p|] eqn:Hp.
  2:{ left. exists (ignore_manager w). by destruct w. }
  rewrite handle_file_change_eq. cbn zeta.
  destruct (should_ignore (fs E) (ignore_manager w) p) as [[] im] eqn:Hs;
    cbn [fst snd].
  { left. by exists im. }
  destruct (target_of E (set_ignore_manager w im) (resolve (fs E) p))
    as [td|] eqn:Ht.
  - right. by exists p, im, td.
  - left. by exists im.
Qed.

Lemma stop_world (w : World) :
  exec stop w
  = set_timers
      (set_commit_timers w ∅)
      (match fetch_timer w with
       | Some id =>
           cancel_timer
             (List.fold_left (fun ts kv => cancel_timer ts (snd kv))
                             (map_to_list (commit_timers w)) (timers w)) id
       | None =>
           List.fold_left (fun ts kv => cancel_timer ts (snd kv))
                          (map_to_list (commit_timers w)) (timers w)
       end).
Proof.
  unfold exec, stop, bind, cancel. cbn [fst snd]. unfold_world.
  by destruct (fetch_timer w).
Qed.

Lemma well_formed_step (E : Env) (a : Action) (w w' : World) :
  Sched.well_formed w → step E a w = Some w' → Sched.well_formed w'.
Proof.
  intros Hwf Hstep. destruct a as [|kind event|id|id|id|id|]; cbn [step] in Hstep.
  - injection Hstep as <-.
    apply (well_formed_kept w); [done | apply kept_refl | by left.. ].
  - injection Hstep as <-.
    destruct (event_cases E kind event w)
      as [(im & -> & _)|(p & im & td & -> & _)].
    + apply (well_formed_kept w); [done | apply kept_refl | by left.. ].
    + rewrite schedule_commit_eq. cbn [snd].
      apply (well_formed_kept w); unfold_world;
        [done | apply kept_cancel_option_app | | by left].
      intros k id'. rewrite lookup_insert. case_decide as Hk.
      * intros [= <-]. right. subst k. eexists. split.
        -- rewrite lookup_app_r by (rewrite length_cancel_option; lia).
           by rewrite length_cancel_option, Nat.sub_diag.
        -- reflexivity.
      * by left.
  - destruct (timers w !! id) as [t|]; [|done].
    destruct (t_phase t); try done.
    destruct (negb _ && _); [|done]. injection Hstep as <-.
    apply (well_formed_kept w); unfold_world;
      [done | apply kept_phase | by left.. ].
  - destruct (timers w !! id) as [t|]; [|done].
    destruct (t_phase t); try done.
    destruct (t_callback t) as [k|]; [|done].
    unfold execute_delayed_commit_locked in Hstep.
    destruct (pending_commits w !! k); injection Hstep as <-.
    + apply (well_formed_kept w); unfold_world;
        [done | apply kept_phase | | by left].
      intros k' id' [_ H]%lookup_delete_Some. by left.
    + apply (well_formed_kept w); unfold_world;
        [done | apply kept_phase | by left.. ].
  - destruct (timers w !! id) as [t|]; [|done].
    destruct (t_phase t) as [| |cf|]; try done.
    destruct (t_callback t) as [k|]; [|done].
    injection Hstep as <-. unfold exec.
    match goal with
    | |- context [execute_delayed_commit_unlocked E k cf ?w1] =>
        destruct (effect_only_unlocked E k cf w1) as (es & ->)
    end.
    apply (well_formed_kept w); unfold_world;
      [done | apply kept_phase | by left.. ].
  - destruct (timers w !! id) as [t|]; [|done].
    destruct (t_phase t); try done.
    destruct (t_callback t) as [k|]; [done|].
    injection Hstep as <-.
    destruct (periodic_fetch_world E w) as (es & [-> | ->]).
    + apply (well_formed_kept w); unfold_world;
        [done | apply kept_phase | by left.. ].
    + apply (well_formed_kept w); unfold_world;
        [done | | by left | ].
      * eapply kept_trans; [apply kept_cancel_option_app | apply kept_phase].
      * intros id' [= <-]. right.
        rewrite lookup_alter_phase.
        rewrite lookup_app_r by (rewrite length_cancel_option; lia).
        rewrite length_cancel_option, Nat.sub_diag. cbn.
        case_decide; eexists; (split; [reflexivity|]); reflexivity.
  - injection Hstep as <-. rewrite stop_world.
    apply (well_formed_kept w); unfold_world; [done | | | ].
    + destruct (fetch_timer w).
      * eapply kept_trans; [apply kept_fold_cancel | apply kept_cancel].
      * apply kept_fold_cancel.
    + intros k id H. by rewrite lookup_empty in H.
    + by left.
Qed.

Lemma well_formed_run (E : Env) (tr : list Action) (w w' : World) :
  Sched.well_formed w → run E tr w = Some w' → Sched.well_formed w'.
Proof.
  revert w. induction tr as [|a tr IH]; intros w Hwf Hrun; cbn in Hrun.
  - by injection Hrun as <-.
  - destruct (step E a w) as [w1|] eqn:Hs; [|done].
    eapply IH; [|exact Hrun]. by eapply well_formed_step.
Qed.

(** ** One burst of events for one directory *)

Section BurstProof.
  Context (E : Env) (k : string).

Lemma dead_cancelled (t : Timer) :
    Sched.dead t = true → Sched.dead (cancelled t) = true.
  Proof. unfold Sched.dead. cbn. by destruct (t_phase t). Qed.

Lemma foreign_refl (ts : list Timer) : Sched.foreign k ts ts.
  Proof. by intros id t _. Qed.

Lemma foreign_trans (ts1 ts2 ts3 : list Timer) :
    Sched.foreign k ts1 ts2 → Sched.foreign k ts2 ts3 →
    Sched.foreign k ts1 ts3.
  Proof. intros H12 H23 id t Hcb. by rewrite (H12 id t Hcb), (H23 id t Hcb). Qed.

Lemma foreign_alter (f : Timer → Timer) (ts : list Timer) (i : nat) :
    (∀ t, t_callback (f t) = t_callback t) →
    (∀ t0, ts !! i = Some t0 → t_callback t0 ≠ CommitCb k) →
    Sched.foreign k ts (alter f i ts).
  Proof.
    intros Hf Hi id t Hcb. rewrite list_lookup_alter. case_decide; [subst|done].
    destruct (ts !! id) as [t0|] eqn:H0; cbn; [|done].
    specialize (Hi t0 eq_refl). split; intros [= <-]; [done|].
    by rewrite Hf in Hcb.
  Qed.

Lemma foreign_cancel (ts : list Timer) (i : nat) :
    (∀ t0, ts !! i = Some t0 → t_callback t0 ≠ CommitCb k) →
    Sched.foreign k ts (cancel_timer ts i).
  Proof. apply foreign_alter. done. Qed.

Lemma foreign_phase (ts : list Timer) (i : nat) (p : Phase) :
    (∀ t0, ts !! i = Some t0 → t_callback t0 ≠ CommitCb k) →
    Sched.foreign k ts (alter (fun t => with_phase t p) i ts).
  Proof. apply foreign_alter. done. Qed.

Lemma foreign_new (ts : list Timer) (new : Timer) :
    t_callback new ≠ CommitCb k → Sched.foreign k ts (ts ++ [new]).
  Proof.
    intros Hnew id t Hcb. split.
    - apply lookup_app_l_Some.
    - intros [H|[Hl H]]%lookup_app_Some; [done|].
      apply list_lookup_singleton_Some in H as [_ <-]. done.
  Qed.

Lemma foreign_cancel_option_new (ts : list Timer) (o : option nat)
    (new : Timer) :
    (∀ i t0, o = Some i → ts !! i = Some t0 → t_callback t0 ≠ CommitCb k) →
    t_callback new ≠ CommitCb k →
    Sched.foreign k ts
      (match o with Some id => cancel_timer ts id | None => ts end ++ [new]).
  Proof.
    intros Ho Hnew. eapply foreign_trans; [|by apply foreign_new].
    destruct o as [i|]; [|apply foreign_refl].
    apply foreign_cancel. intros t0. by apply Ho.
  Qed.

Lemma idle_foreign (w w' : World) :
    Sched.foreign k (timers w) (timers w') →
    pending_commits w' !! k = pending_commits w !! k →
    Sched.idle k w → Sched.idle k w'.
  Proof.
    intros Hf Hp [H1 H2]. split; [congruence|].
    intros id t Ht Hcb. apply (H2 id); [|done]. by apply (Hf id t Hcb).
  Qed.

Lemma others_dead_foreign (id : nat) (w w' : World) :
    Sched.foreign k (timers w) (timers w') →
    Sched.others_dead k id w → Sched.others_dead k id w'.
  Proof.
    intros Hf H id' t' Hne Ht Hcb. apply (H id'); [done| |done].
    by apply (Hf id' t' Hcb).
  Qed.

Lemma armed_foreign (b : Sched.Burst) (w w' : World) :
    Sched.foreign k (timers w) (timers w') →
    pending_commits w' !! k = pending_commits w !! k →
    commit_timers w' !! k = commit_timers w !! k →
    now w ≤ now w' →
    Sched.armed E k b w → Sched.armed E k b w'.
  Proof.
    intros Hf Hp Hc Hn (id & t & H1 & H2 & H3 & H4 & H5 & H6 & H7 & H8 & H9).
    exists id, t. repeat split; try congruence.
    - by apply (Hf id t H3).
    - destruct H6 as [H6|[H6 H6']]; [by left | right; split; [done | lia]].
    - lia.
    - by eapply others_dead_foreign.
  Qed.

Lemma swapped_foreign (b : Sched.Burst) (w w' : World) :
    Sched.foreign k (timers w) (timers w') →
    pending_commits w' !! k = pending_commits w !! k →
    now w ≤ now w' →
    Sched.swapped E k b w → Sched.swapped E k b w'.
  Proof.
    intros Hf Hp Hn (id & t & H1 & H2 & H3 & H4 & H5 & H6).
    exists id, t. repeat split; try congruence.
    - by apply (Hf id t H2).
    - lia.
    - by eapply others_dead_foreign.
  Qed.

  (** A step that leaves the directory alone keeps its state. *)
Lemma invariant_foreign (before : list Attempt) (ob : option Sched.Burst)
    (w w' : World) :
    Sched.foreign k (timers w) (timers w') →
    pending_commits w' !! k = pending_commits w !! k →
    commit_timers w' !! k = commit_timers w !! k →
    now w ≤ now w' →
    Sched.attempts_for k w' = Sched.attempts_for k w →
    Sched.well_formed w' →
    Sched.burst_invariant E k before ob w →
    Sched.burst_invariant E k before ob w'.
  Proof.
    intros Hf Hp Hc Hn Ha Hwf [_ H]. split; [done|].
    destruct ob as [b|].
    - destruct H as [[[H|H] Hb]|(H & Ht & a & Hb & Hca)].
      + left. split; [left; by eapply armed_foreign | congruence].
      + left. split; [right; by eapply swapped_foreign | congruence].
      + right. split; [by eapply idle_foreign|]. split; [lia|].
        exists a. split; [congruence | done].
    - destruct H as [H Hb]. split; [by eapply idle_foreign | congruence].
  Qed.

End BurstProof.

Section BurstSteps.
  Context (E : Env) (k : string).

Let delay := commit_delay (config E).

Lemma dead_not_alive (t : Timer) :
    Sched.dead t = true →
    (t_phase t = Waiting → t_finished t = true)
    ∧ t_phase t ≠ Fired ∧ (∀ cf, t_phase t ≠ Committing cf).
  Proof. unfold Sched.dead. destruct (t_phase t); naive_solver. Qed.

  (** The timers of the directory that a step may act upon. *)
Lemma invariant_alive (before : list Attempt) (ob : option Sched.Burst)
    (w : World) (id : nat) (t : Timer) :
    Sched.burst_invariant E k before ob w →
    timers w !! id = Some t → t_callback t = CommitCb k →
    Sched.dead t = false →
    ∃ b, ob = Some b ∧ Sched.attempts_for k w = before
         ∧ ((Sched.armed E k b w ∧ commit_timers w !! k = Some id
             ∧ (t_phase t = Waiting ∨ t_phase t = Fired ∧ Sched.b_last b + delay ≤ now w)
             ∧ t_deadline t = Sched.b_last b + delay
             ∧ pending_commits w !! k = Some (Sched.b_files b))
            ∨ (Sched.swapped E k b w ∧ t_phase t = Committing (Sched.b_files b)
               ∧ pending_commits w !! k = None
               ∧ Sched.b_last b + delay ≤ now w))
         ∧ Sched.others_dead k id w.
  Proof.
    intros [_ H] Ht Hcb Hd. destruct ob as [b|].
    - destruct H as [[[H|H] Hb]|([_ H] & _)].
      + exists b. split; [done|]. split; [done|].
        pose proof H as (id0 & t0 & H1 & H2 & H3 & H4 & H5 & H6 & H7 & H8 & H9).
        destruct (decide (id = id0)) as [->|Hne].
        * assert (t0 = t) as -> by congruence. split; [|done].
          left. done.
        * rewrite (H9 id t Hne Ht Hcb) in Hd. done.
      + exists b. split; [done|]. split; [done|].
        pose proof H as (id0 & t0 & H1 & H2 & H3 & H4 & H5 & H6).
        destruct (decide (id = id0)) as [->|Hne].
        * assert (t0 = t) as -> by congruence. split; [|done].
          right. done.
        * rewrite (H6 id t Hne Ht Hcb) in Hd. done.
      + rewrite (H id t Ht Hcb) in Hd. done.
    - destruct H as [[_ H] _]. rewrite (H id t Ht Hcb) in Hd. done.
  Qed.

Lemma others_dead_phase (id : nat) (p : Phase) (w : World) (ts : list Timer) :
    timers w = ts →
    ∀ w', timers w' = alter (fun t => with_phase t p) id ts →
          Sched.others_dead k id w → Sched.others_dead k id w'.
  Proof.
    intros <- w' Hw' H id' t' Hne. rewrite Hw', lookup_alter_phase.
    case_decide; [congruence|]. by apply H.
  Qed.

Lemma invariant_tick (before : list Attempt) (ob : option Sched.Burst)
    (w : World) :
    Sched.burst_invariant E k before ob w →
    Sched.burst_invariant E k before ob (set_now w (S (now w))).
  Proof.
    intros H. eapply invariant_foreign; [..|exact H]; unfold_world;
      [apply foreign_refl | done | done | lia | done |].
    eapply (well_formed_step E ATick); [apply H | reflexivity].
  Qed.

Lemma invariant_expire (before : list Attempt) (ob : option Sched.Burst)
    (w w' : World) (id : nat) :
    Sched.burst_invariant E k before ob w →
    step E (AExpire id) w = Some w' →
    Sched.burst_invariant E k before ob w'.
  Proof.
    intros H Hstep.
    pose proof (well_formed_step E _ _ _ (proj1 H) Hstep) as Hwf.
    cbn [step] in Hstep.
    destruct (timers w !! id) as [t|] eqn:Ht; [|done].
    destruct (t_phase t) eqn:Hph; try done.
    destruct (t_finished t) eqn:Hfin; [done|]. cbn [negb andb] in Hstep.
    destruct (t_deadline t <=? now w) eqn:Hdl; [|done].
    apply Nat.leb_le in Hdl. injection Hstep as <-.
    destruct (decide (t_callback t = CommitCb k)) as [Hcb|Hcb].
    - destruct (invariant_alive before ob w id t H Ht Hcb)
        as (b & -> & Hb & [(Ha & Hc & _ & Hd & Hp)|(_ & Hsw & _)] & Ho);
        [by (unfold Sched.dead; rewrite Hph) | | congruence].
      split; [done|]. left. split; [|done]. left.
      exists id, (with_phase t Fired). unfold_world.
      rewrite lookup_alter_phase, decide_True, Ht by done.
      destruct Ha as (_ & _ & _ & _ & _ & _ & _ & _ & _ & Hle & _).
      repeat split; try done.
      + right. split; [done | lia].
      + by eapply others_dead_phase.
    - eapply invariant_foreign; [..|exact H]; unfold_world; try done.
      apply foreign_phase. intros t0. rewrite Ht. by intros [= <-].
  Qed.

Lemma invariant_lock (before : list Attempt) (ob : option Sched.Burst)
    (w w' : World) (id : nat) :
    Sched.burst_invariant E k before ob w →
    step E (ALock id) w = Some w' →
    Sched.burst_invariant E k before ob w'.
  Proof.
    intros H Hstep.
    pose proof (well_formed_step E _ _ _ (proj1 H) Hstep) as Hwf.
    cbn [step] in Hstep.
    destruct (timers w !! id) as [t|] eqn:Ht; [|done].
    destruct (t_phase t) eqn:Hph; try done.
    destruct (t_callback t) as [k'|] eqn:Hcb; [|done].
    unfold execute_delayed_commit_locked in Hstep.
    destruct (decide (k' = k)) as [->|Hk].
    - destruct (invariant_alive before ob w id t H Ht Hcb)
        as (b & -> & Hb & [(Ha & Hc & Hf & Hd & Hp)|(_ & Hsw & _)] & Ho);
        [by (unfold Sched.dead; rewrite Hph) | | congruence].
      rewrite Hp in Hstep. injection Hstep as <-.
      destruct Hf as [Hf|[_ Hf]]; [congruence|].
      split; [done|]. left. split; [|done]. right.
      exists id, (with_phase t (Committing (Sched.b_files b))). unfold_world.
      rewrite lookup_alter_phase, decide_True, Ht by done.
      repeat split; try done.
      + apply lookup_delete_eq.
      + by eapply others_dead_phase.
    - assert (Hfor : ∀ p, Sched.foreign k (timers w)
                (alter (fun t => with_phase t p) id (timers w))).
      { intros p. apply foreign_phase. intros t0. rewrite Ht.
        intros [= <-]. congruence. }
      destruct (pending_commits w !! k') eqn:Hp; injection Hstep as <-.
      + eapply invariant_foreign; [..|exact H]; unfold_world; try done.
        * by rewrite lookup_delete_ne.
        * by rewrite lookup_delete_ne.
      + eapply invariant_foreign; [..|exact H]; unfold_world; done.
  Qed.

Lemma attempts_for_app (w : World) (a : Attempt) :
    List.filter (fun a => String.eqb (a_key a) k) (attempts w ++ [a])
    = Sched.attempts_for k w ++ (if String.eqb (a_key a) k then [a] else []).
  Proof. unfold Sched.attempts_for. by rewrite List.filter_app. Qed.

Lemma invariant_commit (before : list Attempt) (ob : option Sched.Burst)
    (w w' : World) (id : nat) :
    Sched.burst_invariant E k before ob w →
    step E (ACommit id) w = Some w' →
    Sched.burst_invariant E k before ob w'.
  Proof.
    intros H Hstep.
    pose proof (well_formed_step E _ _ _ (proj1 H) Hstep) as Hwf.
    cbn [step] in Hstep.
    destruct (timers w !! id) as [t|] eqn:Ht; [|done].
    destruct (t_phase t) as [| |cf|] eqn:Hph; try done.
    destruct (t_callback t) as [k'|] eqn:Hcb; [|done].
    injection Hstep as <-. revert Hwf. unfold exec.
    match goal with
    | |- context [execute_delayed_commit_unlocked E k' cf ?w1] =>
        destruct (effect_only_unlocked E k' cf w1) as (es & ->)
    end.
    intros Hwf.
    destruct (decide (k' = k)) as [->|Hk].
    - destruct (invariant_alive before ob w id t H Ht Hcb)
        as (b & -> & Hb & [(Ha & Hc & Hf & _)|(Hsw & Hcf & Hp & Hn)] & Ho);
        [by (unfold Sched.dead; rewrite Hph) | | ].
      { destruct Hf as [Hf|[Hf _]]; congruence. }
      assert (cf = Sched.b_files b) as -> by congruence.
      split; [done|]. right. split; [|split].
      + split; unfold_world; [done|].
        intros id' t'. rewrite lookup_alter_phase. case_decide as Hid.
        * subst id'. rewrite Ht. by intros [= <-].
        * intros Ht' Hcb'. by apply (Ho id' t').
      + by unfold_world.
      + eexists. unfold Sched.attempts_for at 1. unfold_world.
        rewrite attempts_for_app. cbn [a_key]. rewrite String.eqb_refl, Hb.
        split; [reflexivity|]. by repeat split.
    - eapply invariant_foreign; [..|exact H]; unfold_world; try done.
      + apply foreign_phase. intros t0. rewrite Ht. intros [= <-]. congruence.
      + unfold Sched.attempts_for at 1. unfold_world.
        rewrite attempts_for_app. cbn [a_key].
        apply String.eqb_neq in Hk. by rewrite Hk, app_nil_r.
  Qed.

Lemma invariant_fetch (before : list Attempt) (ob : option Sched.Burst)
    (w w' : World) (id : nat) :
    Sched.burst_invariant E k before ob w →
    step E (AFetch id) w = Some w' →
    Sched.burst_invariant E k before ob w'.
  Proof.
    intros H Hstep.
    pose proof (well_formed_step E _ _ _ (proj1 H) Hstep) as Hwf.
    cbn [step] in Hstep.
    destruct (timers w !! id) as [t|] eqn:Ht; [|done].
    destruct (t_phase t) eqn:Hph; try done.
    destruct (t_callback t) as [k'|] eqn:Hcb; [done|].
    injection Hstep as <-. revert Hwf.
    destruct (periodic_fetch_world E w) as (es & [-> | ->]); intros Hwf.
    - eapply invariant_foreign; [..|exact H]; unfold_world; try done.
      apply foreign_phase. intros t0. rewrite Ht. intros [= <-]. congruence.
    - eapply invariant_foreign; [..|exact H]; unfold_world; try done.
      eapply foreign_trans; cycle 1.
      + apply foreign_phase. intros t0 Ht0 Hcb0.
        destruct (decide (id < length (timers w))) as [Hlt|Hge].
        * rewrite lookup_app_l in Ht0 by (by rewrite length_cancel_option).
          destruct (fetch_timer w) as [i|].
          -- rewrite lookup_cancel_timer in Ht0.
             case_decide; rewrite Ht in Ht0; cbn in Ht0;
               injection Ht0 as <-; cbn in Hcb0; congruence.
          -- congruence.
        * apply lookup_lt_Some in Ht. lia.
      + apply foreign_cancel_option_new; [|done].
        intros i t0 Hi Ht0. destruct H as [[_ Hf] _].
        destruct (Hf i Hi) as (t1 & Ht1 & Hcb1). congruence.
  Qed.

End BurstSteps.

Section BurstEvents.
  Context (E : Env) (k : string).

  (** An accepted event arms the timer of the directory anew, provided every
      timer of the directory still alive is the waiting one of the map. *)
Lemma armed_after_event (w : World) (file_path : Path) :
    (∀ id t, timers w !! id = Some t → t_callback t = CommitCb k →
             Sched.dead t = true
             ∨ (commit_timers w !! k = Some id ∧ t_phase t = Waiting)) →
    Sched.armed E k
      {| Sched.b_last := now w;
         Sched.b_files := Aux.pending_for w k ∪ {[path_str file_path]} |}
      (snd (schedule_commit E k file_path w)).
  Proof.
    intros Hts. rewrite schedule_commit_eq. cbn [snd].
    eexists (length (timers w)), _. unfold_world.
    split; [apply lookup_insert_eq|]. split.
    { rewrite lookup_app_r by (rewrite length_cancel_option; lia).
      by rewrite length_cancel_option, Nat.sub_diag. }
    cbn. split; [done|]. split; [done|]. split; [done|].
    split; [by left|]. split; [apply lookup_insert_eq|]. split; [done|].
    intros id' t' Hne [Hold|[Hl Hnew]]%lookup_app_Some Hcb.
    2:{ apply lookup_lt_Some in Hnew. cbn in Hnew.
        rewrite length_cancel_option in Hl, Hnew. lia. }
    destruct (commit_timers w !! k) as [i|] eqn:Hi.
    - rewrite lookup_cancel_timer in Hold. case_decide as Hid.
      + subst i. destruct (timers w !! id') as [t0|] eqn:Ht0; [|done].
        injection Hold as <-. cbn in Hcb.
        destruct (Hts id' t0 Ht0 Hcb) as [Hd|[_ Hw]].
        * by apply dead_cancelled.
        * unfold Sched.dead. cbn. by rewrite Hw.
      + destruct (Hts id' t' Hold Hcb) as [Hd|[Hc _]]; [done | congruence].
    - destruct (Hts id' t' Hold Hcb) as [Hd|[Hc _]]; [done | congruence].
  Qed.

Lemma invariant_event (before : list Attempt) (ob ob' : option Sched.Burst)
    (w : World) (kind : EventKind) (event : FileSystemEvent) :
    Sched.burst_invariant E k before ob w →
    Sched.track E k (AEvent kind event) w ob = Some ob' →
    Sched.burst_invariant E k before ob' (exec (dispatch E kind event) w).
  Proof.
    intros H Htr.
    pose proof (well_formed_step E (AEvent kind event) w _ (proj1 H) eq_refl)
      as Hwf.
    cbn [Sched.track] in Htr.
    destruct (event_cases E kind event w)
      as [(im & Hw & Hacc)|(p & im & td & Hw & Hacc)];
      rewrite Hw in *; rewrite (Hacc k) in Htr; clear Hw Hacc.
    { injection Htr as <-.
      eapply invariant_foreign; [..|exact H]; unfold_world; done. }
    destruct (String.eqb (path_str td) k) eqn:Hk.
    - apply String.eqb_eq in Hk. rewrite Hk in *. clear Hk.
      split; [done|].
      assert (Hsame : ∀ b, Sched.armed E k b (set_ignore_manager w im)
                           ↔ Sched.armed E k b w) by done.
      destruct H as [_ H]. destruct ob as [b0|].
      + destruct (now w <? Sched.b_last b0 + commit_delay (config E)) eqn:Hlt;
          [|done].
        apply Nat.ltb_lt in Hlt. injection Htr as <-.
        destruct H as [[[H|H] Hb]|(_ & Hn & _)]; [| |lia].
        2:{ destruct H as (? & ? & _ & _ & _ & _ & Hn & _). lia. }
        left. split; [left|done].
        pose proof H as (id & t & H1 & H2 & H3 & H4 & H5 & H6 & H7 & H8 & H9).
        replace (Sched.b_files b0)
          with (Aux.pending_for (set_ignore_manager w im) k)
          by (unfold Aux.pending_for; unfold_world; by rewrite H7).
        apply (armed_after_event (set_ignore_manager w im)).
        unfold_world. intros id' t' Ht' Hcb'.
        destruct (decide (id' = id)) as [->|Hne].
        * right. split; [done|]. assert (t' = t) as -> by congruence.
          destruct H6 as [H6|[_ H6]]; [done | lia].
        * left. by apply (H9 id' t').
      + injection Htr as <-. destruct H as [[Hp Hd] Hb].
        left. split; [left|done].
        replace (∅ : gset string)
          with (Aux.pending_for (set_ignore_manager w im) k)
          by (unfold Aux.pending_for; unfold_world; by rewrite Hp).
        apply (armed_after_event (set_ignore_manager w im)).
        unfold_world. intros id' t' Ht' Hcb'. left. by apply (Hd id' t').
    - injection Htr as <-. apply String.eqb_neq in Hk.
      revert Hwf. rewrite schedule_commit_eq. cbn [snd]. intros Hwf.
      eapply invariant_foreign; [..|exact H]; unfold_world; try done.
      + apply foreign_cancel_option_new.
        * intros i t0 Hi Ht0. destruct H as [[Hf _] _].
          destruct (Hf _ _ Hi) as (t1 & Ht1 & Hcb1). congruence.
        * cbn. congruence.
      + by rewrite lookup_insert_ne.
      + by rewrite lookup_insert_ne.
  Qed.

  (** Every step that the observer of the directory lets pass keeps the
      invariant of the burst. *)
Lemma invariant_step (before : list Attempt) (ob ob' : option Sched.Burst)
    (a : Action) (w w' : World) :
    Sched.burst_invariant E k before ob w →
    step E a w = Some w' →
    Sched.track E k a w ob = Some ob' →
    Sched.burst_invariant E k before ob' w'.
  Proof.
    intros H Hstep Htr. destruct a as [|kind event|id|id|id|id|].
    - injection Htr as <-. injection Hstep as <-. by apply invariant_tick.
    - injection Hstep as <-. by eapply invariant_event.
    - injection Htr as <-. by eapply invariant_expire.
    - injection Htr as <-. by eapply invariant_lock.
    - injection Htr as <-. by eapply invariant_commit.
    - injection Htr as <-. by eapply invariant_fetch.
    - done.
  Qed.

Lemma invariant_run (before : list Attempt) (tr : list Action) :
    ∀ (ob ob' : option Sched.Burst) (w w' : World),
      Sched.burst_invariant E k before ob w →
      run E tr w = Some w' →
      Sched.within_window E k tr w ob = Some ob' →
      Sched.burst_invariant E k before ob' w'.
  Proof.
    induction tr as [|a tr IH]; intros ob ob' w w' H Hrun Hwin;
      cbn in Hrun, Hwin.
    - injection Hrun as <-. by injection Hwin as <-.
    - destruct (step E a w) as [w1|] eqn:Hs; [|done].
      destruct (Sched.track E k a w ob) as [ob1|] eqn:Ht; [|done].
      eapply IH; [|exact Hrun|exact Hwin]. by eapply invariant_step.
  Qed.

End BurstEvents.

(** ** From the last event of a burst to its commit *)

Lemma run_app (E : Env) (tr1 tr2 : list Action) (w : World) :
  run E (tr1 ++ tr2) w
  = match run E tr1 w with Some w1 => run E tr2 w1 | None => None end.
Proof.
  revert w. induction tr1 as [|a tr1 IH]; intros w; cbn; [done|].
  destruct (step E a w); [apply IH | done].
Qed.

Lemma run_ticks (E : Env) (n : nat) (w : World) :
  run E (repeat ATick n) w = Some (set_now w (now w + n)).
Proof.
  revert w. induction n as [|n IH]; intros w; cbn.
  - rewrite Nat.add_0_r. by destruct w.
  - rewrite IH. unfold_world. do 2 f_equal. lia.
Qed.

Lemma internal_ticks (n : nat) :
  forallb Sched.internal (repeat ATick n) = true.
Proof. induction n; [done | by cbn]. Qed.

(** The observer of a directory lets every internal action pass. *)
Lemma within_window_internal (E : Env) (k : string) (tr : list Action) :
  forallb Sched.internal tr = true →
  ∀ (w w' : World) (ob : option Sched.Burst),
    run E tr w = Some w' → Sched.within_window E k tr w ob = Some ob.
Proof.
  induction tr as [|a tr IH]; intros Hi w w' ob Hrun; cbn in *; [done|].
  apply andb_true_iff in Hi as [Ha Hi].
  destruct (step E a w) as [w1|]; [|done].
  replace (Sched.track E k a w ob) with (Some ob) by (by destruct a).
  by eapply IH.
Qed.

Section BurstEnd.
  Context (E : Env) (k : string).

Lemma armed_not_idle (b : Sched.Burst) (w : World) :
    Sched.armed E k b w → ¬ Sched.idle k w.
  Proof.
    intros (id & t & _ & _ & _ & _ & _ & _ & Hp & _) [Hn _]. congruence.
  Qed.

Lemma swapped_not_idle (b : Sched.Burst) (w : World) :
    Sched.swapped E k b w → ¬ Sched.idle k w.
  Proof.
    intros (id & t & Ht & Hcb & Hph & _) [_ Hd].
    specialize (Hd id t Ht Hcb). unfold Sched.dead in Hd.
    by rewrite Hph in Hd.
  Qed.

  (** Once the directory is at rest after a burst, its one commit has been
      made. *)
Lemma invariant_at_rest (before : list Attempt) (b : Sched.Burst)
    (w : World) :
    Sched.burst_invariant E k before (Some b) w → Sched.idle k w →
    ∃ a, Sched.attempts_for k w = before ++ [a] ∧ Sched.commit_of E k b a.
  Proof.
    intros [_ [[[H|H] _]|(_ & _ & H)]] Hi; [| |done].
    - by destruct (armed_not_idle b w).
    - by destruct (swapped_not_idle b w).
  Qed.

Lemma commit_completes (before : list Attempt) (b : Sched.Burst)
    (w : World) (id : nat) (t : Timer) (cf : gset string) :
    Sched.burst_invariant E k before (Some b) w →
    timers w !! id = Some t → t_callback t = CommitCb k →
    t_phase t = Committing cf →
    ∃ w', step E (ACommit id) w = Some w' ∧ Sched.idle k w'.
  Proof.
    intros H Ht Hcb Hph.
    destruct (invariant_alive E k before (Some b) w id t H Ht Hcb)
      as (b' & _ & _ & [(_ & _ & Hf & _)|(_ & _ & Hp & _)] & Ho);
      [by (unfold Sched.dead; rewrite Hph) | | ].
    { destruct Hf as [Hf|[Hf _]]; congruence. }
    cbn [step]. rewrite Ht, Hph, Hcb. eexists. split; [reflexivity|].
    unfold exec.
    match goal with
    | |- context [execute_delayed_commit_unlocked E k cf ?w1] =>
        destruct (effect_only_unlocked E k cf w1) as (es & ->)
    end.
    split; unfold_world; [done|].
    intros id' t'. rewrite lookup_alter_phase. case_decide as Hid.
    - subst id'. rewrite Ht. by intros [= <-].
    - intros Ht' Hcb'. by apply (Ho id' t').
  Qed.

Lemma lock_continues (before : list Attempt) (b : Sched.Burst)
    (w : World) (id : nat) (t : Timer) :
    Sched.burst_invariant E k before (Some b) w →
    timers w !! id = Some t → t_callback t = CommitCb k →
    t_phase t = Fired →
    ∃ w' t', step E (ALock id) w = Some w'
             ∧ timers w' !! id = Some t' ∧ t_callback t' = CommitCb k
             ∧ t_phase t' = Committing (Sched.b_files b).
  Proof.
    intros H Ht Hcb Hph.
    destruct (invariant_alive E k before (Some b) w id t H Ht Hcb)
      as (b' & [= <-] & _ & [(_ & _ & _ & _ & Hp)|(_ & Hsw & _)] & _);
      [by (unfold Sched.dead; rewrite Hph) | | congruence].
    cbn [step]. rewrite Ht, Hph, Hcb.
    unfold execute_delayed_commit_locked. rewrite Hp.
    eexists _, _. split; [reflexivity|]. unfold_world.
    rewrite lookup_alter_phase, decide_True, Ht by done. done.
  Qed.

Lemma expire_continues (w : World) (id : nat) (t : Timer) :
    timers w !! id = Some t → t_phase t = Waiting → t_finished t = false →
    t_deadline t ≤ now w →
    step E (AExpire id) w = Some (set_phase id Fired w).
  Proof.
    intros Ht Hph Hfin Hdl. cbn [step]. rewrite Ht, Hph, Hfin.
    apply Nat.leb_le in Hdl. by rewrite Hdl.
  Qed.

  (** The callback of a fired timer runs to its commit. *)
Lemma fired_completes (before : list Attempt) (b : Sched.Burst)
    (w : World) (id : nat) (t : Timer) :
    Sched.burst_invariant E k before (Some b) w →
    timers w !! id = Some t → t_callback t = CommitCb k →
    t_phase t = Fired →
    ∃ w', run E [ALock id; ACommit id] w = Some w' ∧ Sched.idle k w'.
  Proof.
    intros H Ht Hcb Hph.
    destruct (lock_continues before b w id t H Ht Hcb Hph)
      as (w1 & t1 & Hs1 & Ht1 & Hcb1 & Hph1).
    pose proof (invariant_lock E k before (Some b) w w1 id H Hs1) as H1.
    destruct (commit_completes before b w1 id t1 _ H1 Ht1 Hcb1 Hph1)
      as (w2 & Hs2 & Hi).
    exists w2. cbn [run]. by rewrite Hs1, Hs2.
  Qed.

  (** From every state of a burst the directory can come to rest by actions
      of the timers alone. *)
Lemma burst_completes (before : list Attempt) (b : Sched.Burst)
    (w : World) :
    Sched.burst_invariant E k before (Some b) w →
    ∃ tr w', forallb Sched.internal tr = true
             ∧ run E tr w = Some w' ∧ Sched.idle k w'.
  Proof.
    intros H. pose proof H as [_ [[[Ha|Hs] _]|(Hi & _)]].
    - destruct Ha as (id & t & _ & Ht & Hcb & Hdl & Hfin & Hph & _).
      destruct Hph as [Hph|[Hph _]].
      + set (n := t_deadline t - now w).
        pose proof (run_ticks E n w) as Hr0.
        pose proof (invariant_run E k before (repeat ATick n) _ _ _ _ H Hr0
                      (within_window_internal E k _ (internal_ticks n)
                         _ _ _ Hr0)) as H0.
        assert (Hs1 : step E (AExpire id) (set_now w (now w + n))
                      = Some (set_phase id Fired (set_now w (now w + n)))).
        { apply (expire_continues _ id t); unfold_world; try done. lia. }
        pose proof (invariant_expire E k before _ _ _ id H0 Hs1) as H1.
        destruct (fired_completes before b _ id (with_phase t Fired) H1)
          as (w' & Hr2 & Hi); [|done|done|].
        { unfold_world. by rewrite lookup_alter_phase, decide_True, Ht. }
        exists (repeat ATick n ++ [AExpire id; ALock id; ACommit id]), w'.
        split; [|split; [|done]].
        * by rewrite forallb_app, internal_ticks.
        * rewrite run_app, Hr0. cbn [run] in *. by rewrite Hs1.
      + destruct (fired_completes before b w id t H Ht Hcb Hph)
          as (w' & Hr & Hi).
        by exists [ALock id; ACommit id], w'.
    - destruct Hs as (id & t & Ht & Hcb & Hph & _).
      destruct (commit_completes before b w id t _ H Ht Hcb Hph)
        as (w' & Hs & Hi).
      exists [ACommit id], w'. cbn [run forallb Sched.internal andb].
      by rewrite Hs.
    - by exists [], w.
  Qed.

End BurstEnd.

Lemma fresh_well_formed (im : IgnoreManager) (subs : list Path) :
  Sched.well_formed (set_submodules (fresh im) subs).
Proof.
  split; unfold fresh; unfold_world.
  - intros k id H. by rewrite lookup_empty in H.
  - done.
Qed.

Lemma fresh_idle (im : IgnoreManager) (subs : list Path) (k : string) :
  Sched.idle k (set_submodules (fresh im) subs).
Proof.
  split; unfold fresh; unfold_world.
  - apply lookup_empty.
  - intros id t H. by rewrite lookup_nil in H.
Qed.

(** C1.  The debounce is lost when the callback of the timer of a directory
    has been called and waits for [timer_lock] while a further change in
    that directory is handled: the handler cancels the timer it has recorded,
    but [cancel] has no effect on a timer whose callback has been called,
    and the callback, which knows the directory and not its timer, commits
    all that is pending.  Here the delay is 3; timer 0, armed at time 0,
    expires at time 3; the change to [/w/b.txt] is handled at time 3 and arms
    timer 1; the callback of timer 0 then commits at time 3, not 3 seconds
    after that last event.  It also deletes the entry that records timer 1,
    which is left waiting, not cancelled, with nothing pending. *)
Lemma fired_callback_commits_early :
  ∃ w1 w b a,
    run (Example.env false Example.clean_git) Example.expiry Example.armed
    = Some w1
    ∧ Sched.well_formed w1
    ∧ run (Example.env false Example.clean_git) Example.overlap w1 = Some w
    ∧ Sched.within_window (Example.env false Example.clean_git) "/w"
Example.overlap w1 None = Some (Some b)
    ∧ Sched.attempts_for "/w" w = Sched.attempts_for "/w" w1 ++ [a]
    ∧ Sched.b_last b = 3 ∧ a_time a = 3 ∧ a_timer a = 0
    ∧ ¬ Sched.commit_of (Example.env false Example.clean_git) "/w" b a
    ∧ commit_timers w !! "/w" = None
    ∧ pending_commits w !! "/w" = None
    ∧ timers w !! 1
      = Some {| t_deadline := 6; t_callback := CommitCb "/w";
                t_finished := false; t_phase := Waiting |}.
Proof.
  eexists _, _, _, _. split; [vm_compute; reflexivity|]. split.
  { eapply (well_formed_run (Example.env false Example.clean_git)
              (AEvent Modified (Example.file_event "/w/a.txt")
               :: Example.expiry) Example.world);
      [apply fresh_well_formed | vm_compute; reflexivity]. }
  split; [vm_compute; reflexivity|]. split; [vm_compute; reflexivity|].
  split; [vm_compute; reflexivity|]. split; [reflexivity|].
  split; [reflexivity|]. split; [reflexivity|].
  split; [intros (_ & H & _); vm_compute in H; lia|].
  split; [vm_compute; reflexivity|]. split; [vm_compute; reflexivity|].
  vm_compute; reflexivity.
Qed.

(** X21. Debounce, from a directory at rest.  Take a directory for which
    nothing is pending and no timer is alive, and any run of the handler
    (ticks of the clock, events, timers expiring, callbacks taking the lock
    and committing, polls of the remotes) in which the handler is not
    stopped and every accepted event for the directory is handled less than
    [commit_delay] after the one before it, the time of an event being the
    moment at which the handler, holding the lock, starts the timer.  Then at
    every point of the run the directory has started no delayed commit, or
    exactly one, not before [commit_delay] has passed since the last
    accepted event, and for the files of all the events; it has exactly one
    as soon as the directory is at rest again, and the timers alone always
    bring it there.  An accepted event cancels the timer that the map holds
    for the directory and arms a new one, due [commit_delay] after the
    event. *)
Theorem debounce_one_commit (E : Env) (k : string) (tr : list Action)
  (w0 w : World) (b : Sched.Burst) :
  Sched.well_formed w0 → Sched.idle k w0 →
  run E tr w0 = Some w →
  Sched.within_window E k tr w0 None = Some (Some b) →
  (Sched.attempts_for k w = Sched.attempts_for k w0
   ∨ ∃ a, Sched.attempts_for k w = Sched.attempts_for k w0 ++ [a]
          ∧ Sched.commit_of E k b a)
  ∧ (Sched.idle k w →
     ∃ a, Sched.attempts_for k w = Sched.attempts_for k w0 ++ [a]
          ∧ Sched.commit_of E k b a)
  ∧ (∃ tr' w' a,
       forallb Sched.internal tr' = true ∧ run E tr' w = Some w'
       ∧ Sched.attempts_for k w' = Sched.attempts_for k w0 ++ [a]
       ∧ Sched.commit_of E k b a)
  ∧ (∀ kind event f,
       Sched.accepted_for E k w (AEvent kind event) = Some f →
       ∃ w', step E (AEvent kind event) w = Some w'
             ∧ timers w'
               = match commit_timers w !! k with
                 | Some id => cancel_timer (timers w) id
                 | None => timers w
                 end ++ [{| t_deadline := now w + commit_delay (config E);
                            t_callback := CommitCb k;
                            t_finished := false; t_phase := Waiting |}]
             ∧ commit_timers w' !! k = Some (length (timers w))
             ∧ pending_commits w' !! k = Some (Aux.pending_for w k ∪ {[f]})).
Proof.
  intros Hwf Hidle Hrun Hwin.
  assert (H0 : Sched.burst_invariant E k (Sched.attempts_for k w0) None w0)
    by done.
  pose proof (invariant_run E k _ tr _ _ _ _ H0 Hrun Hwin) as H.
  split; [|split; [|split]].
  - destruct H as [_ [[_ Hb]|(_ & _ & a & Ha)]]; [by left | right; eauto].
  - intros Hi. by eapply invariant_at_rest.
  - destruct (burst_completes E k _ b w H) as (tr' & w' & Hint & Hr & Hi).
    pose proof (invariant_run E k _ tr' _ _ _ _ H Hr
                  (within_window_internal E k tr' Hint _ _ _ Hr)) as H'.
    destruct (invariant_at_rest E k _ b w' H' Hi) as (a & Ha & Hc).
    by exists tr', w', a.
  - intros kind event f Hacc. eexists. split; [reflexivity|].
    destruct (event_cases E kind event w)
      as [(im & _ & Ha)|(p & im & td & -> & Ha)];
      rewrite (Ha k) in Hacc; [done|].
    destruct (String.eqb (path_str td) k) eqn:Hk; [|done].
    apply String.eqb_eq in Hk. injection Hacc as <-. rewrite Hk.
    rewrite schedule_commit_eq. cbn [snd]. unfold_world.
    split; [done|]. split; apply lookup_insert_eq.
Qed.

Lemma debounce_one_commit_witness :
  ∃ w b,
    Sched.well_formed Example.world ∧ Sched.idle "/w" Example.world
    ∧ run (Example.env false Example.clean_git) Example.burst Example.world
      = Some w
    ∧ Sched.within_window (Example.env false Example.clean_git) "/w"
Example.burst Example.world None = Some (Some b)
    ∧ Sched.b_last b = 1
    ∧ (Sched.idle "/w" w →
       ∃ a, Sched.attempts_for "/w" w
            = Sched.attempts_for "/w" Example.world ++ [a]
            ∧ Sched.commit_of (Example.env false Example.clean_git) "/w" b a).
Proof.
  eexists _, _.
  split; [apply fresh_well_formed|]. split; [apply fresh_idle|].
  split; [vm_compute; reflexivity|]. split; [vm_compute; reflexivity|].
  split; [reflexivity|].
  eapply (debounce_one_commit (Example.env false Example.clean_git) "/w"
Example.burst Example.world);
    [apply fresh_well_formed | apply fresh_idle
    | vm_compute; reflexivity | vm_compute; reflexivity].
Defined.

(** ** The shutdown *)

Lemma lookup_fold_cancel (ids : list (string * nat)) (ts : list Timer)
  (j : nat) :
  List.fold_left (fun ts kv => cancel_timer ts (snd kv)) ids ts !! j
  = if decide (j ∈ ids.*2) then cancelled <$> ts !! j else ts !! j.
Proof.
  revert ts. induction ids as [|[k i] ids IH]; intros ts;
    cbn [List.fold_left snd fmap list_fmap].
  - case_decide as H; [by apply elem_of_nil in H | done].
  - rewrite IH, lookup_cancel_timer.
    destruct (ts !! j) as [t|]; cbn; [|by repeat case_decide].
    repeat case_decide; try done; subst; set_solver.
Qed.

(** What [stop] does to each timer: it cancels those of the two maps and
    leaves the others as they are. *)
Lemma lookup_stop (w : World) (j : nat) :
  (timers (exec stop w) !! j = cancelled <$> timers w !! j
   ∧ ((∃ k, commit_timers w !! k = Some j) ∨ fetch_timer w = Some j))
  ∨ (timers (exec stop w) !! j = timers w !! j
     ∧ (∀ k, commit_timers w !! k ≠ Some j) ∧ fetch_timer w ≠ Some j).
Proof.
  rewrite stop_world. unfold_world.
  assert (Hin : j ∈ (map_to_list (commit_timers w)).*2
                ↔ ∃ k, commit_timers w !! k = Some j).
  { rewrite list_elem_of_fmap. split.
    - intros ([k i] & -> & H%elem_of_map_to_list). by exists k.
    - intros (k & H). exists (k, j). by rewrite elem_of_map_to_list. }
  destruct (fetch_timer w) as [i|].
  - rewrite lookup_cancel_timer, lookup_fold_cancel.
    destruct (timers w !! j) as [t|]; cbn.
    + repeat case_decide; subst; naive_solver.
    + repeat case_decide; subst; naive_solver.
  - rewrite lookup_fold_cancel. case_decide; naive_solver.
Qed.

Section Shutdown.
  Context (E : Env) (w0 : World).

Lemma harmless_cancelled (id : nat) (t : Timer) :
    Sched.harmless w0 id t → Sched.harmless w0 id (cancelled t).
  Proof. unfold Sched.harmless. cbn. destruct (t_phase t); naive_solver. Qed.

Lemma harmless_done (id : nat) (t : Timer) :
    Sched.harmless w0 id (with_phase t Done).
  Proof. done. Qed.

Lemma harmless_cancel_option (ts : list Timer) (o : option nat) :
    (∀ id t, ts !! id = Some t → Sched.harmless w0 id t) →
    ∀ id t, match o with Some i => cancel_timer ts i | None => ts end !! id
            = Some t → Sched.harmless w0 id t.
  Proof.
    intros H id t. destruct o as [i|]; [|apply H].
    rewrite lookup_cancel_timer. case_decide; [|apply H].
    destruct (ts !! id) as [t0|] eqn:Ht0; [|done].
    intros [= <-]. apply harmless_cancelled. by apply H.
  Qed.

  (** Changing the stage of one timer, the others being as they were. *)
Lemma harmless_phase (ts : list Timer) (i : nat) (p : Phase) :
    (∀ id t, ts !! id = Some t → Sched.harmless w0 id t) →
    (∀ t, ts !! i = Some t → Sched.harmless w0 i (with_phase t p)) →
    ∀ id t, alter (fun t => with_phase t p) i ts !! id = Some t →
            Sched.harmless w0 id t.
  Proof.
    intros H Hi id t. rewrite lookup_alter_phase. case_decide; [subst|apply H].
    destruct (ts !! id) as [t0|] eqn:Ht0; [|done].
    intros [= <-]. by apply Hi.
  Qed.

  (** Without events, whatever is handled after the shutdown arms no timer
      for a commit, and starts a commit only from a timer that escaped the
      shutdown. *)
Lemma winding_down_step (a : Action) (w w' : World) :
    Sched.is_event a = false →
    Sched.winding_down w0 w → step E a w = Some w' →
    Sched.winding_down w0 w'.
  Proof.
    intros Ha [Hts Hat] Hstep.
    destruct a as [|kind event|id|id|id|id|]; cbn [step] in Hstep; [|done|..].
    - injection Hstep as <-. by split.
    - destruct (timers w !! id) as [t|] eqn:Ht; [|done].
      destruct (t_phase t) eqn:Hph; try done.
      destruct (t_finished t) eqn:Hfin; [done|]. cbn [negb andb] in Hstep.
      destruct (t_deadline t <=? now w); [|done]. injection Hstep as <-.
      split; unfold_world; [|done].
      apply harmless_phase; [done|]. intros t1. rewrite Ht. intros [= <-].
      specialize (Hts id t Ht). unfold Sched.harmless in *. cbn.
      rewrite Hph in Hts. destruct Hts as [?|[?|?]]; [congruence|by left|by right].
    - destruct (timers w !! id) as [t|] eqn:Ht; [|done].
      destruct (t_phase t) eqn:Hph; try done.
      destruct (t_callback t) as [k|] eqn:Hcb; [|done].
      specialize (Hts id t Ht) as Hid. unfold Sched.harmless in Hid.
      rewrite Hph, Hcb in Hid. destruct Hid as [Hid|Hid]; [done|].
      unfold execute_delayed_commit_locked in Hstep.
      destruct (pending_commits w !! k); injection Hstep as <-;
        (split; unfold_world; [|done]);
        (apply harmless_phase; [done|]); intros t1; rewrite Ht;
        intros [= <-]; unfold Sched.harmless; cbn; [by right | done].
    - destruct (timers w !! id) as [t|] eqn:Ht; [|done].
      destruct (t_phase t) as [| |cf|] eqn:Hph; try done.
      destruct (t_callback t) as [k|] eqn:Hcb; [|done].
      specialize (Hts id t Ht) as Hid. unfold Sched.harmless in Hid.
      rewrite Hph, Hcb in Hid. destruct Hid as [Hid|Hid]; [done|].
      injection Hstep as <-. unfold exec.
      match goal with
      | |- context [execute_delayed_commit_unlocked E k cf ?w1] =>
          destruct (effect_only_unlocked E k cf w1) as (es & ->)
      end.
      split; unfold_world.
      + apply harmless_phase; [done|]. intros t1 _. apply harmless_done.
      + destruct Hat as (new & -> & Hnew). eexists. rewrite <- app_assoc.
        split; [reflexivity|]. apply Forall_app. split; [done|].
        by apply Forall_singleton.
    - destruct (timers w !! id) as [t|] eqn:Ht; [|done].
      destruct (t_phase t) eqn:Hph; try done.
      destruct (t_callback t) as [k|] eqn:Hcb; [done|].
      injection Hstep as <-.
      destruct (periodic_fetch_world E w) as (es & [-> | ->]);
        (split; unfold_world; [|done]).
      + apply harmless_phase; [done|]. intros t1 _. apply harmless_done.
      + apply harmless_phase; [|intros t1 _; apply harmless_done].
        intros id' t' [Hold|[_ Hnew]]%lookup_app_Some.
        * by eapply harmless_cancel_option.
        * apply list_lookup_singleton_Some in Hnew as [_ <-].
          unfold Sched.harmless. cbn. right. by left.
    - injection Hstep as <-. split.
      + intros id t.
        destruct (lookup_stop w id) as [[-> _]|[-> _]]; [|apply Hts].
        destruct (timers w !! id) as [t0|] eqn:Ht0; [|done].
        intros [= <-]. apply harmless_cancelled. by apply Hts.
      + rewrite stop_world. by unfold_world.
  Qed.

Lemma winding_down_run (tr : list Action) :
    Sched.no_event tr = true →
    ∀ w w', Sched.winding_down w0 w → run E tr w = Some w' →
            Sched.winding_down w0 w'.
  Proof.
    induction tr as [|a tr IH]; intros Hne w w' H Hrun; cbn in Hne, Hrun.
    - by injection Hrun as <-.
    - apply andb_true_iff in Hne as [Ha Hne]. apply negb_true_iff in Ha.
      destruct (step E a w) as [w1|] eqn:Hs; [|done].
      eapply IH; [done| |exact Hrun]. by eapply winding_down_step.
  Qed.

End Shutdown.

(** Right after [stop], in whatever world it is called. *)
Lemma winding_down_stop (w : World) :
  Sched.winding_down w (exec stop w).
Proof.
  split.
  - intros id t.
    destruct (lookup_stop w id) as [[-> _]|[-> [Hc Hf]]];
      (destruct (timers w !! id) as [t0|] eqn:Ht0; [|done]); intros [= <-].
    + unfold Sched.harmless, Sched.escapes, Sched.running. cbn.
      destruct (t_phase t0) eqn:Hph; eauto;
        right; exists t0; rewrite Hph; eauto.
    + unfold Sched.harmless, Sched.escapes, Sched.running, Sched.unrecorded.
      destruct (t_phase t0) eqn:Hph; eauto;
        try (right; exists t0; rewrite Hph; by eauto).
      destruct (t_finished t0) eqn:Hfin; [by left|].
      right. right. exists t0. split; [done|]. right.
      rewrite Hph, Hfin. done.
  - exists []. rewrite stop_world. unfold_world. by rewrite app_nil_r.
Qed.

(** C4 as stated fails: [stop] sets no flag that the handler would look at,
    so a change handled after [stop] has returned arms a new timer, whose
    callback starts a commit.  Here timer 0 waits when [stop] is called and
    is cancelled; the change to [/w/b.txt] arms timer 1, which did not exist
    at the shutdown, and timer 1 commits three seconds later. *)
Lemma commit_after_stop :
  ∃ w a,
    run (Example.env false Example.clean_git) Example.after_stop
        (exec stop Example.armed) = Some w
    ∧ attempts w = attempts Example.armed ++ [a]
    ∧ a_timer a = 1 ∧ a_time a = 3
    ∧ timers Example.armed !! a_timer a = None
    ∧ ¬ Sched.started_before (timers Example.armed) a.
Proof.
  eexists _, _. split; [vm_compute; reflexivity|].
  split; [vm_compute; reflexivity|].
  split; [reflexivity|]. split; [reflexivity|]. split; [reflexivity|].
  intros (t0 & Ht0 & _). vm_compute in Ht0. discriminate.
Qed.

(** C4, amended.  In whatever state [stop] is called, it leaves the map of
    commit timers empty and has cancelled every timer that an entry of
    [commit_timers] or [fetch_timer] recorded; and as long as no change
    event is handled afterwards, every commit that starts belongs to a
    timer that existed when [stop] was called and that [stop] could not
    keep from running: its callback had been called already, or it was
    waiting without being recorded.  So no timer that was recorded and
    still waiting starts a commit, and no timer armed after [stop] does. *)
Theorem stop_cancels_timers (E : Env) (w : World) :
  commit_timers (exec stop w) = ∅
  ∧ (∀ id t, timers w !! id = Some t →
             (∃ k, commit_timers w !! k = Some id) ∨ fetch_timer w = Some id →
             timers (exec stop w) !! id = Some (cancelled t))
  ∧ (∀ tr w', Sched.no_event tr = true →
              run E tr (exec stop w) = Some w' →
              ∃ new, attempts w' = attempts w ++ new
                     ∧ Forall (fun a => Sched.escapes w (a_timer a)) new).
Proof.
  split; [|split].
  - rewrite stop_world. by unfold_world.
  - intros id t Ht Hrec.
    destruct (lookup_stop w id) as [[-> _]|[_ [Hc Hf]]]; [by rewrite Ht|].
    destruct Hrec as [[k Hk]|Hfetch]; [by destruct (Hc k) | done].
  - intros tr w' Hne Hrun.
    by destruct (winding_down_run E w tr Hne _ _ (winding_down_stop w) Hrun)
      as [_ H].
Qed.

(** * Further properties of the ignore matcher and of the handler *)

(** ** Strings *)

Lemma append_nil_l (s : string) : "" +:+ s = s.
Proof. reflexivity. Qed.

Lemma append_cons (c : ascii) (a b : string) :
  String c a +:+ b = String c (a +:+ b).
Proof. reflexivity. Qed.

Lemma append_nil_r (s : string) : s +:+ "" = s.
Proof. induction s as [|c s IH]; [done|]. by rewrite append_cons, IH. Qed.

Lemma rstrip_cons (c : ascii) (r : string) :
  is_space c = false → rstrip (String c r) = String c (rstrip r).
Proof. intros H. cbn [rstrip]. by rewrite H. Qed.

Lemma rstrip_idem (s : string) : rstrip (rstrip s) = rstrip s.
Proof.
  induction s as [|c s IH]; [done|]. cbn [rstrip].
  destruct (is_space c && is_empty (rstrip s)) eqn:H; [done|].
  cbn [rstrip]. by rewrite IH, H.
Qed.

Lemma lstrip_head (s : string) :
  lstrip s = "" ∨ ∃ c r, lstrip s = String c r ∧ is_space c = false.
Proof.
  induction s as [|c s IH]; [by left|]. cbn [lstrip].
  destruct (is_space c) eqn:H; [done|]. right. by exists c, s.
Qed.

Lemma strip_head (s : string) :
  strip s = "" ∨ ∃ c r, strip s = String c r ∧ is_space c = false.
Proof.
  unfold strip. destruct (lstrip_head s) as [->|(c & r & -> & H)]; [by left|].
  right. rewrite rstrip_cons by done. by eexists _, _.
Qed.

(** [strip] is idempotent. *)
Lemma strip_idem (s : string) : strip (strip s) = strip s.
Proof.
  unfold strip. destruct (lstrip_head s) as [->|(c & r & -> & H)]; [done|].
  rewrite rstrip_cons by done. cbn [lstrip]. rewrite H.
  rewrite <- (rstrip_cons c r H). apply rstrip_idem.
Qed.

Lemma split_nonempty (sep : ascii) (s : string) : split sep s ≠ [].
Proof.
  induction s as [|c s IH]; [done|]. cbn [split].
  destruct (Ascii.eqb c sep); [done|]. by destruct (split sep s).
Qed.

Lemma join_cons (sep x : string) (l : list string) :
  l ≠ [] → join sep (x :: l) = x +:+ sep +:+ join sep l.
Proof. by destruct l. Qed.

(** Splitting at a character and joining with it gives the text back. *)
Lemma join_split (sep : ascii) (s : string) :
  join (String sep "") (split sep s) = s.
Proof.
  induction s as [|c s IH]; [done|]. cbn [split].
  destruct (Ascii.eqb c sep) eqn:Hc.
  - apply Ascii.eqb_eq in Hc as ->.
    rewrite join_cons by apply split_nonempty. by rewrite IH.
  - pose proof (split_nonempty sep s) as Hne.
    destruct (split sep s) as [|h t]; [done|].
    destruct t as [|h' t].
    + cbn [join] in *. by rewrite IH.
    + rewrite join_cons in * by done. rewrite append_cons. by rewrite IH.
Qed.

Lemma split_app (sep : ascii) (a b : string) :
  split sep (a +:+ String sep b) = split sep a ++ split sep b.
Proof.
  induction a as [|c a IH].
  - rewrite append_nil_l. cbn [split]. by rewrite Ascii.eqb_refl.
  - rewrite append_cons. cbn [split]. rewrite IH.
    destruct (Ascii.eqb c sep); [done|].
    pose proof (split_nonempty sep a) as Hne.
    by destruct (split sep a).
Qed.

Lemma join_app (sep : string) (l1 l2 : list string) :
  l1 ≠ [] → l2 ≠ [] →
  join sep (l1 ++ l2) = join sep l1 +:+ sep +:+ join sep l2.
Proof.
  intros H1 H2. induction l1 as [|x l1 IH]; [done|].
  destruct l1 as [|y l1].
  - cbn [app]. by rewrite join_cons.
  - change ((x :: y :: l1) ++ l2) with (x :: ((y :: l1) ++ l2)).
    rewrite join_cons by done. rewrite IH by done.
    rewrite (join_cons sep x (y :: l1)) by done.
    by rewrite !append_assoc.
Qed.

(** ** Patterns that [fnmatch] takes literally *)

Lemma translate_go_literal (l : list ascii) (fuel : nat) :
  forallb Glob.plain_char l = true → length l ≤ fuel →
  Fnmatch.translate_go fuel l = List.map Fnmatch.TLit l.
Proof.
  revert fuel. induction l as [|c l IH]; intros fuel Hl Hf.
  - by destruct fuel.
  - destruct fuel as [|fuel]; [cbn in Hf; lia|].
    cbn [forallb] in Hl. apply andb_true_iff in Hl as [Hc Hl].
    unfold Glob.plain_char in Hc.
    apply andb_true_iff in Hc as [[H1 H2]%andb_true_iff H3].
    apply negb_true_iff in H1, H2, H3.
    cbn [Fnmatch.translate_go List.map]. rewrite H1, H2, H3.
    f_equal. apply IH; [done | cbn in Hf; lia].
Qed.

Lemma match_literal (l s : list ascii) :
  Fnmatch.match_toks (List.map Fnmatch.TLit l) s = true ↔ s = l.
Proof.
  revert s. induction l as [|c l IH]; intros s; cbn [List.map Fnmatch.match_toks].
  - by destruct s.
  - destruct s as [|d s]; [done|].
    rewrite andb_true_iff, IH, Ascii.eqb_eq. naive_solver.
Qed.

Lemma list_ascii_inj (a b : string) :
  list_ascii_of_string a = list_ascii_of_string b → a = b.
Proof.
  intros H. rewrite <- (string_of_list_ascii_of_string a),
    <- (string_of_list_ascii_of_string b). by rewrite H.
Qed.

(** A pattern without metacharacters matches its own text only. *)
Lemma fnmatch_literal (name pat : string) :
  Glob.literal pat = true →
  Fnmatch.fnmatch name pat = true ↔ name = pat.
Proof.
  intros H. unfold Fnmatch.fnmatch, Fnmatch.translate.
  rewrite translate_go_literal by done. rewrite match_literal.
  split; [apply list_ascii_inj | by intros ->].
Qed.

Lemma match_star (ts : list Fnmatch.tok) (s : list ascii) :
  Fnmatch.match_toks (Fnmatch.TStar :: ts) s = true
  ↔ ∃ pre suf, s = pre ++ suf ∧ Fnmatch.match_toks ts suf = true.
Proof.
  cbn [Fnmatch.match_toks]. induction s as [|c s IH].
  - rewrite orb_false_r. split.
    + intros H. by exists [], [].
    + intros (pre & suf & Hs & H). symmetry in Hs.
      apply app_eq_nil in Hs as [_ ->]. done.
  - rewrite orb_true_iff, IH. split.
    + intros [H|(pre & suf & -> & H)].
      * by exists [], (c :: s).
      * by exists (c :: pre), suf.
    + intros (pre & suf & Hs & H). destruct pre as [|d pre].
      * left. cbn in Hs. by subst suf.
      * right. injection Hs as -> ->. by exists pre, suf.
Qed.

Lemma list_ascii_app (a b : string) :
  list_ascii_of_string (a +:+ b) = list_ascii_of_string a ++ list_ascii_of_string b.
Proof.
  induction a as [|c a IH]; [done|]. rewrite append_cons. cbn. by rewrite IH.
Qed.

(** A star followed by plain text matches the names that end with the
    text: the star also runs over the separators of a path. *)
Lemma fnmatch_star_literal (name lit : string) :
  Glob.literal lit = true →
  Fnmatch.fnmatch name ("*" +:+ lit) = true ↔ ∃ pre, name = pre +:+ lit.
Proof.
  intros H. unfold Fnmatch.fnmatch, Fnmatch.translate.
  change (list_ascii_of_string ("*" +:+ lit))
    with ("*"%char :: list_ascii_of_string lit).
  cbn [length Fnmatch.translate_go]. cbn [Ascii.eqb Bool.eqb].
  rewrite translate_go_literal by done. rewrite match_star. split.
  - intros (pre & suf & Hs & ->%match_literal).
    exists (string_of_list_ascii pre). apply list_ascii_inj.
    by rewrite list_ascii_app, list_ascii_of_string_of_list_ascii.
  - intros (pre & ->). exists (list_ascii_of_string pre), (list_ascii_of_string lit).
    split; [apply list_ascii_app | by apply match_literal].
Qed.

(** ** [_matches_pattern] on the common shapes of patterns *)

Lemma kept_guards (p : string) :
  Glob.kept p = true →
  strip p = p ∧ is_empty p = false
  ∧ startswith p "#" = false ∧ startswith p "!" = false.
Proof.
  unfold Glob.kept. rewrite !andb_true_iff, !negb_true_iff, String.eqb_eq.
  naive_solver.
Qed.

Lemma last_char_app (d : string) (c : ascii) :
  last_char (d +:+ String c "") = Some c.
Proof.
  induction d as [|x d IH]; [done|]. rewrite append_cons. cbn [last_char].
  rewrite IH. by destruct (d +:+ String c "").
Qed.

Lemma drop_last_app (d : string) (c : ascii) :
  drop_last (d +:+ String c "") = d.
Proof.
  induction d as [|x d IH]; [done|]. rewrite append_cons. cbn [drop_last].
  rewrite IH. destruct d; [done|]. by rewrite append_cons.
Qed.

(** X1. A pattern of plain characters that does not end with a slash matches
    the files whose path below the watch directory, or whose last segment,
    is the pattern itself: a plain name is ignored in every directory. *)
Theorem literal_pattern (file_path pattern : string) :
  Glob.literal pattern = true → Glob.kept pattern = true →
  endswith_char pattern "/" = false →
  matches_pattern file_path pattern = true
  ↔ file_path = pattern ∨ name_of_str file_path = pattern.
Proof.
  intros Hl (Hs & He & Hc & Hn)%kept_guards Hd. unfold matches_pattern.
  rewrite Hs, He, Hc, Hn, Hd. cbn [orb].
  by rewrite orb_true_iff, !fnmatch_literal.
Qed.

Lemma literal_pattern_witness :
  Glob.literal "notes.txt" = true ∧ Glob.kept "notes.txt" = true
  ∧ endswith_char "notes.txt" "/" = false
  ∧ (matches_pattern "docs/old/notes.txt" "notes.txt" = true
     ↔ "docs/old/notes.txt" = "notes.txt"
       ∨ name_of_str "docs/old/notes.txt" = "notes.txt").
Proof.
  split; [reflexivity|]. split; [reflexivity|]. split; [reflexivity|].
  apply literal_pattern; reflexivity.
Defined.

(** X2. A star followed by plain characters matches the files whose path, or
    whose last segment, ends with these characters, at any depth below the
    watch directory. *)
Theorem suffix_pattern (file_path lit : string) :
  Glob.literal lit = true → Glob.kept ("*" +:+ lit) = true →
  endswith_char ("*" +:+ lit) "/" = false →
  matches_pattern file_path ("*" +:+ lit) = true
  ↔ (∃ pre, file_path = pre +:+ lit)
    ∨ (∃ pre, name_of_str file_path = pre +:+ lit).
Proof.
  intros Hl (Hs & He & Hc & Hn)%kept_guards Hd. unfold matches_pattern.
  rewrite Hs, He, Hc, Hn, Hd. cbn [orb].
  by rewrite orb_true_iff, !fnmatch_star_literal.
Qed.

Lemma suffix_pattern_witness :
  Glob.literal ".pyc" = true ∧ Glob.kept ("*" +:+ ".pyc") = true
  ∧ endswith_char ("*" +:+ ".pyc") "/" = false
  ∧ (matches_pattern "pkg/mod/a.pyc" ("*" +:+ ".pyc") = true
     ↔ (∃ pre, "pkg/mod/a.pyc" = pre +:+ ".pyc")
       ∨ (∃ pre, name_of_str "pkg/mod/a.pyc" = pre +:+ ".pyc")).
Proof.
  split; [reflexivity|]. split; [reflexivity|]. split; [reflexivity|].
  apply suffix_pattern; reflexivity.
Defined.

Lemma prefix_of_path (f d : string) :
  (∃ i, i < length (split "/" f)
        ∧ join "/" (List.firstn (i + 1) (split "/" f)) = d)
  ↔ f = d ∨ ∃ rest, f = d +:+ "/" +:+ rest.
Proof.
  split.
  - intros (i & Hi & Hd).
    pose proof (join_split "/" f) as Hf.
    rewrite <- (firstn_skipn (i + 1) (split "/" f)) in Hf.
    destruct (List.skipn (i + 1) (split "/" f)) as [|x l] eqn:Hsk.
    + left. rewrite app_nil_r in Hf. congruence.
    + right. rewrite join_app in Hf; [|destruct (split "/" f); [cbn in Hi; lia|];
        by rewrite Nat.add_1_r|done].
      eexists. rewrite <- Hf. by rewrite Hd.
  - intros [->|(rest & ->)].
    + exists (length (split "/" d) - 1).
      pose proof (split_nonempty "/" d) as Hne.
      destruct (split "/" d) as [|x l] eqn:Hsp; [done|]. cbn [length].
      split; [lia|]. replace (S (length l) - 1 + 1) with (length (x :: l))
        by (cbn; lia).
      rewrite firstn_all. rewrite <- Hsp. apply join_split.
    + change (d +:+ "/" +:+ rest) with (d +:+ String "/" rest).
      rewrite split_app. exists (length (split "/" d) - 1).
      pose proof (split_nonempty "/" d) as Hne.
      destruct (split "/" d) as [|x l] eqn:Hsp; [done|]. cbn [length].
      split; [rewrite length_app; cbn; lia|].
      replace (S (length l) - 1 + 1) with (length (x :: l) + 0) by (cbn; lia).
      rewrite firstn_app_2. cbn [List.firstn]. rewrite app_nil_r.
      rewrite <- Hsp. apply join_split.
Qed.

(** X3. A directory pattern (a trailing slash) of plain characters is
    anchored at the watch directory: it matches the path that is the
    directory itself and the paths that begin with the directory and a
    slash, and no path that has the directory further down. *)
Theorem directory_pattern_anchored (file_path dir : string) :
  Glob.literal dir = true → Glob.kept (dir +:+ "/") = true →
  matches_pattern file_path (dir +:+ "/") = true
  ↔ file_path = dir ∨ ∃ rest, file_path = dir +:+ "/" +:+ rest.
Proof.
  intros Hl (Hs & He & Hc & Hn)%kept_guards. unfold matches_pattern.
  rewrite Hs, He, Hc, Hn. cbn [orb]. unfold endswith_char.
  rewrite last_char_app. cbn [Ascii.eqb Bool.eqb]. cbn iota.
  rewrite drop_last_app. rewrite <- prefix_of_path.
  rewrite existsb_exists. split.
  - intros (i & Hi & Hm). apply in_seq in Hi. exists i.
    split; [lia|]. by apply fnmatch_literal.
  - intros (i & Hi & Hm). exists i. split; [apply in_seq; lia|].
    by apply fnmatch_literal.
Qed.

Lemma directory_pattern_anchored_witness :
  Glob.literal "build" = true ∧ Glob.kept ("build" +:+ "/") = true
  ∧ (matches_pattern "src/build/x.txt" ("build" +:+ "/") = true
     ↔ "src/build/x.txt" = "build"
       ∨ ∃ rest, "src/build/x.txt" = "build" +:+ "/" +:+ rest).
Proof.
  split; [reflexivity|]. split; [reflexivity|].
  apply directory_pattern_anchored; reflexivity.
Defined.

(** ** Ignore files and the cache of [.gitignore] files *)

Lemma length_filter_map {A B} (f : A → B) (P : B → bool) (l : list A) :
  length (List.filter P (List.map f l))
  = length (List.filter (fun x => P (f x)) l).
Proof.
  induction l as [|x l IH]; [done|]. cbn [List.map List.filter].
  destruct (P (f x)); cbn [length]; by rewrite IH.
Qed.

(** X4. The patterns loaded from an ignore file are exactly the lines of the
    file, stripped, that are neither blank nor comments, in the order of the
    file and as often as they occur there: a string is loaded if and only if
    it is non-empty, does not begin with a hash and is some line of the file
    stripped; the loaded patterns are left as they are by stripping; they
    come in the order of the lines, one for each line that qualifies.  A
    file that does not exist gives no pattern. *)
Theorem load_ignore_file_patterns (fs : FileSystem) (ignore_path : Path) :
  (∀ pattern,
     pattern ∈ load_ignore_file fs ignore_path
     ↔ ∃ line, line ∈ default [] (read_lines fs ignore_path)
               ∧ pattern = strip line
               ∧ is_empty pattern = false
               ∧ startswith pattern "#" = false)
  ∧ Forall (fun pattern => strip pattern = pattern)
           (load_ignore_file fs ignore_path)
  ∧ load_ignore_file fs ignore_path
    `sublist_of` List.map strip (default [] (read_lines fs ignore_path))
  ∧ length (load_ignore_file fs ignore_path)
    = length (List.filter
                (fun line => negb (is_empty (strip line))
                             && negb (startswith (strip line) "#"))
                (default [] (read_lines fs ignore_path)))
  ∧ (read_lines fs ignore_path = None → load_ignore_file fs ignore_path = []).
Proof.
  unfold load_ignore_file. destruct (read_lines fs ignore_path) as [ls|];
    unfold default, from_option, id.
  - split; [|split; [|split; [|split; [|done]]]].
    + intros p. rewrite list_elem_of_In, filter_In, in_map_iff,
        andb_true_iff, !negb_true_iff.
      split.
      * intros [(l & <- & Hin) [H1 H2]]. exists l.
        by rewrite list_elem_of_In.
      * intros (l & Hin%list_elem_of_In & -> & H1 & H2). eauto.
    + apply Forall_forall. intros p [Hin Hp]%list_elem_of_In%filter_In.
      apply in_map_iff in Hin as (l & <- & _). apply strip_idem.
    + induction (List.map strip ls) as [|x l IH];
        [constructor|].
      cbn [List.filter]. destruct (_ && _); by constructor.
    + apply length_filter_map.
  - split; [|split; [constructor|split; [constructor|done]]].
    intros p. split; [by intros ?%elem_of_nil|].
    by intros (l & ?%elem_of_nil & _).
Qed.

Lemma extends_refl (im : IgnoreManager) : IgnoreTools.extends im im.
Proof. split; [by destruct im | done]. Qed.

Lemma extends_trans (im1 im2 im3 : IgnoreManager) :
  IgnoreTools.extends im1 im2 → IgnoreTools.extends im2 im3 →
  IgnoreTools.extends im1 im3.
Proof.
  intros [H1 S1] [H2 S2]. split; [|by etrans].
  rewrite H2 at 1. rewrite H1 at 1. done.
Qed.

Lemma extends_insert (im : IgnoreManager) (key : string) (v : list string) :
  gitignore_patterns im !! key = None →
  IgnoreTools.extends im
    (set_gitignore_patterns im (<[key := v]> (gitignore_patterns im))).
Proof. intros H. split; [done|]. cbn. by apply insert_subseteq. Qed.

Section Walk.
  Context (fs : FileSystem).

  (** One iteration of the loop of [_matches_gitignore]: the manager after
      the file of the directory has been loaded, if it had to be. *)
Lemma walk_step_extends (im : IgnoreManager) (dir : Path) :
    IgnoreTools.extends im
      (match read_lines fs (joinpath dir ".gitignore") with
       | Some _ =>
           match gitignore_patterns im !! path_str dir with
           | Some _ => im
           | None =>
               set_gitignore_patterns im
                 (<[path_str dir
                    := load_ignore_file fs (joinpath dir ".gitignore")]>
                    (gitignore_patterns im))
           end
       | None => im
       end).
  Proof.
    destruct (read_lines fs _); [|apply extends_refl].
    destruct (gitignore_patterns im !! _) eqn:H; [apply extends_refl|].
    by apply extends_insert.
  Qed.

Lemma walk_extends (fuel : nat) :
    ∀ (im : IgnoreManager) (file dir : Path),
      IgnoreTools.extends im (snd (gitignore_walk fs fuel im file dir)).
  Proof.
    induction fuel as [|fuel IH]; intros im file dir; cbn [gitignore_walk];
      [apply extends_refl|].
    destruct (path_ge dir (watch_dir im)); [|apply extends_refl].
    cbn zeta. pose proof (walk_step_extends im dir) as Hs.
    set (im1 := match read_lines fs (joinpath dir ".gitignore") with
                | Some _ => _ | None => _ end) in *.
    destruct (match read_lines fs (joinpath dir ".gitignore") with
              | Some _ => _ | None => false end); [done|].
    destruct (path_eqb dir (watch_dir im)); [done|].
    eapply extends_trans; [exact Hs | apply IH].
  Qed.

End Walk.

Section WalkAgain.
  Context (fs : FileSystem).

  (** The test of one directory against the patterns cached for it. *)
Let hit_at (im : IgnoreManager) (file dir : Path) : bool :=
    match read_lines fs (joinpath dir ".gitignore") with
    | Some _ =>
        match relative_to file dir with
        | Some rel =>
            existsb (matches_pattern (rel_str rel))
                    (default [] (gitignore_patterns im !! path_str dir))
        | None => false
        end
    | None => false
    end.

  (** An iteration that finds the file of its directory in the cache, or no
      file, leaves the manager as it is. *)
Lemma walk_settled (fuel : nat) (im : IgnoreManager) (file dir : Path) :
    (is_Some (read_lines fs (joinpath dir ".gitignore")) →
     is_Some (gitignore_patterns im !! path_str dir)) →
    gitignore_walk fs (S fuel) im file dir
    = if path_ge dir (watch_dir im) then
        if hit_at im file dir then (true, im)
        else if path_eqb dir (watch_dir im) then (false, im)
             else gitignore_walk fs fuel im file (parent dir)
      else (false, im).
  Proof.
    intros H. cbn [gitignore_walk]. unfold hit_at.
    destruct (path_ge dir (watch_dir im)); [|done]. cbn zeta.
    destruct (read_lines fs (joinpath dir ".gitignore")) as [ls|]; [|done].
    destruct H as [v Hv]; [by eexists|]. rewrite Hv. cbn. by rewrite Hv.
  Qed.

Lemma extends_watch_dir (im im' : IgnoreManager) :
    IgnoreTools.extends im im' → watch_dir im' = watch_dir im.
  Proof. intros [-> _]. done. Qed.

Lemma extends_lookup (im im' : IgnoreManager) (k : string) (v : list string) :
    IgnoreTools.extends im im' →
    gitignore_patterns im !! k = Some v → gitignore_patterns im' !! k = Some v.
  Proof. intros [_ H] Hl. by eapply lookup_weaken. Qed.

  (** Walking again from the manager a walk has left gives the same answer
      and leaves the manager as it is. *)
Lemma walk_again (fuel : nat) :
    ∀ (im : IgnoreManager) (file dir : Path),
      gitignore_walk fs fuel (snd (gitignore_walk fs fuel im file dir)) file dir
      = gitignore_walk fs fuel im file dir.
  Proof.
    induction fuel as [|fuel IH]; intros im file dir; [done|].
    (* the first walk, one iteration unfolded *)
    pose proof (walk_step_extends fs im dir) as Hext.
    assert (Hfirst : gitignore_walk fs (S fuel) im file dir
      = let im1 := match read_lines fs (joinpath dir ".gitignore") with
                   | Some _ =>
                       match gitignore_patterns im !! path_str dir with
                       | Some _ => im
                       | None =>
                           set_gitignore_patterns im
                             (<[path_str dir
                                := load_ignore_file fs (joinpath dir ".gitignore")]>
                                (gitignore_patterns im))
                       end
                   | None => im
                   end in
        if path_ge dir (watch_dir im) then
          if hit_at im1 file dir then (true, im1)
          else if path_eqb dir (watch_dir im) then (false, im1)
               else gitignore_walk fs fuel im1 file (parent dir)
        else (false, im)) by reflexivity.
    cbn zeta in Hfirst.
    set (im1 := match read_lines fs (joinpath dir ".gitignore") with
                | Some _ => _ | None => _ end) in *.
    assert (Hin1 : is_Some (read_lines fs (joinpath dir ".gitignore")) →
                   is_Some (gitignore_patterns im1 !! path_str dir)).
    { subst im1. intros [ls Hls]. rewrite Hls.
      destruct (gitignore_patterns im !! path_str dir) eqn:Hc; [by eexists|].
      cbn. rewrite lookup_insert_eq. by eexists. }
    rewrite Hfirst.
    destruct (path_ge dir (watch_dir im)) eqn:Hge.
    2:{ cbn [snd gitignore_walk]. by rewrite Hge. }
    assert (Hsettled : ∀ im',
      IgnoreTools.extends im1 im' →
      gitignore_walk fs (S fuel) im' file dir
      = if hit_at im1 file dir then (true, im')
        else if path_eqb dir (watch_dir im) then (false, im')
             else gitignore_walk fs fuel im' file (parent dir)).
    { intros im' He. rewrite walk_settled.
      - rewrite (extends_watch_dir _ _ He), (extends_watch_dir _ _ Hext), Hge.
        replace (hit_at im' file dir) with (hit_at im1 file dir); [done|].
        unfold hit_at.
        destruct (read_lines fs (joinpath dir ".gitignore")) eqn:Hr; [|done].
        destruct Hin1 as [v Hv]; [by eexists|].
        by rewrite Hv, (extends_lookup _ _ _ _ He Hv).
      - intros Hr. destruct (Hin1 Hr) as [v Hv]. exists v.
        by eapply extends_lookup. }
    destruct (hit_at im1 file dir) eqn:Hhit.
    { cbn [snd]. rewrite Hsettled by apply extends_refl. by rewrite ?Hhit. }
    destruct (path_eqb dir (watch_dir im)) eqn:Heq.
    { cbn [snd]. rewrite Hsettled by apply extends_refl.
      by rewrite ?Hhit, ?Heq. }
    rewrite Hsettled by apply walk_extends. rewrite ?Hhit, ?Heq. apply IH.
  Qed.

End WalkAgain.

Section Cache.
  Context (fs : FileSystem).

  (** Where the entries of the cache come from. *)
Let loaded (im im' : IgnoreManager) : Prop :=
    ∀ k v, gitignore_patterns im' !! k = Some v →
           gitignore_patterns im !! k = Some v
           ∨ ∃ dir, k = path_str dir
                    ∧ v = load_ignore_file fs (joinpath dir ".gitignore").

Lemma walk_loaded (fuel : nat) :
    ∀ (im : IgnoreManager) (file dir : Path),
      loaded im (snd (gitignore_walk fs fuel im file dir)).
  Proof.
    induction fuel as [|fuel IH]; intros im file dir; cbn [gitignore_walk];
      [by left|].
    destruct (path_ge dir (watch_dir im)); [|by left]. cbn zeta.
    assert (H1 : loaded im
      (match read_lines fs (joinpath dir ".gitignore") with
       | Some _ =>
           match gitignore_patterns im !! path_str dir with
           | Some _ => im
           | None =>
               set_gitignore_patterns im
                 (<[path_str dir
                    := load_ignore_file fs (joinpath dir ".gitignore")]>
                    (gitignore_patterns im))
           end
       | None => im
       end)).
    { destruct (read_lines fs _); [|by left].
      destruct (gitignore_patterns im !! _) eqn:H; [by left|].
      intros k v. cbn. rewrite lookup_insert. case_decide as Hk.
      - intros [= <-]. right. by exists dir.
      - by left. }
    set (im1 := match read_lines fs (joinpath dir ".gitignore") with
                | Some _ => _ | None => _ end) in *.
    destruct (match read_lines fs (joinpath dir ".gitignore") with
              | Some _ => _ | None => false end); [done|].
    destruct (path_eqb dir (watch_dir im)); [done|].
    intros k v Hk. destruct (IH im1 file (parent dir) k v Hk) as [H|H];
      [by apply H1 | by right].
  Qed.

Lemma should_ignore_extends (im : IgnoreManager) (file_path : string) :
    IgnoreTools.extends im (snd (should_ignore fs im file_path)).
  Proof.
    unfold should_ignore.
    destruct (relative_to _ _); [|apply extends_refl].
    destruct (existsb _ _); [apply extends_refl|].
    destruct (respect_gitignore im); [|apply extends_refl].
    apply walk_extends.
  Qed.

  (** X5. [should_ignore] changes nothing of the manager but the cache of
      [.gitignore] files, and the cache only grows: an entry that is there
      stays as it is, also when the file on disk has changed since, and a
      new entry holds the patterns loaded from the [.gitignore] file of the
      directory it is filed under. *)
Theorem should_ignore_cache (im : IgnoreManager) (file_path : string) :
    IgnoreTools.extends im (snd (should_ignore fs im file_path))
    ∧ ∀ k v,
        gitignore_patterns (snd (should_ignore fs im file_path)) !! k = Some v →
        gitignore_patterns im !! k = Some v
        ∨ ∃ dir, k = path_str dir
                 ∧ v = load_ignore_file fs (joinpath dir ".gitignore").
  Proof.
    unfold should_ignore.
    destruct (relative_to _ _); [|split; [apply extends_refl | by left]].
    destruct (existsb _ _); [split; [apply extends_refl | by left]|].
    destruct (respect_gitignore im); [|split; [apply extends_refl | by left]].
    split; [apply walk_extends | apply walk_loaded].
  Qed.

Lemma should_ignore_again_eq (im : IgnoreManager) (file_path : string) :
    should_ignore fs (snd (should_ignore fs im file_path)) file_path
    = should_ignore fs im file_path.
  Proof.
    unfold should_ignore.
    destruct (relative_to (resolve fs file_path) (watch_dir im)) as [rel|] eqn:Hr;
      cbn [snd]; rewrite ?Hr; [|done].
    destruct (existsb _ (all_patterns im)) eqn:Hp; cbn [snd]; rewrite ?Hr, ?Hp;
      [done|].
    destruct (respect_gitignore im) eqn:Hg; cbn [snd]; rewrite ?Hr, ?Hp, ?Hg;
      [|done].
    unfold matches_gitignore.
    pose proof (walk_extends fs (S (length (parent (resolve fs file_path)))) im
                  (resolve fs file_path) (parent (resolve fs file_path)))
      as [He _].
    set (im' := snd (gitignore_walk fs _ im _ _)) in *.
    assert (Hw : watch_dir im' = watch_dir im) by (by rewrite He).
    assert (Ha : all_patterns im' = all_patterns im) by (by rewrite He).
    assert (Hg' : respect_gitignore im' = respect_gitignore im)
      by (by rewrite He).
    rewrite Hw, Hr, Ha, Hp, Hg', Hg. apply walk_again.
  Qed.

  (** X6. Asking [should_ignore] again about the same file, with the file
      system as it was, gives the same decision and leaves the cache as the
      first call left it. *)
Theorem should_ignore_again (im : IgnoreManager) (file_path : string) :
    should_ignore fs (snd (should_ignore fs im file_path)) file_path
    = should_ignore fs im file_path.
  Proof. apply should_ignore_again_eq. Qed.

Lemma matched_of_nil (label rel : string) (patterns : list string) :
    IgnoreTools.matched_of label rel patterns = []
    ↔ existsb (matches_pattern rel) patterns = false.
  Proof.
    unfold IgnoreTools.matched_of. induction patterns as [|p ps IH]; [done|].
    cbn [List.filter existsb]. destruct (matches_pattern rel p); [done|].
    by rewrite IH.
  Qed.

  (** X7. [test_pattern] reports a file as ignored exactly when
      [should_ignore] ignores it, and names a source for every file it
      reports as ignored: [matched_by] is empty for a file that is not
      ignored, lists only "outside watch directory" for a file outside the
      watch directory, and otherwise lists at least one pattern of the
      configured sources or "gitignore". *)
Theorem test_pattern_sources (im : IgnoreManager) (file_path : string) :
    let r := fst (IgnoreTools.test_pattern fs im file_path) in
    IgnoreTools.ignored r = fst (should_ignore fs im file_path)
    ∧ (IgnoreTools.ignored r = false ↔ IgnoreTools.matched_by r = [])
    ∧ (relative_to (resolve fs file_path) (watch_dir im) = None →
       IgnoreTools.matched_by r = ["outside watch directory"]).
  Proof.
    cbn zeta. unfold IgnoreTools.test_pattern.
    pose proof (should_ignore_again_eq im file_path) as Hagain.
    pose proof (should_ignore_extends im file_path) as [He _].
    destruct (should_ignore fs im file_path) as [ign im1] eqn:Hs.
    cbn [fst snd] in *. destruct ign; [|by split; [|split; [|
      intros Hr; unfold should_ignore in Hs; by rewrite Hr in Hs]]].
    assert (Hw : watch_dir im1 = watch_dir im) by (by rewrite He).
    rewrite Hw.
    destruct (relative_to (resolve fs file_path) (watch_dir im)) as [rel|] eqn:Hr.
    2:{ by cbn. }
    unfold should_ignore in Hagain. rewrite Hw, Hr in Hagain.
    set (m := IgnoreTools.matched_of "global: " (rel_str rel) (global_patterns im1)
              ++ IgnoreTools.matched_of "config: " (rel_str rel)
                   (config_patterns im1)
              ++ IgnoreTools.matched_of "additional: " (rel_str rel)
                   (additional_patterns im1)).
    assert (Hm : m = [] ↔ existsb (matches_pattern (rel_str rel))
                            (all_patterns im1) = false).
    { subst m. unfold all_patterns.
      rewrite !existsb_app, !orb_false_iff, <- !matched_of_nil.
      split.
      - intros [H1 [H2 H3]%app_eq_nil]%app_eq_nil. done.
      - intros (-> & -> & ->). done. }
    destruct (existsb (matches_pattern (rel_str rel)) (all_patterns im1)) eqn:Hp.
    - assert (m ≠ []) by (intros H; by apply Hm in H).
      destruct (respect_gitignore im1).
      + destruct (matches_gitignore fs im1 (resolve fs file_path)) as [hit im2].
        cbn. split; [done|]. split; [|done]. split; [done|].
        intros [H1 _]%app_eq_nil. done.
      + cbn. by repeat split.
    - destruct (respect_gitignore im1); [|done].
      rewrite Hagain. cbn. split; [done|]. split; [|done]. split; [done|].
      intros [_ H1]%app_eq_nil. done.
  Qed.

End Cache.

(** ** The target of a change *)

Lemma find_first_containing (subs : list Path) (p : Path) :
  match List.find (fun s => is_relative_to p s) subs with
  | Some d => Handler.first_containing subs p d
  | None => Forall (fun s => is_relative_to p s = false) subs
  end.
Proof.
  induction subs as [|s subs IH]; cbn [List.find]; [constructor|].
  destruct (is_relative_to p s) eqn:Hs.
  - exists [], subs. repeat split; [done|constructor].
  - destruct (List.find _ subs) as [d|].
    + destruct IH as (pre & post & -> & Hd & Hpre).
      exists (s :: pre), post. repeat split; [done|by constructor].
    + by constructor.
Qed.

Lemma target_of_cases (E : Env) (w : World) (p : Path) :
  ∃ d, target_of E w p = Some d
       ∧ (Handler.first_containing (submodules w) p d
          ∨ d = repo_dir E
            ∧ Forall (fun s => is_relative_to p s = false) (submodules w)).
Proof.
  unfold target_of, is_in_submodule, get_submodule_for_file.
  pose proof (find_first_containing (submodules w) p) as H.
  destruct (existsb _ (submodules w)) eqn:Hex.
  - destruct (List.find _ (submodules w)) as [d|]; [by exists d; eauto|].
    apply existsb_exists in Hex as (s & Hin & Hs).
    rewrite Forall_forall in H. apply list_elem_of_In in Hin.
    specialize (H s Hin). cbn in H. congruence.
  - exists (repo_dir E). split; [done|]. right. split; [done|].
    apply Forall_forall. intros s Hin%list_elem_of_In.
    destruct (is_relative_to p s) eqn:Hs; [|done].
    assert (existsb (fun s => is_relative_to p s) (submodules w) = true)
      by (apply existsb_exists; eauto). congruence.
Qed.

(** X8. Once the path of a change is resolved, the directory the change is
    filed under is always determined.  It is the first submodule, in the
    order of discovery, that contains the resolved path, and the repository
    of the handler when no submodule contains it.  A change that is not
    ignored is added to the pending set of that directory, and the pending
    sets of the other directories are left as they are. *)
Theorem change_target (E : Env) (file_path change_type : string) (w : World) :
  ∃ target_dir,
    target_of E w (resolve (fs E) file_path) = Some target_dir
    ∧ (Handler.first_containing (submodules w) (resolve (fs E) file_path)
         target_dir
       ∨ target_dir = repo_dir E
         ∧ Forall (fun s => is_relative_to (resolve (fs E) file_path) s = false)
                  (submodules w))
    ∧ (fst (should_ignore (fs E) (ignore_manager w) file_path) = false →
       pending_commits (snd (handle_file_change E file_path change_type w))
       = <[path_str target_dir :=
             Aux.pending_for w (path_str target_dir)
             ∪ {[path_str (resolve (fs E) file_path)]}]> (pending_commits w)).
Proof.
  destruct (target_of_cases E w (resolve (fs E) file_path))
    as (d & Hd & Hcases).
  exists d. split; [done|]. split; [done|].
  intros Hacc. rewrite handle_file_change_eq. cbn zeta. rewrite Hacc.
  change (target_of E (set_ignore_manager w ?im) ?p) with (target_of E w p).
  rewrite Hd, schedule_commit_eq. reflexivity.
Qed.

(** ** What one step of a thread changes *)

Lemma should_ignore_accepts (fs : FileSystem) (im im' : IgnoreManager)
  (file_path : string) :
  should_ignore fs im file_path = (false, im') →
  is_relative_to (resolve fs file_path) (watch_dir im) = true
  ∧ existsb (matches_pattern
               (rel_str (default [] (relative_to (resolve fs file_path)
                                                 (watch_dir im)))))
            (all_patterns im) = false.
Proof.
  unfold should_ignore, is_relative_to.
  destruct (relative_to _ _) as [rel|]; [|done].
  destruct (existsb _ _); [done|]. done.
Qed.

(** The world after an event: the cache of the ignore manager may have
    grown; an accepted change is filed under its target. *)
Lemma event_shape (E : Env) (kind : EventKind) (event : FileSystemEvent)
  (w : World) :
  ∃ im, IgnoreTools.extends (ignore_manager w) im
    ∧ (exec (dispatch E kind event) w = set_ignore_manager w im
       ∨ ∃ p target_dir,
           should_ignore (fs E) (ignore_manager w) p = (false, im)
           ∧ target_of E w (resolve (fs E) p) = Some target_dir
           ∧ exec (dispatch E kind event) w
             = {| now := now w;
                  timers :=
                    match commit_timers w !! path_str target_dir with
                    | Some id => cancel_timer (timers w) id
                    | None => timers w
                    end ++ [{| t_deadline := now w + commit_delay (config E);
                               t_callback := CommitCb (path_str target_dir);
                               t_finished := false; t_phase := Waiting |}];
                  submodules := submodules w;
                  pending_commits :=
                    <[path_str target_dir
                      := Aux.pending_for w (path_str target_dir)
                         ∪ {[path_str (resolve (fs E) p)]}]>
                      (pending_commits w);
                  commit_timers :=
                    <[path_str target_dir := length (timers w)]>
                      (commit_timers w);
                  fetch_timer := fetch_timer w;
                  ignore_manager := im;
                  effects := effects w;
                  attempts := attempts w |}).
Proof.
  unfold exec. rewrite dispatch_eq.
  destruct (Sched.event_path kind event) as [p|].
  2:{ exists (ignore_manager w). split; [apply extends_refl|]. left.
      by destruct w. }
  rewrite handle_file_change_eq. cbn zeta.
  pose proof (should_ignore_extends (fs E) (ignore_manager w) p) as He.
  destruct (should_ignore (fs E) (ignore_manager w) p) as [ign im] eqn:Hs.
  cbn [fst snd] in *. exists im. split; [done|].
  destruct ign; [by left|].
  destruct (target_of_cases E (set_ignore_manager w im) (resolve (fs E) p))
    as (d & Hd & _).
  rewrite Hd, schedule_commit_eq. cbn [snd]. right. exists p, d.
  split; [done|]. split; [exact Hd|]. done.
Qed.

(** The steps of the threads, case by case. *)
Lemma step_shape (E : Env) (a : Action) (w w' : World) :
  step E a w = Some w' →
  (a = ATick ∧ w' = set_now w (S (now w)))
  ∨ (∃ kind event, a = AEvent kind event
                   ∧ w' = exec (dispatch E kind event) w)
  ∨ (∃ id t, a = AExpire id ∧ timers w !! id = Some t
             ∧ t_phase t = Waiting ∧ t_finished t = false
             ∧ t_deadline t ≤ now w ∧ w' = set_phase id Fired w)
  ∨ (∃ id t k, a = ALock id ∧ timers w !! id = Some t
               ∧ t_phase t = Fired ∧ t_callback t = CommitCb k
               ∧ w' = match pending_commits w !! k with
                      | Some cf =>
                          set_phase id (Committing cf)
                            (set_commit_timers
                               (set_pending_commits w
                                  (delete k (pending_commits w)))
                               (delete k (commit_timers w)))
                      | None => set_phase id Done w
                      end)
  ∨ (∃ id t k cf es, a = ACommit id ∧ timers w !! id = Some t
                     ∧ t_phase t = Committing cf ∧ t_callback t = CommitCb k
                     ∧ w' = set_phase id Done
                              (Aux.logged_all
                                 (set_attempts w
                                    (attempts w
                                     ++ [{| a_time := now w; a_timer := id;
                                            a_key := k; a_files := cf |}]))
                                 es))
  ∨ (∃ id t es, a = AFetch id ∧ timers w !! id = Some t
                ∧ t_phase t = Fired ∧ t_callback t = FetchCb
                ∧ (w' = set_phase id Done (Aux.logged_all w es)
                   ∨ w' = set_phase id Done
                            (set_fetch_timer
                               (set_timers (Aux.logged_all w es)
                                  (match fetch_timer w with
                                   | Some i => cancel_timer (timers w) i
                                   | None => timers w
                                   end
                                   ++ [{| t_deadline
                                          := now w + fetch_interval (config E);
                                          t_callback := FetchCb;
                                          t_finished := false;
                                          t_phase := Waiting |}]))
                               (Some (length (timers w))))))
  ∨ (a = AStop ∧ w' = exec stop w).
Proof.
  intros Hstep. destruct a as [|kind event|id|id|id|id|]; cbn [step] in Hstep.
  - left. by injection Hstep as <-.
  - right. left. injection Hstep as <-. by eexists _, _.
  - do 2 right. left.
    destruct (timers w !! id) as [t|] eqn:Ht; [|done].
    destruct (t_phase t) eqn:Hph; try done.
    destruct (t_finished t) eqn:Hfin; [done|]. cbn [negb andb] in Hstep.
    destruct (t_deadline t <=? now w) eqn:Hdl; [|done].
    apply Nat.leb_le in Hdl. injection Hstep as <-. by exists id, t.
  - do 3 right. left.
    destruct (timers w !! id) as [t|] eqn:Ht; [|done].
    destruct (t_phase t) eqn:Hph; try done.
    destruct (t_callback t) as [k|] eqn:Hcb; [|done].
    unfold execute_delayed_commit_locked in Hstep.
    exists id, t, k. repeat split; try done.
    destruct (pending_commits w !! k); by injection Hstep as <-.
  - do 4 right. left.
    destruct (timers w !! id) as [t|] eqn:Ht; [|done].
    destruct (t_phase t) as [| |cf|] eqn:Hph; try done.
    destruct (t_callback t) as [k|] eqn:Hcb; [|done].
    injection Hstep as <-. unfold exec.
    match goal with
    | |- context [execute_delayed_commit_unlocked E k cf ?w1] =>
        destruct (effect_only_unlocked E k cf w1) as (es & ->)
    end.
    by exists id, t, k, cf, es.
  - do 5 right. left.
    destruct (timers w !! id) as [t|] eqn:Ht; [|done].
    destruct (t_phase t) eqn:Hph; try done.
    destruct (t_callback t) as [k|] eqn:Hcb; [done|].
    injection Hstep as <-.
    destruct (periodic_fetch_world E w) as (es & [-> | ->]);
      exists id, t, es; repeat split; eauto.
  - do 6 right. by injection Hstep as <-.
Qed.

(** ** Invariants of the handler *)

Lemma extends_watch (im im' : IgnoreManager) :
  IgnoreTools.extends im im' → watch_dir im' = watch_dir im.
Proof. intros [-> _]. done. Qed.

Lemma first_containing_in (dirs : list Path) (p d : Path) :
  Handler.first_containing dirs p d → d ∈ dirs.
Proof. intros (pre & post & -> & _). set_solver. Qed.

Lemma scheduled_ok_frame (E : Env) (w w' : World) :
  pending_commits w' ⊆ pending_commits w →
  submodules w' = submodules w →
  watch_dir (ignore_manager w') = watch_dir (ignore_manager w) →
  Handler.scheduled_ok E w → Handler.scheduled_ok E w'.
Proof.
  intros Hp Hs Hw H k files f Hk Hf. rewrite Hs, Hw.
  eapply H; [|done]. by eapply lookup_weaken.
Qed.

Lemma scheduled_ok_step (E : Env) (a : Action) (w w' : World) :
  Handler.scheduled_ok E w → step E a w = Some w' →
  Handler.scheduled_ok E w'.
Proof.
  intros H Hstep.
  destruct (step_shape E a w w' Hstep)
    as [(_ & ->)|[(kind & event & _ & ->)|[(id & t & _ & _ & _ & _ & _ & ->)
       |[(id & t & k & _ & _ & _ & _ & ->)|[(id & t & k & cf & es & _ & _ & _ & _ & ->)
       |[(id & t & es & _ & _ & _ & _ & [-> | ->])|(_ & ->)]]]]]].
  - by apply (scheduled_ok_frame E w).
  - destruct (event_shape E kind event w)
      as (im & He & [-> | (p & td & Hs & Ht & ->)]).
    + apply (scheduled_ok_frame E w); unfold_world; [done|done| |done].
      by apply extends_watch.
    + intros k files f. unfold_world. rewrite (extends_watch _ _ He).
      rewrite lookup_insert. case_decide as Hk.
      * subst k. intros [= <-] Hf. split.
        -- destruct (target_of_cases E w (resolve (fs E) p))
             as (d & Hd & [Hfc|[-> _]]); rewrite Ht in Hd;
             injection Hd as <-; [right | by left].
           exists td. split; [by eapply first_containing_in | done].
        -- apply elem_of_union in Hf as [Hf|Hf%elem_of_singleton].
           ++ unfold Aux.pending_for in Hf.
              destruct (pending_commits w !! path_str td) as [old|] eqn:Ho;
                [|set_solver].
              by apply (H _ _ _ Ho Hf).
           ++ exists (resolve (fs E) p). split; [done|].
              by apply should_ignore_accepts in Hs as [Hs _].
      * intros Hk' Hf. by apply (H k files f).
  - by apply (scheduled_ok_frame E w).
  - destruct (pending_commits w !! k);
      apply (scheduled_ok_frame E w); unfold_world; try done.
    apply delete_subseteq.
  - by apply (scheduled_ok_frame E w).
  - by apply (scheduled_ok_frame E w).
  - by apply (scheduled_ok_frame E w).
  - rewrite stop_world. by apply (scheduled_ok_frame E w).
Qed.

(** X9. Whatever the threads do, the pending sets are filed under the
    repository of the handler or one of its submodules, and hold only
    resolved paths below the watch directory: a file outside the watch
    directory never reaches a pending set. *)
Theorem pending_below_watch_directory (E : Env) (tr : list Action)
  (w w' : World) :
  Handler.scheduled_ok E w → run E tr w = Some w' →
  Handler.scheduled_ok E w'.
Proof.
  revert w. induction tr as [|a tr IH]; intros w H Hrun; cbn in Hrun.
  - by injection Hrun as <-.
  - destruct (step E a w) as [w1|] eqn:Hs; [|done].
    eapply IH; [|exact Hrun]. by eapply scheduled_ok_step.
Qed.

Lemma fresh_scheduled_ok (E : Env) (im : IgnoreManager) (subs : list Path) :
  Handler.scheduled_ok E (set_submodules (fresh im) subs).
Proof. intros k files f H. unfold fresh in H. unfold_world. by rewrite lookup_empty in H. Qed.

Lemma pending_below_watch_directory_witness :
  ∃ w, Handler.scheduled_ok (Example.env false Example.clean_git) Example.world
       ∧ run (Example.env false Example.clean_git) Example.burst Example.world
         = Some w
       ∧ Handler.scheduled_ok (Example.env false Example.clean_git) w.
Proof.
  eexists. split; [apply fresh_scheduled_ok|].
  split; [vm_compute; reflexivity|].
  eapply (pending_below_watch_directory (Example.env false Example.clean_git)
Example.burst Example.world);
    [apply fresh_scheduled_ok | vm_compute; reflexivity].
Defined.

Lemma lookup_cancel_option_other (ts extra : list Timer) (o : option nat)
  (id : nat) (t : Timer) :
  ts !! id = Some t → (∀ i, o = Some i → i ≠ id) →
  (match o with Some i => cancel_timer ts i | None => ts end ++ extra) !! id
  = Some t.
Proof.
  intros Ht Ho. apply lookup_app_l_Some. destruct o as [i|]; [|done].
  rewrite lookup_cancel_timer, decide_False; [done | by apply Ho].
Qed.

Lemma lookup_cancel_option_inv (ts : list Timer) (o : option nat)
  (id : nat) (t' : Timer) :
  match o with Some i => cancel_timer ts i | None => ts end !! id = Some t' →
  (ts !! id = Some t' ∧ o ≠ Some id)
  ∨ (∃ t, ts !! id = Some t ∧ t' = cancelled t ∧ o = Some id).
Proof.
  destruct o as [i|]; [|by left].
  rewrite lookup_cancel_timer. case_decide as Hi.
  - subst i. destruct (ts !! id) as [t|]; [|done]. intros [= <-]. right. eauto.
  - intros H. left. split; [done | congruence].
Qed.

Lemma covered_step (E : Env) (a : Action) (w w' : World) :
  Sched.well_formed w → Handler.covered w →
  a ≠ AStop → step E a w = Some w' → Handler.covered w'.
Proof.
  intros Hwf H Ha Hstep.
  destruct (step_shape E a w w' Hstep)
    as [(_ & ->)|[(kind & event & _ & ->)|[(id0 & t0 & _ & Ht0 & Hph0 & _ & _ & ->)
       |[(id0 & t0 & k0 & _ & Ht0 & Hph0 & Hcb0 & ->)
       |[(id0 & t0 & k0 & cf & es & _ & Ht0 & Hph0 & Hcb0 & ->)
       |[(id0 & t0 & es & _ & Ht0 & Hph0 & Hcb0 & [-> | ->])|(-> & _)]]]]]];
    [done| | | | | | |done].
  - destruct (event_shape E kind event w)
      as (im & He & [-> | (p & td & Hs & Ht & ->)]); [done|].
    intros k files. unfold_world. rewrite !lookup_insert.
    case_decide as Hk.
    + subst k. intros _. eexists (length (timers w)), _.
      split; [done|]. split.
      { rewrite lookup_app_r by (rewrite length_cancel_option; lia).
        by rewrite length_cancel_option, Nat.sub_diag. }
      cbn. eauto.
    + intros Hp. destruct (H k files Hp) as (id & t & H1 & H2 & H3 & H4 & H5).
      exists id, t. split; [done|]. split; [|done].
      apply lookup_cancel_option_other; [done|].
      intros i Hi ->. destruct Hwf as [Hwf _].
      destruct (Hwf _ _ Hi) as (t1 & Ht1 & Hcb1). congruence.
  - intros k files. unfold_world. intros Hp.
    destruct (H k files Hp) as (id & t & H1 & H2 & H3 & H4 & H5).
    destruct (decide (id = id0)) as [->|Hid].
    + exists id0, (with_phase t Fired).
      rewrite lookup_alter_phase, decide_True, H2 by done. cbn. eauto 10.
    + exists id, t. by rewrite lookup_alter_phase, decide_False.
  - destruct (pending_commits w !! k0) as [cf|] eqn:Hp0.
    + intros k files. unfold_world.
      intros [Hk Hp]%lookup_delete_Some.
      destruct (H k files Hp) as (id & t & H1 & H2 & H3 & H4 & H5).
      exists id, t. rewrite lookup_delete_ne by done.
      rewrite lookup_alter_phase, decide_False; [done|].
      intros ->. congruence.
    + intros k files. unfold_world. intros Hp.
      destruct (H k files Hp) as (id & t & H1 & H2 & H3 & H4 & H5).
      exists id, t. rewrite lookup_alter_phase, decide_False; [done|].
      intros ->. congruence.
  - intros k files. unfold_world. intros Hp.
    destruct (H k files Hp) as (id & t & H1 & H2 & H3 & H4 & H5).
    exists id, t. rewrite lookup_alter_phase, decide_False; [done|].
    intros ->. destruct H5; congruence.
  - intros k files. unfold_world. intros Hp.
    destruct (H k files Hp) as (id & t & H1 & H2 & H3 & H4 & H5).
    exists id, t. rewrite lookup_alter_phase, decide_False; [done|].
    intros ->. congruence.
  - intros k files. unfold_world. intros Hp.
    destruct (H k files Hp) as (id & t & H1 & H2 & H3 & H4 & H5).
    exists id, t. rewrite lookup_alter_phase, decide_False
      by (intros ->; congruence).
    split; [done|]. split; [|done].
    apply lookup_cancel_option_other; [done|].
    intros i Hi ->. destruct Hwf as [_ Hwf].
    destruct (Hwf _ Hi) as (t1 & Ht1 & Hcb1). congruence.
Qed.

(** X10. As long as [stop] is not called, no pending change is left without
    a timer: whenever changes are pending for a directory, the timer the map
    holds for the directory is not cancelled, and it is waiting or has just
    expired, so that its callback will find the pending set. *)
Theorem pending_has_timer (E : Env) (tr : list Action) (w w' : World) :
  Sched.well_formed w → Handler.covered w → Handler.no_stop tr = true →
  run E tr w = Some w' → Handler.covered w'.
Proof.
  revert w. induction tr as [|a tr IH]; intros w Hwf H Hns Hrun;
    cbn in Hrun, Hns.
  - by injection Hrun as <-.
  - destruct (step E a w) as [w1|] eqn:Hs; [|done].
    apply andb_true_iff in Hns as [Ha Hns].
    eapply IH; [| |done|exact Hrun].
    + by eapply well_formed_step.
    + eapply covered_step; [done|done| |done]. by intros ->.
Qed.

Lemma fresh_covered (im : IgnoreManager) (subs : list Path) :
  Handler.covered (set_submodules (fresh im) subs).
Proof. intros k files H. unfold fresh in H. unfold_world. by rewrite lookup_empty in H. Qed.

Lemma pending_has_timer_witness :
  ∃ w, Sched.well_formed Example.world ∧ Handler.covered Example.world
       ∧ Handler.no_stop Example.burst = true
       ∧ run (Example.env false Example.clean_git) Example.burst Example.world
         = Some w
       ∧ Handler.covered w.
Proof.
  eexists. split; [apply fresh_well_formed|]. split; [apply fresh_covered|].
  split; [reflexivity|]. split; [vm_compute; reflexivity|].
  eapply (pending_has_timer (Example.env false Example.clean_git)
Example.burst Example.world);
    [apply fresh_well_formed | apply fresh_covered | reflexivity
    | vm_compute; reflexivity].
Defined.

Lemma one_poller_phase (id0 : nat) (p : Phase) (ts : list Timer)
  (ft : option nat) :
  p ≠ Waiting →
  (∀ id t, ts !! id = Some t → t_callback t = FetchCb →
           t_phase t = Waiting → t_finished t = false → ft = Some id) →
  ∀ id t, alter (fun t => with_phase t p) id0 ts !! id = Some t →
          t_callback t = FetchCb → t_phase t = Waiting →
          t_finished t = false → ft = Some id.
Proof.
  intros Hp H id t. rewrite lookup_alter_phase. case_decide as Hid.
  - destruct (ts !! id) as [t1|]; [|done]. intros [= <-]. cbn. done.
  - apply H.
Qed.

Lemma one_poller_step (E : Env) (a : Action) (w w' : World) :
  Handler.one_poller w → step E a w = Some w' → Handler.one_poller w'.
Proof.
  intros H Hstep.
  destruct (step_shape E a w w' Hstep)
    as [(_ & ->)|[(kind & event & _ & ->)|[(id0 & t0 & _ & Ht0 & Hph0 & _ & _ & ->)
       |[(id0 & t0 & k0 & _ & Ht0 & Hph0 & Hcb0 & ->)
       |[(id0 & t0 & k0 & cf & es & _ & Ht0 & Hph0 & Hcb0 & ->)
       |[(id0 & t0 & es & _ & Ht0 & Hph0 & Hcb0 & [-> | ->])|(_ & ->)]]]]]].
  - done.
  - destruct (event_shape E kind event w)
      as (im & He & [-> | (p & td & Hs & Ht & ->)]); [done|].
    intros id t. unfold_world.
    intros [Hold|[_ Hnew]]%lookup_app_Some Hcb Hph Hfin.
    + apply lookup_cancel_option_inv in Hold
        as [[Hold _]|(t1 & _ & -> & _)]; [by eapply H | done].
    + apply list_lookup_singleton_Some in Hnew as [_ <-]. done.
  - unfold Handler.one_poller. unfold_world.
    by apply one_poller_phase.
  - unfold Handler.one_poller.
    destruct (pending_commits w !! k0); unfold_world;
      by apply one_poller_phase.
  - unfold Handler.one_poller. unfold_world. by apply one_poller_phase.
  - unfold Handler.one_poller. unfold_world. by apply one_poller_phase.
  - unfold Handler.one_poller. unfold_world.
    apply one_poller_phase; [done|].
    intros id t [Hold|[Hl Hnew]]%lookup_app_Some Hcb Hph Hfin.
    + apply lookup_cancel_option_inv in Hold
        as [[Hold Hne]|(t1 & _ & -> & _)]; [|done].
      by destruct Hne; eapply H.
    + apply lookup_lt_Some in Hnew. cbn in Hnew.
      rewrite length_cancel_option in Hl, Hnew. f_equal. lia.
  - intros id t. rewrite stop_world. unfold_world.
    pose proof (lookup_stop w id) as Hl. rewrite stop_world in Hl.
    unfold_world. destruct Hl as [[-> _]|[-> [_ Hf]]].
    + destruct (timers w !! id) as [t1|]; [|done]. by intros [= <-].
    + intros Ht Hcb Hph Hfin. by eapply H.
Qed.

(** X11. The poll never has two timers armed: at any time, a timer of the
    poll that is waiting and not cancelled is the one the handler holds as
    [fetch_timer], whatever events, commits, polls and shutdowns there have
    been. *)
Theorem one_poll_timer (E : Env) (tr : list Action) (w w' : World) :
  Handler.one_poller w → run E tr w = Some w' → Handler.one_poller w'.
Proof.
  revert w. induction tr as [|a tr IH]; intros w H Hrun; cbn in Hrun.
  - by injection Hrun as <-.
  - destruct (step E a w) as [w1|] eqn:Hs; [|done].
    eapply IH; [|exact Hrun]. by eapply one_poller_step.
Qed.

Lemma started_one_poller : Handler.one_poller Demo.started.
Proof.
  intros [|id] t Ht _ _ _; vm_compute in Ht; [|discriminate].
  vm_compute. reflexivity.
Qed.

Lemma one_poll_timer_witness :
  ∃ w, Handler.one_poller Demo.started
       ∧ run Demo.env Demo.poll_round Demo.started = Some w
       ∧ fetch_timer w = Some 1
       ∧ Handler.one_poller w.
Proof.
  eexists. split; [apply started_one_poller|].
  split; [vm_compute; reflexivity|]. split; [reflexivity|].
  eapply (one_poll_timer Demo.env Demo.poll_round Demo.started);
    [apply started_one_poller | vm_compute; reflexivity].
Defined.

(** ** The delayed commit of a directory with pending changes *)

Lemma main_committed_eq (E : Env) (repo : Path) (a s c : CompletedProcess)
  (N P L : list Effect) :
  L = [Trace.stage_all repo a; Trace.status repo s;
       Trace.commit repo (message_of_result s) c] ++ N ++ P →
  N = Trace.notification E (message_of_result s) →
  ok a = true → ok c = true →
  Trace.pushed E (repo_dir E) P →
  Handler.delayed_main E repo L.
Proof. intros -> -> ???. by eapply Handler.main_committed. Qed.

Lemma commit_squashed_main_repo_trace (E : Env) (repo : Path)
  (cf : gset string) (w : World) :
  let r := commit_squashed_main_repo E repo cf w in
  Aux.no_runner_error (Aux.new_effects w (snd r)) = true →
  fst r = Ok tt
  ∧ Aux.same_but_effects w (snd r)
  ∧ Handler.delayed_main E repo (Aux.new_effects w (snd r)).
Proof.
  cbn zeta. focus_on (commit_squashed_main_repo E repo cf w).
  unfold commit_squashed_main_repo.
  repeat mstep E.
  all: leaf Q.
  all: try destruct status as [s|].
  all: cbn [Aux.no_runner_error forallb andb]; try discriminate; intros _.
  all: split; [reflexivity|]; split; [apply same_but_effects_logged_all|].
  all: cbn [Aux.message_for]; ok_hyps.
  all: try (by eapply Handler.main_unstaged).
  all: try (by eapply Handler.main_commit_failed).
  all: first
    [ eapply (main_committed_eq E repo _ _ _ [_] [_]);
      [reflexivity | solve_notification | done | done | solve_pushed]
    | eapply (main_committed_eq E repo _ _ _ [] [_]);
      [reflexivity | solve_notification | done | done | solve_pushed]
    | eapply (main_committed_eq E repo _ _ _ [_] []);
      [reflexivity | solve_notification | done | done | solve_pushed]
    | eapply (main_committed_eq E repo _ _ _ [] []);
      [reflexivity | solve_notification | done | done | solve_pushed] ].
Qed.

(** X12. A delayed commit for a directory with pending changes, every
    command completing: the entries of the directory are taken out of the
    pending map and of the timer map, those of other directories and the
    timers stay; then everything is staged in the directory and, if that
    succeeds, committed with the message made from the status, a commit in a
    submodule being followed by the update of the reference in the
    repository, a successful commit in the repository by the notification
    and the push as configured.  Nothing is committed after a failed
    staging, nothing pushed or notified after a failed commit, and the set
    of changed files has no part in what is run. *)
Theorem delayed_commit_runs (E : Env) (dir_key : string)
  (changed_files : gset string) (w : World) :
  pending_commits w !! dir_key = Some changed_files →
  (Path_of_str dir_key ∈ submodules w →
   is_Some (relative_to (Path_of_str dir_key) (repo_dir E))) →
  Aux.no_runner_error
    (Aux.new_effects w (snd (execute_delayed_commit E dir_key w))) = true →
  fst (execute_delayed_commit E dir_key w) = Ok tt
  ∧ pending_commits (snd (execute_delayed_commit E dir_key w))
    = delete dir_key (pending_commits w)
  ∧ commit_timers (snd (execute_delayed_commit E dir_key w))
    = delete dir_key (commit_timers w)
  ∧ timers (snd (execute_delayed_commit E dir_key w)) = timers w
  ∧ (if bool_decide (Path_of_str dir_key ∈ submodules w)
     then Trace.delayed_submodule E (Path_of_str dir_key)
            (Aux.new_effects w (snd (execute_delayed_commit E dir_key w)))
     else Handler.delayed_main E (Path_of_str dir_key)
            (Aux.new_effects w (snd (execute_delayed_commit E dir_key w))))
  ∧ ∀ other_files,
      execute_delayed_commit_unlocked E dir_key other_files w
      = execute_delayed_commit_unlocked E dir_key changed_files w.
Proof.
  intros Hp Hsub. unfold execute_delayed_commit, execute_delayed_commit_locked.
  rewrite Hp. unfold execute_delayed_commit_unlocked.
  set (w1 := set_commit_timers _ _).
  change (submodules w1) with (submodules w).
  assert (Hnew : ∀ w2, Aux.new_effects w w2 = Aux.new_effects w1 w2) by done.
  rewrite !Hnew.
  destruct (bool_decide (Path_of_str dir_key ∈ submodules w)) eqn:Hin.
  - apply bool_decide_eq_true in Hin. intros Hrun.
    destruct (commit_squashed_submodule_trace E (Path_of_str dir_key)
                changed_files w1 (Hsub Hin) Hrun) as (Hok & Hsame & Htr).
    rewrite Hsame. by repeat split.
  - intros Hrun.
    destruct (commit_squashed_main_repo_trace E (Path_of_str dir_key)
                changed_files w1 Hrun) as (Hok & Hsame & Htr).
    rewrite Hsame. by repeat split.
Qed.

Lemma delayed_commit_runs_witness :
  pending_commits Example.armed !! "/w"
  = Some (Aux.pending_for Example.armed "/w")
  ∧ Aux.no_runner_error
      (Aux.new_effects Example.armed
         (snd (execute_delayed_commit (Example.env true Example.dirty_git)
                 "/w" Example.armed))) = true
  ∧ fst (execute_delayed_commit (Example.env true Example.dirty_git) "/w"
Example.armed) = Ok tt
  ∧ pending_commits
      (snd (execute_delayed_commit (Example.env true Example.dirty_git) "/w"
Example.armed))
    = delete "/w" (pending_commits Example.armed)
  ∧ Handler.delayed_main (Example.env true Example.dirty_git) ["w"]
      (Aux.new_effects Example.armed
         (snd (execute_delayed_commit (Example.env true Example.dirty_git)
                 "/w" Example.armed))).
Proof.
  split; [vm_compute; reflexivity|]. split; [vm_compute; reflexivity|].
  destruct (delayed_commit_runs (Example.env true Example.dirty_git) "/w"
              (Aux.pending_for Example.armed "/w") Example.armed)
    as (H1 & H2 & _ & _ & H5 & _).
  - vm_compute. reflexivity.
  - intros _. by eexists.
  - vm_compute. reflexivity.
  - split; [exact H1|]. split; [exact H2|]. exact H5.
Defined.

(** ** The poll changes nothing *)

Lemma poll_effect_mono (targets targets' : list Path) (e : Effect) :
  targets ⊆ targets' →
  Handler.poll_effect targets e → Handler.poll_effect targets' e.
Proof. intros Hs. destruct e as [cmd cwd r|args]; [|done]. intros [H1 H2]. split; [done|]. by apply Hs. Qed.

Lemma fetch_and_check_changes_polls (E : Env) (repo : Path)
  (repo_name : string) (w : World) :
  ∃ es, snd (fetch_and_check_changes E repo repo_name w) = Aux.logged_all w es
        ∧ Forall (Handler.poll_effect [repo]) es.
Proof.
  focus_on (fetch_and_check_changes E repo repo_name w).
  unfold fetch_and_check_changes.
  repeat mstep E.
  all: subst Q; cbv beta; cbn [fst snd];
    rewrite ?logged_one, ?logged_more; cbn [app].
  all: eexists; (split; [reflexivity|]).
  all: repeat (constructor; [split; [reflexivity | apply list_elem_of_here]|]).
  all: constructor.
Qed.

Lemma fetch_submodules_polls (E : Env) (subs : list Path)
  (acc : list (string * string)) (w : World) :
  ∃ es, snd (fetch_submodules E subs acc w) = Aux.logged_all w es
        ∧ Forall (Handler.poll_effect subs) es.
Proof.
  revert acc w. induction subs as [|s subs IH]; intros acc w.
  - exists []. split; [by rewrite logged_all_nil | constructor].
  - cbn [fetch_submodules]. unfold bind.
    destruct (fetch_and_check_changes_polls E s ("submodule " +:+ name s) w)
      as (es1 & Hw1 & H1).
    destruct (fetch_and_check_changes E s ("submodule " +:+ name s) w)
      as [[changes|] w1]; cbn [fst snd] in *; subst w1.
    + destruct (IH (if truthy changes
                    then dict_set acc (name s) (default "" changes) else acc)
                  (Aux.logged_all w es1)) as (es2 & -> & H2).
      exists (es1 ++ es2). split; [by rewrite logged_more|].
      apply Forall_app. split.
      * eapply Forall_impl; [exact H1|]. intros e. apply poll_effect_mono.
        set_solver.
      * eapply Forall_impl; [exact H2|]. intros e. apply poll_effect_mono.
        set_solver.
    + exists es1. split; [done|].
      eapply Forall_impl; [exact H1|]. intros e. apply poll_effect_mono.
      set_solver.
Qed.

(** X13. A poll cycle only looks: the commands it runs, in the repository
    and in the submodules and nowhere else, are [git rev-parse],
    [git fetch], [git branch --show-current] and [git rev-list --count], so
    that nothing is staged, committed or pushed; besides them it sends
    notifications.  The pending sets, the commit timers and the submodules
    are left as they are. *)
Theorem poll_only_reads (E : Env) (w : World) :
  Forall (Handler.poll_effect (repo_dir E :: submodules w))
         (Aux.new_effects w (exec (periodic_fetch E) w))
  ∧ effects (exec (periodic_fetch E) w)
    = effects w ++ Aux.new_effects w (exec (periodic_fetch E) w)
  ∧ pending_commits (exec (periodic_fetch E) w) = pending_commits w
  ∧ commit_timers (exec (periodic_fetch E) w) = commit_timers w
  ∧ submodules (exec (periodic_fetch E) w) = submodules w
  ∧ attempts (exec (periodic_fetch E) w) = attempts w.
Proof.
  assert (H : ∃ es w',
    exec (periodic_fetch E) w = w'
    ∧ Forall (Handler.poll_effect (repo_dir E :: submodules w)) es
    ∧ effects w' = effects w ++ es
    ∧ pending_commits w' = pending_commits w
    ∧ commit_timers w' = commit_timers w
    ∧ submodules w' = submodules w
    ∧ attempts w' = attempts w).
  { unfold exec, periodic_fetch, bind.
    destruct (fetch_and_check_changes_polls E (repo_dir E) "main repo" w)
      as (es0 & Hw0 & H0).
    assert (H0' : Forall (Handler.poll_effect (repo_dir E :: submodules w)) es0).
    { eapply Forall_impl; [exact H0|]. intros e. apply poll_effect_mono.
      set_solver. }
    destruct (fetch_and_check_changes E (repo_dir E) "main repo" w)
      as [[main|] w0]; cbn [fst snd] in *; subst w0;
      [|by exists es0; eexists; repeat split].
    destruct (fetch_submodules_polls E (submodules (Aux.logged_all w es0)) []
                (Aux.logged_all w es0)) as (es1 & Hw1 & H1).
    assert (H1' : Forall (Handler.poll_effect (repo_dir E :: submodules w)) es1).
    { eapply Forall_impl; [exact H1|]. intros e. apply poll_effect_mono.
      change (submodules (Aux.logged_all w es0)) with (submodules w).
      set_solver. }
    destruct (fetch_submodules E _ [] (Aux.logged_all w es0))
      as [[d|] w1]; cbn [fst snd] in *; subst w1;
      rewrite logged_more;
      [|exists (es0 ++ es1); eexists; repeat split; by apply Forall_app].
    assert (Hn : ∃ N,
      when (truthy main || match d with [] => false | _ => true end)
           (when (enable_notifications (config E)
                  && notify_on_remote_changes (config E))
                 (send_change_notification E main d))
           (Aux.logged_all w (es0 ++ es1))
      = (Ok tt, Aux.logged_all w ((es0 ++ es1) ++ N))
      ∧ Forall Trace.is_notification N).
    { unfold when.
      destruct (truthy main || _);
        [destruct (enable_notifications (config E) && _)|].
      - destruct (send_change_notification_trace E main d
                    (Aux.logged_all w (es0 ++ es1))) as (N & -> & HN).
        exists N. by rewrite logged_more.
      - exists []. rewrite app_nil_r. split; [done | constructor].
      - exists []. rewrite app_nil_r. split; [done | constructor]. }
    destruct Hn as (N & -> & HN).
    rewrite start_fetch_timer_eq. cbn [snd].
    exists ((es0 ++ es1) ++ N). eexists. split; [reflexivity|].
    split; [|by repeat split].
    apply Forall_app. split; [by apply Forall_app|].
    eapply Forall_impl; [exact HN|]. by intros [|]. }
  destruct H as (es & w' & -> & Hes & Heff & Hp & Hc & Hs & Ha).
  assert (Hnew : Aux.new_effects w w' = es).
  { unfold Aux.new_effects. rewrite Heff. apply drop_app_length. }
  rewrite Hnew. by repeat split.
Qed.

(** ** The construction of the handler *)

Lemma relative_to_app (p q : Path) : relative_to (p ++ q) p = Some q.
Proof.
  induction p as [|x p IH]; cbn; [by destruct q|]. by rewrite String.eqb_refl.
Qed.

Lemma get_submodules_ok (E : Env) (w : World) :
  ∃ subs e, get_submodules E w = (Ok subs, Aux.logged w e).
Proof.
  unfold get_submodules, catch, bind, run_git_command, Aux.logged.
  destruct (git E (effects w) _ (repo_dir E)) as [result|];
    [|by eexists _, _].
  destruct (ok result); by eexists _, _.
Qed.

(** X14. [_get_submodules] never fails: it runs one command in the
    repository, and a command that cannot be run or returns an error leaves
    the handler without submodules.  For a command that succeeds the
    submodules are the non-blank lines of the output, stripped and joined to
    the repository, in the order of the output; a line that is a relative
    path gives a directory below the repository. *)
Theorem get_submodules_safe (E : Env) (w : World) :
  ∃ subs,
    get_submodules E w
    = (Ok subs,
       Aux.logged w
         (EGit ["git"; "submodule"; "foreach"; "--quiet"; "echo $sm_path"]
               (repo_dir E)
               (git E (effects w)
                    ["git"; "submodule"; "foreach"; "--quiet"; "echo $sm_path"]
                    (repo_dir E))))
    ∧ match git E (effects w)
              ["git"; "submodule"; "foreach"; "--quiet"; "echo $sm_path"]
              (repo_dir E) with
      | Completed result =>
          if ok result then
            subs = List.map (fun line => joinpath (repo_dir E) line)
                            (stripped_lines (stdout result))
            ∧ Forall (fun line =>
                        startswith line "/" = false →
                        is_relative_to (joinpath (repo_dir E) line)
                                       (repo_dir E) = true)
                     (stripped_lines (stdout result))
          else subs = []
      | RunError => subs = []
      end.
Proof.
  unfold get_submodules, catch, bind, run_git_command, Aux.logged.
  destruct (git E (effects w) _ (repo_dir E)) as [result|];
    [|by eexists].
  destruct (ok result); [|by eexists]. eexists. split; [reflexivity|].
  split.
  - unfold stripped_lines.
    induction (split "010" (strip (stdout result))) as [|l ls IH]; [done|].
    cbn [List.filter List.map]. destruct (is_empty (strip l)); cbn; [done|].
    by rewrite IH.
  - apply Forall_forall. intros line _ Hrel.
    unfold joinpath, is_relative_to. rewrite Hrel.
    by rewrite relative_to_app.
Qed.

Lemma effect_only_commit_existing_in_repo (E : Env) (repo : Path)
  (repo_name : string) :
  Aux.effect_only (commit_existing_in_repo E repo repo_name).
Proof.
  unfold commit_existing_in_repo, push_changes, send_commit_notification.
  effect_only. all: apply effect_only_commit_submodule_update.
Qed.

Lemma effect_only_commit_existing_in_submodules (E : Env) (subs : list Path) :
  Aux.effect_only (commit_existing_in_submodules E subs).
Proof.
  induction subs as [|s subs IH]; cbn [commit_existing_in_submodules].
  - apply effect_only_ret.
  - apply effect_only_bind; [apply effect_only_commit_existing_in_repo|].
    by intros _.
Qed.

Lemma effect_only_commit_existing_changes (E : Env) :
  Aux.effect_only (commit_existing_changes E).
Proof.
  intros w. unfold commit_existing_changes, bind.
  destruct (effect_only_commit_existing_in_repo E (repo_dir E) "main repo" w)
    as (es & Hes).
  destruct (commit_existing_in_repo E (repo_dir E) "main repo" w)
    as [[[]|] w1]; cbn [snd] in *; subst w1; [|by exists es].
  destruct (effect_only_commit_existing_in_submodules E
              (submodules (Aux.logged_all w es)) (Aux.logged_all w es))
    as (es' & ->).
  exists (es ++ es'). by rewrite logged_more.
Qed.

(** The world [__init__] leaves: the submodules are set and effects added;
    the fetch timer is armed unless a command of the startup commits could
    not be run. *)
Lemma init_shape (E : Env) (w : World) :
  ∃ subs es (completed : bool),
    init E w
    = if completed
      then start_fetch_timer E (Aux.logged_all (set_submodules w subs) es)
      else (Exc, Aux.logged_all (set_submodules w subs) es).
Proof.
  unfold init. unfold bind at 1.
  destruct (get_submodules_ok E w) as (subs & e & ->).
  unfold bind at 1. cbn [fst snd]. unfold bind.
  assert (Hw : ∀ es, Aux.logged_all (set_submodules (Aux.logged w e) subs) es
                     = Aux.logged_all (set_submodules w subs) (e :: es)).
  { intros es. unfold_world. by rewrite <- app_assoc. }
  destruct (effect_only_commit_existing_changes E
              (set_submodules (Aux.logged w e) subs)) as (es & Hes).
  rewrite Hw in Hes.
  destruct (commit_existing_changes E _) as [[[]|] w1]; cbn [snd] in Hes;
    subst w1.
  - by exists subs, (e :: es), true.
  - by exists subs, (e :: es), false.
Qed.

(** A handler with nothing pending, no commit timer and at most the fetch
    timer, waiting. *)
Lemma quiet_handler (E : Env) (w : World) :
  pending_commits w = ∅ → commit_timers w = ∅ →
  (timers w = [] ∧ fetch_timer w = None
   ∨ ∃ d, timers w = [{| t_deadline := d; t_callback := FetchCb;
                         t_finished := false; t_phase := Waiting |}]
          ∧ fetch_timer w = Some 0) →
  Sched.well_formed w ∧ Sched.registered w
  ∧ (∀ k, Sched.idle k w)
  ∧ Handler.one_poller w ∧ Handler.covered w
  ∧ Handler.scheduled_ok E w.
Proof.
  intros Hp Hc Ht.
  assert (Hone : ∀ id t, timers w !! id = Some t →
                         t_callback t = FetchCb ∧ fetch_timer w = Some id).
  { intros id t H. destruct Ht as [[Ht _]|(d & Ht & Hf)]; rewrite Ht in H.
    - by rewrite lookup_nil in H.
    - destruct id as [|id]; cbn in H; [|by destruct id].
      by injection H as <-. }
  split; [|split; [|split; [|split; [|split]]]].
  - split.
    + intros k id H. by rewrite Hc, lookup_empty in H.
    + intros id Hid. destruct Ht as [[_ Hf]|(d & Ht & Hf)]; [congruence|].
      rewrite Hf in Hid. injection Hid as <-. rewrite Ht. by eexists.
  - intros id t H _ _. destruct (Hone id t H) as [-> Hf]. done.
  - intros k. split; [by rewrite Hp, lookup_empty|].
    intros id t H Hcb. destruct (Hone id t H) as [Hf _]. congruence.
  - intros id t H _ _ _. by destruct (Hone id t H).
  - intros k files H. by rewrite Hp, lookup_empty in H.
  - intros k files f H. by rewrite Hp, lookup_empty in H.
Qed.

(** X15. The handler when [__init__] is over.  Nothing is pending and no
    commit timer exists, whatever the startup commits did; when the
    constructor returns, the heap holds one timer, the fetch timer, due
    [fetch_interval] after the start, and when a command of the startup
    commits cannot be run the constructor fails before any timer is armed.
    In both cases the state is one from which the properties of the running
    handler hold: the maps are well formed, every waiting timer is the one
    its map records, every directory is at rest, at most one poll timer is
    armed, and the pending sets are covered and well filed. *)
Theorem handler_after_init (E : Env) (im : IgnoreManager) :
  let r := init E (fresh im) in
  now (snd r) = 0 ∧ pending_commits (snd r) = ∅
  ∧ commit_timers (snd r) = ∅ ∧ attempts (snd r) = []
  ∧ ignore_manager (snd r) = im
  ∧ match fst r with
    | Ok _ =>
        timers (snd r) = [{| t_deadline := fetch_interval (config E);
                             t_callback := FetchCb;
                             t_finished := false; t_phase := Waiting |}]
        ∧ fetch_timer (snd r) = Some 0
    | Exc => timers (snd r) = [] ∧ fetch_timer (snd r) = None
    end
  ∧ Sched.well_formed (snd r) ∧ Sched.registered (snd r)
  ∧ (∀ k, Sched.idle k (snd r))
  ∧ Handler.one_poller (snd r) ∧ Handler.covered (snd r)
  ∧ Handler.scheduled_ok E (snd r).
Proof.
  cbn zeta. destruct (init_shape E (fresh im)) as (subs & es & [] & ->).
  - rewrite start_fetch_timer_eq. cbn [fst snd].
    do 5 (split; [reflexivity|]). split; [by split|].
    apply quiet_handler; [done | done |]. right. by eexists.
  - cbn [fst snd]. do 5 (split; [reflexivity|]). split; [by split|].
    apply quiet_handler; [done | done |]. by left.
Qed.

(** ** The shutdown, once more *)

Lemma cancel_timer_twice (ts : list Timer) (id : nat) :
  cancel_timer (cancel_timer ts id) id = cancel_timer ts id.
Proof.
  apply list_eq. intros j. rewrite !lookup_cancel_timer.
  case_decide; [|done]. by destruct (ts !! j).
Qed.

(** X16. [stop] runs no command and leaves the pending sets as they are:
    changes that wait for their commit when the handler is stopped are not
    committed by it.  It keeps the number of timers and its hold on the
    fetch timer, and calling it a second time changes nothing. *)
Theorem stop_only_cancels (w : World) :
  effects (exec stop w) = effects w
  ∧ pending_commits (exec stop w) = pending_commits w
  ∧ attempts (exec stop w) = attempts w
  ∧ fetch_timer (exec stop w) = fetch_timer w
  ∧ length (timers (exec stop w)) = length (timers w)
  ∧ exec stop (exec stop w) = exec stop w.
Proof.
  rewrite (stop_world (exec stop w)). rewrite !stop_world. unfold_world.
  assert (Hlen : ∀ (ids : list (string * nat)) ts,
    length (List.fold_left (fun ts kv => cancel_timer ts (snd kv)) ids ts)
    = length ts).
  { intros ids. induction ids as [|kv ids IH]; intros ts; [done|].
    cbn [List.fold_left]. by rewrite IH, length_cancel_timer. }
  do 4 (split; [reflexivity|]). split.
  - destruct (fetch_timer w); by rewrite ?length_cancel_timer, Hlen.
  - rewrite map_to_list_empty. cbn [List.fold_left].
    destruct (fetch_timer w); [|done]. by rewrite cancel_timer_twice.
Qed.

(** ** The status lines behind the commit message *)

Lemma stripped_lines_head (out line : string) :
  line ∈ stripped_lines out →
  ∃ c r, line = String c r ∧ is_space c = false.
Proof.
  unfold stripped_lines. intros [Hin Hne]%list_elem_of_In%filter_In.
  apply in_map_iff in Hin as (x & <- & _).
  destruct (strip_head x) as [He|(c & r & -> & Hc)]; [by rewrite He in Hne|].
  eauto.
Qed.

(** X17. The status lines are stripped before they are counted, so none of
    them begins with a blank: the test for lines that begin with " M" never
    succeeds, and the files counted as modified are the lines that begin
    with "M " once stripped, which takes in the lines git writes as " M"
    for changes that are not staged. *)
Theorem modified_lines_counted (out : string) :
  Forall (fun line => startswith line " M" = false) (stripped_lines out)
  ∧ Aux.count_modified (stripped_lines out)
    = count_prefix "M " (stripped_lines out).
Proof.
  assert (H : Forall (fun line => startswith line " M" = false)
                     (stripped_lines out)).
  { apply Forall_forall. intros line (c & r & -> & Hc)%stripped_lines_head.
    unfold startswith. cbn [String.prefix].
    destruct (ascii_dec " " c) as [<-|_]; [done|done]. }
  split; [done|]. unfold Aux.count_modified, count_prefix.
  induction H as [|line lines Hl _ IH]; [done|].
  cbn [List.filter]. rewrite Hl, orb_false_r.
  destruct (startswith line "M "); cbn [length]; by rewrite IH.
Qed.

(** ** Events of the file system, whatever their kind *)

(** X18. The kind of a change has no part in what the handler does: the
    events that report a file as created, modified or deleted are handled
    alike, a move as a change of its destination, and an event about a
    directory changes nothing at all. *)
Theorem event_kind_irrelevant (E : Env) (event : FileSystemEvent) (w : World) :
  on_created E event w = on_modified E event w
  ∧ on_deleted E event w = on_modified E event w
  ∧ (∀ dest, dest_path event = Some dest →
             on_moved E event w
             = on_modified E (Aux.with_src_path event dest) w)
  ∧ (is_directory event = true →
     ∀ kind, dispatch E kind event w = (Ok tt, w)).
Proof.
  split; [reflexivity|]. split; [reflexivity|]. split.
  - intros dest H. unfold on_moved, on_modified. rewrite H. cbn.
    by destruct (is_directory event).
  - intros H kind. destruct kind; unfold dispatch, on_modified, on_created,
      on_deleted, on_moved; by rewrite H.
Qed.

(** ** The walk up to the watch directory ends *)

Lemma parts_le_nil (wd : Path) : parts_le wd [] = true → wd = [].
Proof. by destruct wd. Qed.

Lemma length_parent (dir : Path) : length (parent dir) = length dir - 1.
Proof.
  unfold parent. induction dir as [|x dir IH]; [done|].
  destruct dir as [|y dir]; [done|].
  change (List.removelast (x :: y :: dir)) with (x :: List.removelast (y :: dir)).
  cbn [length] in *. rewrite IH. lia.
Qed.

Lemma walk_fuel (fs : FileSystem) (fuel : nat) :
  ∀ (fuel' : nat) (im : IgnoreManager) (file dir : Path),
    length dir < fuel → fuel ≤ fuel' →
    gitignore_walk fs fuel' im file dir = gitignore_walk fs fuel im file dir.
Proof.
  induction fuel as [|fuel IH]; intros fuel' im file dir Hd Hf; [lia|].
  destruct fuel' as [|fuel']; [lia|]. cbn [gitignore_walk].
  destruct (path_ge dir (watch_dir im)) eqn:Hge; [|done]. cbn zeta.
  set (im1 := match read_lines fs (joinpath dir ".gitignore") with
              | Some _ => _ | None => _ end).
  destruct (match read_lines fs (joinpath dir ".gitignore") with
            | Some _ => _ | None => false end); [done|].
  destruct (path_eqb dir (watch_dir im)) eqn:Heq; [done|].
  apply IH; [|lia]. rewrite length_parent.
  destruct dir as [|x dir]; [|cbn in *; lia].
  unfold path_ge in Hge. apply parts_le_nil in Hge.
  unfold path_eqb in Heq. apply bool_decide_eq_false in Heq. congruence.
Qed.

Lemma passes_walk (fs : FileSystem) (n : nat) :
  ∀ (im : IgnoreManager) (file dir : Path),
    length dir < n →
    IgnoreTools.passes fs n im file dir
    = Some (gitignore_walk fs n im file dir).
Proof.
  induction n as [|n IH]; intros im file dir Hd; [lia|].
  cbn [IgnoreTools.passes gitignore_walk]. unfold IgnoreTools.pass.
  destruct (path_ge dir (watch_dir im)) eqn:Hge; [|done]. cbn zeta.
  set (im1 := match read_lines fs (joinpath dir ".gitignore") with
              | Some _ => _ | None => _ end).
  destruct (match read_lines fs (joinpath dir ".gitignore") with
            | Some _ => _ | None => false end); [done|].
  destruct (path_eqb dir (watch_dir im)) eqn:Heq; [done|].
  apply IH. rewrite length_parent.
  destruct dir as [|x dir]; [|cbn in *; lia].
  unfold path_ge in Hge. apply parts_le_nil in Hge.
  unfold path_eqb in Heq. apply bool_decide_eq_false in Heq. congruence.
Qed.

(** X19. The loop of [_matches_gitignore] ends for every file and every
    watch directory: counting its passes, it has returned after one more
    pass than the directory of the file has components, at the latest, and
    with the answer and the cache [_matches_gitignore] is modelled with; any
    larger bound on the passes gives the same. *)
Theorem matches_gitignore_terminates (fs : FileSystem) (im : IgnoreManager)
  (file_path : Path) :
  IgnoreTools.passes fs (S (length (parent file_path))) im file_path
    (parent file_path)
  = Some (matches_gitignore fs im file_path)
  ∧ ∀ n, length (parent file_path) < n →
         IgnoreTools.passes fs n im file_path (parent file_path)
         = Some (matches_gitignore fs im file_path).
Proof.
  assert (H : ∀ n, length (parent file_path) < n →
                   IgnoreTools.passes fs n im file_path (parent file_path)
                   = Some (matches_gitignore fs im file_path)).
  { intros n Hn. rewrite passes_walk by done. f_equal.
    unfold matches_gitignore. apply walk_fuel; lia. }
  split; [apply H; lia | exact H].
Qed.

(** ** The validation of a configuration *)

Section Validate.
  Context (path_exists : ConfigFile.PurePath → bool).

Lemma fold_warnings (files : list string) (r : ConfigFile.Validation) :
    let r' := List.fold_left
                (fun results ignore_file =>
                   if negb (path_exists (ConfigFile.pure_path ignore_file))
                   then ConfigFile.add_warning results
                          ("Ignore file does not exist: " +:+ ignore_file)
                   else results) files r in
    ConfigFile.valid r' = ConfigFile.valid r
    ∧ ConfigFile.errors r' = ConfigFile.errors r
    ∧ ConfigFile.warnings r'
      = ConfigFile.warnings r
        ++ List.map (fun f => "Ignore file does not exist: " +:+ f)
             (List.filter
                (fun f => negb (path_exists (ConfigFile.pure_path f))) files).
  Proof.
    revert r. induction files as [|f files IH]; intros r; cbn zeta.
    - cbn. by rewrite app_nil_r.
    - cbn [List.fold_left List.filter].
      destruct (negb (path_exists (ConfigFile.pure_path f))).
      + destruct (IH (ConfigFile.add_warning r
                        ("Ignore file does not exist: " +:+ f)))
          as (H1 & H2 & H3).
        rewrite H1, H2, H3. cbn. by rewrite <- app_assoc.
      + apply IH.
  Qed.

  (** X20. [validate_config] declares a configuration valid exactly when
      it reports no error, and that is exactly when the watch directory and
      the repository exist, the repository holds a [.git] entry, and neither
      delay is negative.  An ignore file that does not exist gives a
      warning, one for each such file and in their order, and never makes
      the configuration invalid. *)
Theorem validate_config_verdict (config : ConfigFile.Loaded) :
    let r := ConfigFile.validate path_exists config in
    (ConfigFile.valid r = true ↔ ConfigFile.errors r = [])
    ∧ (ConfigFile.valid r = true
       ↔ path_exists (ConfigFile.pure_path (ConfigFile.watch_directory config))
         = true
         ∧ path_exists (ConfigFile.pure_path (ConfigFile.repo_directory config))
           = true
         ∧ path_exists
             (ConfigFile.child
                (ConfigFile.pure_path (ConfigFile.repo_directory config))
                ".git") = true
         ∧ (0 ≤ ConfigFile.commit_delay config)%Z
         ∧ (0 ≤ ConfigFile.fetch_interval config)%Z)
    ∧ ConfigFile.warnings r
      = List.map (fun f => "Ignore file does not exist: " +:+ f)
          (List.filter (fun f => negb (path_exists (ConfigFile.pure_path f)))
                       (ConfigFile.ignore_files config)).
  Proof.
    cbn zeta. unfold ConfigFile.validate. cbv zeta.
    match goal with
    | |- context [List.fold_left ?f ?l ?r] =>
        destruct (fold_warnings l r) as (Hv & He & Hw);
        cbv zeta in Hv, He, Hw;
        set (r2 := List.fold_left f l r) in *
    end.
    clearbody r2. destruct r2 as [v e wn].
    cbn [ConfigFile.valid ConfigFile.errors ConfigFile.warnings] in Hv, He, Hw.
    subst v e wn.
    destruct (path_exists (ConfigFile.pure_path
                             (ConfigFile.watch_directory config)));
      destruct (path_exists (ConfigFile.pure_path
                               (ConfigFile.repo_directory config)));
      destruct (path_exists (ConfigFile.child _ ".git"));
      destruct (Z.ltb_spec (ConfigFile.commit_delay config) 0);
      destruct (Z.ltb_spec (ConfigFile.fetch_interval config) 0);
      cbn; (split; [|split; [|done]]).
    all: try (split; [done | by intros ?%app_eq_nil]).
    all: try (split; [done | by intros [? ?]%app_eq_nil]).
    all: try (split; [done | intros (? & ? & ? & ? & ?); first [done | lia]]).
    all: done.
  Qed.

End Validate.
